(** * Render planning and dual-backend orchestration of the video service

    A shallow embedding of the render-plan builder
    ([services/imagePreloadService.ts], imported by the renderer as
    [renderTiming.ts]) and of the orchestration layer of
    [services/progressiveVideoService.ts].

    Numbers.  The timing functions are embedded twice.  In the modules
    [RenderTiming] and [VideoRendering] a JavaScript [number] that is known
    to be finite is an exact rational of type [Q] and the raw [duration] of
    a scene, which the code tests with [Number.isFinite], is a [jsnum] that
    may also be [NaN] or an infinity; rounding and overflow are outside
    that model, which serves the statements that do not turn on the last
    bit of a sum or a product.  In the module [Binary64] every [number] is
    an IEEE 754 binary64 value and every operation rounds as JavaScript's
    does; the statements about the preview cap, the frame count and the
    canvas thresholds are made there. *)

From Stdlib Require Import String Ascii.
From Stdlib Require Import QArith Qround Qminmax ZArith List Lia Lqa Bool.
From Stdlib Require Import SpecFloat.
Import ListNotations.
Open Scope Q_scope.

(** ** JavaScript numbers and array helpers *)

Module Js.

Inductive jsnum : Type :=
| Num (q : Q)
| PosInfinity
| NegInfinity
| NaN.

(** [x > y] and [x <= y] on finite numbers. *)
Definition gtb (x y : Q) : bool := if Qlt_le_dec y x then true else false.
Definition leb (x y : Q) : bool := negb (gtb x y).

(** [Number.isFinite(value)] *)
Definition isFinite (value : jsnum) : bool :=
  match value with
  | Num _ => true
  | _ => false
  end.

(** [array.reduce((sum, value) => sum + value, 0)] *)
Definition sum (values : list Q) : Q := fold_left Qplus values 0.

(** [array.map((value, index) => f(value, index))] *)
Fixpoint mapi_from {A B : Type} (f : A -> nat -> B) (start : nat) (l : list A) : list B :=
  match l with
  | [] => []
  | x :: rest => f x start :: mapi_from f (S start) rest
  end.

Definition mapi {A B : Type} (f : A -> nat -> B) (l : list A) : list B :=
  mapi_from f 0 l.

(** [array[index] = value] for an index inside the array (the only way the
    embedded code writes to an array). *)
Fixpoint update {A : Type} (index : nat) (value : A) (l : list A) : list A :=
  match l, index with
  | [], _ => []
  | _ :: rest, O => value :: rest
  | x :: rest, S index' => x :: update index' value rest
  end.

(** [Math.round(x)]: nearest integer, ties towards positive infinity. *)
Definition round (x : Q) : Z := Qfloor (x + (1 # 2)).

End Js.
Import Js.

(** ** The data model ([types.ts]) *)

Inductive FootageType : Type := Image | Video.

(** [kenBurnsConfig] only feeds the raster compositor and is left out. *)
Record Scene : Type := mkScene {
  id : string;
  sceneText : string;
  keywords : list string;
  imagePrompt : string;
  duration : jsnum;
  footageUrl : string;
  footageType : FootageType
}.

(** ['16:9' | '9:16'] *)
Inductive AspectRatio : Type := Landscape16x9 | Portrait9x16.

(** ** Render timing ([renderTiming.ts]) *)

Module RenderTiming.

Inductive RenderMode : Type := Preview | Download.

Record SceneRenderPlanItem : Type := mkItem {
  scene : Scene;
  durationSeconds : Q;
  frameCount : Z
}.

Definition PREVIEW_MIN_SCENE_DURATION_SECONDS : Q := 75 # 100.
Definition PREVIEW_MAX_TOTAL_DURATION_SECONDS : Q := 15.

(** [const epsilon = 1e-3] of [clampDurationsWithMinimums]. *)
Definition epsilon : Q := 1 # 1000.

(** The filter that selects the entries still above their minimum. *)
Definition adjustableIndices (adjusted minimums : list Q) : list (Q * nat) :=
  filter (fun entry => gtb (fst entry - nth (snd entry) minimums 0) epsilon)
         (mapi (fun value index => (value, index)) adjusted).

(** Body of [for (const { index } of adjustableIndices)]; the state is the
    array [adjusted] together with the accumulator [consumed]. *)
Definition reduceAt (minimums : list Q) (decrement : Q)
           (st : list Q * Q) (entry : Q * nat) : list Q * Q :=
  let index := snd entry in
  let maxReduction := nth index (fst st) 0 - nth index minimums 0 in
  if leb maxReduction 0 then st
  else
    let reduction := Qmin maxReduction decrement in
    if leb reduction 0 then st
    else (update index (nth index (fst st) 0 - reduction) (fst st),
          snd st + reduction).

(** The [while] loop.  [fuel] is [1000 - iterations]; the result is the
    pair [(adjusted, total)] with which the loop is left. *)
Fixpoint clampLoop (fuel : nat) (minimums : list Q) (targetTotal : Q)
         (adjusted : list Q) (total : Q) : list Q * Q :=
  match fuel with
  | O => (adjusted, total)
  | S fuel' =>
      if gtb (total - targetTotal) epsilon then
        let adjustable := adjustableIndices adjusted minimums in
        match adjustable with
        | [] => (adjusted, total)
        | _ :: _ =>
            let excess := total - targetTotal in
            let decrement := excess / inject_Z (Z.of_nat (length adjustable)) in
            let st := fold_left (reduceAt minimums decrement) adjustable (adjusted, 0) in
            if leb (snd st) epsilon then (fst st, total)
            else clampLoop fuel' minimums targetTotal (fst st) (total - snd st)
        end
      else (adjusted, total)
  end.

(** [minimums[index]] is read with default [0]; the only caller passes two
    arrays mapped from the same scene list, so no read is out of range. *)
Definition clampDurationsWithMinimums (durations minimums : list Q)
           (targetTotal : Q) : list Q :=
  match durations with
  | [] => []
  | _ :: _ =>
      let total := sum durations in
      if leb total targetTotal then durations
      else
        let st := clampLoop 1000 minimums targetTotal durations total in
        if gtb (snd st) targetTotal then
          let scale := targetTotal / snd st in
          mapi (fun value i => Qmax (nth i minimums 0) (value * scale)) (fst st)
        else fst st
  end.

Definition sanitiseDuration (value : jsnum) : Q :=
  match value with
  | Num q => if leb q 0 then 0 else q
  | _ => 0
  end.

Definition computeEffectiveDurations (scenes : list Scene) (mode : RenderMode) : list Q :=
  match mode with
  | Download => map (fun s => sanitiseDuration (duration s)) scenes
  | Preview =>
      match scenes with
      | [] => []
      | _ :: _ =>
          let sanitisedDurations := map (fun s => sanitiseDuration (duration s)) scenes in
          let totalOriginalDuration := sum sanitisedDurations in
          if leb totalOriginalDuration 0 then repeat 0 (length scenes)
          else if leb totalOriginalDuration PREVIEW_MAX_TOTAL_DURATION_SECONDS
          then sanitisedDurations
          else
            let scaledDurations :=
              map (fun value =>
                     if leb value 0 then 0
                     else (value / totalOriginalDuration) * PREVIEW_MAX_TOTAL_DURATION_SECONDS)
                  sanitisedDurations in
            let positiveDurationCount :=
              length (filter (fun value => gtb value 0) sanitisedDurations) in
            let dynamicMinimum :=
              if (0 <? positiveDurationCount)%nat
              then Qmin PREVIEW_MIN_SCENE_DURATION_SECONDS
                        (PREVIEW_MAX_TOTAL_DURATION_SECONDS
                         / inject_Z (Z.of_nat positiveDurationCount))
              else 0 in
            let minimums :=
              map (fun value => if gtb value 0 then dynamicMinimum else 0)
                  sanitisedDurations in
            let clamped :=
              mapi (fun value index =>
                      if Qeq_bool (nth index minimums 0) 0 then 0
                      else Qmax (nth index minimums 0) value)
                   scaledDurations in
            clampDurationsWithMinimums clamped minimums PREVIEW_MAX_TOTAL_DURATION_SECONDS
      end
  end.

Definition buildRenderPlan (scenes : list Scene) (fps : Q) (mode : RenderMode)
  : list SceneRenderPlanItem :=
  let effectiveDurations := computeEffectiveDurations scenes mode in
  mapi (fun scene index =>
          let durationSecondsRaw := nth index effectiveDurations 0 in
          let safeDurationSeconds :=
            if gtb durationSecondsRaw (1 # 100) then durationSecondsRaw
            else match mode with
                 | Preview => PREVIEW_MIN_SCENE_DURATION_SECONDS
                 | Download => Qmax (12 # 10) (1 / fps)
                 end in
          let frameCount := Z.max 1 (Qceiling (safeDurationSeconds * fps)) in
          mkItem scene safeDurationSeconds frameCount)
       scenes.

End RenderTiming.
Import RenderTiming.

(** ** The renderer ([videoRenderingService.ts], second half of
       [services/progressiveVideoService.ts])

    The browser is an environment [Env]: which capabilities exist, which
    sources load, where an encoder fails and when the cancellation signal
    fires.  Time is a clock that advances at every [await]; the signal can
    only fire while the code is suspended, so [signal.aborted] is read as
    "the clock has reached the firing tick".  What the caller can observe
    (progress callbacks, frames handed to the encoder, backoff sleeps,
    backends entered) is logged in a trace.

    The preload worker pool is modelled by the schedule in which every
    scene is loaded to completion before the next one is taken. *)

Module VideoRendering.

Record RenderConfig : Type := mkConfig {
  fps : Q;
  maxLandscapeWidth : Q;
  maxPortraitHeight : Q;
  bitrate : Q
}.

Definition RENDER_CONFIG (mode : RenderMode) : RenderConfig :=
  match mode with
  | Preview => mkConfig 15 854 960 1200000
  | Download => mkConfig 24 1280 1280 3500000
  end.

Definition getRenderConfig (mode : RenderMode) : RenderConfig := RENDER_CONFIG mode.

Definition MIN_EFFECTIVE_FPS : Q := 4.
Definition MIN_DOWNLOAD_FPS : Q := 8.
Definition MIN_PREVIEW_FPS : Q := 10.
Definition PREVIEW_FRAME_BUDGET : Q := 3000.
Definition DOWNLOAD_FRAME_BUDGET : Q := 4500.
Definition LONG_FORM_DURATION_THRESHOLD_SECONDS : Q := 120.
Definition ULTRA_LONG_DURATION_THRESHOLD_SECONDS : Q := 300.
Definition LONG_FORM_LANDSCAPE_LIMIT : Q := 1120.
Definition ULTRA_LONG_LANDSCAPE_LIMIT : Q := 960.
Definition LONG_FORM_PORTRAIT_LIMIT : Q := 1120.
Definition ULTRA_LONG_PORTRAIT_LIMIT : Q := 960.
Definition LONG_FORM_BITRATE_LIMIT : Q := 3000000.
Definition ULTRA_LONG_BITRATE_LIMIT : Q := 2200000.
Definition MIN_DOWNLOAD_BITRATE : Q := 900000.
Definition MIN_PREVIEW_BITRATE : Q := 700000.

Definition computeTotalSceneDurationSeconds (scenes : list Scene) : Q :=
  fold_left
    (fun total scene =>
       let rawDuration := match duration scene with Num q => q | _ => 0 end in
       total + Qmax 0 rawDuration)
    scenes 0.

Definition resolveOptimizedRenderConfig (mode : RenderMode) (scenes : list Scene)
  : RenderConfig :=
  let baseConfig := getRenderConfig mode in
  let totalDuration := computeTotalSceneDurationSeconds scenes in
  if leb totalDuration 0 then baseConfig
  else
    let frameBudget :=
      match mode with Download => DOWNLOAD_FRAME_BUDGET | Preview => PREVIEW_FRAME_BUDGET end in
    let minFps :=
      match mode with Download => MIN_DOWNLOAD_FPS | Preview => MIN_PREVIEW_FPS end in
    let minBitrate :=
      match mode with Download => MIN_DOWNLOAD_BITRATE | Preview => MIN_PREVIEW_BITRATE end in
    let baseTotalFrames := totalDuration * fps baseConfig in
    let adjusted1 :=
      if gtb baseTotalFrames frameBudget then
        let allowedFpsRaw := inject_Z (Qfloor (frameBudget / totalDuration)) in
        let allowedFps := Qmax minFps (Qmin (fps baseConfig) allowedFpsRaw) in
        if gtb (fps baseConfig) allowedFps then
          let newFps := Qmax MIN_EFFECTIVE_FPS allowedFps in
          let bitrateScale := newFps / fps baseConfig in
          mkConfig newFps (maxLandscapeWidth baseConfig) (maxPortraitHeight baseConfig)
                   (Qmax minBitrate (inject_Z (round (bitrate baseConfig * bitrateScale))))
        else baseConfig
      else baseConfig in
    let adjusted2 :=
      if gtb totalDuration LONG_FORM_DURATION_THRESHOLD_SECONDS then
        mkConfig (fps adjusted1)
                 (Qmin (maxLandscapeWidth baseConfig) LONG_FORM_LANDSCAPE_LIMIT)
                 (Qmin (maxPortraitHeight baseConfig) LONG_FORM_PORTRAIT_LIMIT)
                 (Qmin (bitrate adjusted1) LONG_FORM_BITRATE_LIMIT)
      else adjusted1 in
    let adjusted3 :=
      if gtb totalDuration ULTRA_LONG_DURATION_THRESHOLD_SECONDS then
        mkConfig (fps adjusted2)
                 (Qmin (maxLandscapeWidth adjusted2) ULTRA_LONG_LANDSCAPE_LIMIT)
                 (Qmin (maxPortraitHeight adjusted2) ULTRA_LONG_PORTRAIT_LIMIT)
                 (Qmin (bitrate adjusted2) ULTRA_LONG_BITRATE_LIMIT)
      else adjusted2 in
    mkConfig (Qmax MIN_EFFECTIVE_FPS (Qmin (fps baseConfig) (fps adjusted3)))
             (maxLandscapeWidth adjusted3)
             (maxPortraitHeight adjusted3)
             (Qmax minBitrate (bitrate adjusted3)).

(** *** Accent colours *)

Definition ACCENT_COLOR_PALETTE : list string :=
  ["#FF5F6D"; "#FF9966"; "#FDCB6E"; "#54A0FF"; "#5F27CD";
   "#48DB71"; "#FF6B6B"; "#1B9CFC"; "#FF9FF3"; "#10AC84"]%string.

(** [x | 0]: wrap to a signed 32-bit integer. *)
Definition toInt32 (z : Z) : Z := ((z + 2 ^ 31) mod 2 ^ 32 - 2 ^ 31)%Z.

(** [value.charCodeAt(i)] for the characters of an ASCII string. *)
Definition charCodes (value : string) : list Z :=
  map (fun c => Z.of_N (N_of_ascii c)) (list_ascii_of_string value).

Definition sceneAccentHash (value : string) : Z :=
  fold_left
    (fun hash code => toInt32 (toInt32 (Z.shiftl hash 5) - hash + code)%Z)
    (charCodes value) 0%Z.

Definition computeSceneAccentColor (scene : Scene) : string :=
  let key :=
    (id scene ++ "|" ++ String.concat "-" (keywords scene) ++ "|"
       ++ imagePrompt scene ++ "|" ++ sceneText scene)%string in
  let hash := Z.abs (sceneAccentHash key) in
  nth (Z.to_nat (hash mod Z.of_nat (length ACCENT_COLOR_PALETTE))%Z)
      ACCENT_COLOR_PALETTE ""%string.

(** *** Effects *)

Inductive RenderError : Type :=
| AbortError
| Failure (message : string).

Definition isAbortError (error : RenderError) : bool :=
  match error with
  | AbortError => true
  | Failure _ => false
  end.

Inductive Backend : Type := WebCodecs | MediaRecorder.
Inductive Format : Type := WebM | MP4.

Inductive ImageSource : Type :=
| LoadedImage (sceneIndex : nat)
| StylizedFallback (accentColor : string)
| GrayPixel.

Record PreloadedImage : Type := mkPreloaded {
  sceneId : string;
  source : ImageSource;
  asBitmap : bool
}.

Record GeneratedVideoResult : Type := mkResult {
  mimeType : string;
  format : Format
}.

Inductive Event : Type :=
| Attempt (backend : Backend) (config : RenderConfig)
| Progress (value : Q)
| LoadAttempt (sceneIndex attempt : nat)
| Sleep (ms : Z)
| Frame (timestamp duration : Z)
| Drawn (sceneId : string).

Record World : Type := mkWorld {
  clock : nat;
  trace : list Event
}.

Record Env : Type := mkEnv {
  webCodecs : bool;
  canvasContext : bool;
  mediaRecorder : bool;
  imageBitmap : bool;
  abortAt : option nat;
  loads : nat -> nat -> bool;
  configSupported : string -> bool;
  typeSupported : string -> bool;
  encoderFault : option nat;
  recorderFault : option nat
}.

Definition M (A : Type) : Type := World -> World * (A + RenderError).

Definition ret {A : Type} (x : A) : M A := fun w => (w, inl x).

Definition throw {A : Type} (error : RenderError) : M A := fun w => (w, inr error).

Definition bind {A B : Type} (m : M A) (k : A -> M B) : M B :=
  fun w =>
    match m w with
    | (w', inl x) => k x w'
    | (w', inr error) => (w', inr error)
    end.

(** [try { m } catch (error) { handler(error) }] *)
Definition catch {A : Type} (m : M A) (handler : RenderError -> M A) : M A :=
  fun w =>
    match m w with
    | (w', inl x) => (w', inl x)
    | (w', inr error) => handler error w'
    end.

Definition emit (e : Event) : M unit :=
  fun w => (mkWorld (clock w) (trace w ++ [e]), inl tt).

(** An [await]: the event loop runs and the clock advances. *)
Definition tick : M unit :=
  fun w => (mkWorld (S (clock w)) (trace w), inl tt).

Definition aborted (env : Env) (w : World) : bool :=
  match abortAt env with
  | Some t => (t <=? clock w)%nat
  | None => false
  end.

Definition throwIfAborted (env : Env) : M unit :=
  fun w => if aborted env w then (w, inr AbortError) else (w, inl tt).

Notation "x <- m ;; k" := (bind m (fun x => k))
  (at level 61, m at next level, right associativity).
Notation "m ;; k" := (bind m (fun _ => k))
  (at level 61, right associativity).

Definition IMAGE_LOAD_RETRIES : nat := 2.
Definition INITIAL_RETRY_DELAY_MS : Z := 300.

(** A gradient and stripes in the scene's accent colour, or the 1x1 gray
    pixel when no 2D context can be had; either way the image is awaited. *)
Definition createStylizedFallbackImage (env : Env) (scene : Scene) : M ImageSource :=
  if canvasContext env then
    tick ;; ret (StylizedFallback (computeSceneAccentColor scene))
  else
    tick ;; ret GrayPixel.

(** The body of the [try] of one load attempt. *)
Definition loadOnce (env : Env) (message : string) (sceneIndex attempt : nat)
  : M ImageSource :=
  throwIfAborted env ;;
  emit (LoadAttempt sceneIndex attempt) ;;
  tick ;;
  throwIfAborted env ;;
  if loads env sceneIndex attempt then
    tick ;;
    throwIfAborted env ;;
    ret (LoadedImage sceneIndex)
  else throw (Failure message).

(** [for (let attempt = 0; attempt <= IMAGE_LOAD_RETRIES; attempt++)];
    [remaining] counts the iterations left. *)
Fixpoint retryLoop (env : Env) (message : string) (scene : Scene) (sceneIndex : nat)
         (remaining attempt : nat) : M ImageSource :=
  match remaining with
  | O => createStylizedFallbackImage env scene
  | S remaining' =>
      catch (loadOnce env message sceneIndex attempt)
            (fun error =>
               if isAbortError error then throw error
               else if (attempt <? IMAGE_LOAD_RETRIES)%nat then
                 emit (Sleep (INITIAL_RETRY_DELAY_MS * 2 ^ Z.of_nat attempt)) ;;
                 tick ;;
                 retryLoop env message scene sceneIndex remaining' (S attempt)
               else createStylizedFallbackImage env scene)
  end.

Definition loadImageWithRetries (env : Env) (src : string) (scene : Scene)
           (sceneIndexForLog : nat) : M ImageSource :=
  if String.eqb src "" then createStylizedFallbackImage env scene
  else retryLoop env "Failed to load image" scene sceneIndexForLog
                 (S IMAGE_LOAD_RETRIES) 0.

Definition loadVideoFrameWithRetries (env : Env) (src : string) (scene : Scene)
           (sceneIndexForLog : nat) : M ImageSource :=
  if String.eqb src "" then createStylizedFallbackImage env scene
  else retryLoop env "Failed to load video" scene sceneIndexForLog
                 (S IMAGE_LOAD_RETRIES) 0.

Definition createPreloadedImageFromElement (env : Env) (sceneId : string)
           (element : ImageSource) : M PreloadedImage :=
  throwIfAborted env ;;
  if imageBitmap env then
    catch (tick ;;
           throwIfAborted env ;;
           tick ;;
           ret (mkPreloaded sceneId element true))
          (fun _ => ret (mkPreloaded sceneId element false))
  else ret (mkPreloaded sceneId element false).

(** One worker of [preloadAllImages], taking the scenes in order. *)
Fixpoint worker (env : Env) (onProgress : Q -> M unit) (total : nat)
         (remaining : list Scene) (i completed : nat)
         (results : list PreloadedImage) : M (list PreloadedImage) :=
  match remaining with
  | [] => throwIfAborted env ;; ret results
  | scene :: rest =>
      throwIfAborted env ;;
      baseImage <-
        catch (match footageType scene with
               | Video => loadVideoFrameWithRetries env (footageUrl scene) scene i
               | Image => loadImageWithRetries env (footageUrl scene) scene i
               end)
              (fun error =>
                 if isAbortError error then throw error
                 else createStylizedFallbackImage env scene) ;;
      prepared <- createPreloadedImageFromElement env (id scene) baseImage ;;
      onProgress (inject_Z (Z.of_nat (S completed)) / inject_Z (Z.of_nat total)) ;;
      worker env onProgress total rest (S i) (S completed) (results ++ [prepared])
  end.

Definition preloadAllImages (env : Env) (scenes : list Scene)
           (onProgress : Q -> M unit) : M (list PreloadedImage) :=
  onProgress 0 ;;
  results <- worker env onProgress (length scenes) scenes 0 0 [] ;;
  onProgress 1 ;;
  ret results.

Record VideoRenderOptions : Type := mkOptions {
  includeWatermark : bool;
  mode : option RenderMode
}.

Definition updateOverallProgress (stageProgress stageWeight baseProgress : Q) : M unit :=
  emit (Progress (Qmin (99 # 100) (baseProgress + stageProgress * stageWeight))).

Definition WEB_CODECS_WEBM_CODEC_CANDIDATES : list string :=
  ["vp09.00.10.08"; "vp8"]%string.
Definition MP4_CODEC_CANDIDATES : list string :=
  ["avc1.640028"; "avc1.4D4028"; "avc1.42E01E"]%string.
Definition MP4_MIMETYPE : string := "video/mp4".
Definition WEBM_MIMETYPE : string := "video/webm".

(** [for (const codec of candidates)] with [await isConfigSupported] and
    [break] at the first supported codec. *)
Fixpoint firstSupported (env : Env) (candidates : list string) : M (option string) :=
  match candidates with
  | [] => ret None
  | codec :: rest =>
      tick ;;
      if configSupported env codec then ret (Some codec)
      else firstSupported env rest
  end.

(** [imageMap.get(scene.id)] after [forEach(item => imageMap.set(...))]:
    the last image stored under the id. *)
Definition lookupImage (images : list PreloadedImage) (key : string)
  : option PreloadedImage :=
  find (fun item => String.eqb (sceneId item) key) (rev images).

(** The inner [for] loop of the WebCodecs renderer over the frames of one
    scene; the state is [(totalFramesRenderedOverall, framesSinceLastYield)]. *)
Fixpoint encodeSceneFrames (env : Env)
         (frameDurationUS totalFramesToRenderOverall framesBetweenYields : Z)
         (key : string) (remaining : nat)
         (totalFramesRenderedOverall framesSinceLastYield : Z) : M (Z * Z) :=
  match remaining with
  | O => ret (totalFramesRenderedOverall, framesSinceLastYield)
  | S remaining' =>
      throwIfAborted env ;;
      emit (Drawn key) ;;
      emit (Frame (totalFramesRenderedOverall * frameDurationUS) frameDurationUS) ;;
      (match encoderFault env with
       | Some k =>
           if (Z.of_nat k =? totalFramesRenderedOverall)%Z
           then throw (Failure "VideoEncoder error") else ret tt
       | None => ret tt
       end) ;;
      let rendered := (totalFramesRenderedOverall + 1)%Z in
      let sinceYield := (framesSinceLastYield + 1)%Z in
      (if (0 <? totalFramesToRenderOverall)%Z
       then updateOverallProgress
              (inject_Z rendered / inject_Z totalFramesToRenderOverall) (79 # 100) (20 # 100)
       else ret tt) ;;
      sinceYield' <-
        (if (framesBetweenYields <=? sinceYield)%Z
         then tick ;; throwIfAborted env ;; ret 0%Z
         else ret sinceYield) ;;
      encodeSceneFrames env frameDurationUS totalFramesToRenderOverall framesBetweenYields
                        key remaining' rendered sinceYield'
  end.

(** [for (const planItem of renderPlan)] of the WebCodecs renderer. *)
Fixpoint encodeScenes (env : Env)
         (frameDurationUS totalFramesToRenderOverall framesBetweenYields : Z)
         (images : list PreloadedImage) (renderPlan : list SceneRenderPlanItem)
         (totalFramesRenderedOverall framesSinceLastYield : Z) : M (Z * Z) :=
  match renderPlan with
  | [] => ret (totalFramesRenderedOverall, framesSinceLastYield)
  | planItem :: rest =>
      throwIfAborted env ;;
      match lookupImage images (id (scene planItem)) with
      | None => throw (Failure "Internal error: Preloaded image missing")
      | Some _ =>
          st <- encodeSceneFrames env frameDurationUS totalFramesToRenderOverall
                                  framesBetweenYields (id (scene planItem))
                                  (Z.to_nat (frameCount planItem))
                                  totalFramesRenderedOverall framesSinceLastYield ;;
          sinceYield' <-
            (if (0 <? snd st)%Z
             then tick ;; throwIfAborted env ;; ret 0%Z
             else ret (snd st)) ;;
          encodeScenes env frameDurationUS totalFramesToRenderOverall framesBetweenYields
                       images rest (fst st) sinceYield'
      end
  end.

Definition totalFrames (renderPlan : list SceneRenderPlanItem) : Z :=
  fold_left (fun acc item => (acc + frameCount item)%Z) renderPlan 0%Z.

Definition modeOf (options : VideoRenderOptions) : RenderMode :=
  match mode options with
  | Some m => m
  | None => Preview
  end.

Definition generateVideoWithWebCodecs (env : Env) (scenes : list Scene)
           (options : VideoRenderOptions) (config : RenderConfig)
  : M GeneratedVideoResult :=
  emit (Attempt WebCodecs config) ;;
  if negb (canvasContext env)
  then throw (Failure "Failed to get canvas context for WebCodecs video generation.")
  else
    let frameDurationUS := round (1000000 / fps config) in
    preloadedImages <-
      preloadAllImages env scenes (fun val => updateOverallProgress val (2 # 10) 0) ;;
    throwIfAborted env ;;
    let renderPlan := buildRenderPlan scenes (fps config) (modeOf options) in
    let totalFramesToRenderOverall := totalFrames renderPlan in
    if negb (webCodecs env)
    then throw (Failure "WebCodecs API is unavailable in this browser.")
    else
      mp4 <- (match mode options with
              | Some Download => firstSupported env MP4_CODEC_CANDIDATES
              | _ => ret None
              end) ;;
      chosenFormat <- (match mp4 with
                       | Some _ => ret MP4
                       | None =>
                           firstSupported env WEB_CODECS_WEBM_CODEC_CANDIDATES ;;
                           ret WebM
                       end) ;;
      let framesBetweenYields := Z.max 60 (round (fps config * 3)) in
      encodeScenes env frameDurationUS totalFramesToRenderOverall framesBetweenYields
                   preloadedImages renderPlan 0%Z 0%Z ;;
      tick ;;
      emit (Progress 1) ;;
      ret (mkResult (match chosenFormat with MP4 => MP4_MIMETYPE | WebM => WEBM_MIMETYPE end)
                    chosenFormat).

(** The quotation mark inside the two codec-qualified MP4 types. *)
Definition quote : string := String "034"%char EmptyString.

Definition mimeTypeCandidates : list (string * Format) :=
  [("video/webm;codecs=vp9", WebM);
   ("video/webm;codecs=vp8", WebM);
   ("video/webm", WebM);
   ("video/mp4;codecs=" ++ quote ++ "avc1.42E01E, mp4a.40.2" ++ quote, MP4);
   ("video/mp4;codecs=" ++ quote ++ "avc1.4D401E, mp4a.40.2" ++ quote, MP4);
   ("video/mp4", MP4)]%string.

Definition chooseMimeType (env : Env) : option (string * Format) :=
  find (fun candidate => typeSupported env (fst candidate)) mimeTypeCandidates.

(** The frames of one scene in the MediaRecorder renderer: every frame is
    drawn by a [renderFrame] scheduled through the event loop. *)
Fixpoint recordSceneFrames (env : Env) (totalFramesToRenderOverall : Z)
         (images : list PreloadedImage) (key : string) (remaining : nat)
         (totalFramesRenderedOverall : Z) : M Z :=
  match remaining with
  | O => ret totalFramesRenderedOverall
  | S remaining' =>
      tick ;;
      throwIfAborted env ;;
      match lookupImage images key with
      | None => throw (Failure "Internal error: Preloaded image missing")
      | Some _ =>
          (match recorderFault env with
           | Some k =>
               if (Z.of_nat k =? totalFramesRenderedOverall)%Z
               then throw (Failure "draw error") else ret tt
           | None => ret tt
           end) ;;
          emit (Drawn key) ;;
          let rendered := (totalFramesRenderedOverall + 1)%Z in
          (if (0 <? totalFramesToRenderOverall)%Z
           then updateOverallProgress
                  (inject_Z rendered / inject_Z totalFramesToRenderOverall) (79 # 100) (20 # 100)
           else ret tt) ;;
          recordSceneFrames env totalFramesToRenderOverall images key remaining' rendered
      end
  end.

Fixpoint recordScenes (env : Env) (totalFramesToRenderOverall : Z)
         (images : list PreloadedImage) (renderPlan : list SceneRenderPlanItem)
         (totalFramesRenderedOverall : Z) : M Z :=
  match renderPlan with
  | [] => ret totalFramesRenderedOverall
  | planItem :: rest =>
      rendered <- recordSceneFrames env totalFramesToRenderOverall images
                                    (id (scene planItem))
                                    (Z.to_nat (frameCount planItem))
                                    totalFramesRenderedOverall ;;
      recordScenes env totalFramesToRenderOverall images rest rendered
  end.

(** The rejections modelled are those of the render itself: cancellation,
    a missing 2D context or MediaRecorder, and an exception while a frame
    is drawn.  The recorder's own failures (its [error] event, a [stop]
    that throws or that comes before the last frame) are not modelled, and
    the [mimeType] returned is the candidate's, where the source prefers
    the type the resulting [Blob] reports. *)
Definition generateWebMWithMediaRecorder (env : Env) (scenes : list Scene)
           (options : VideoRenderOptions) (config : RenderConfig)
  : M GeneratedVideoResult :=
  emit (Attempt MediaRecorder config) ;;
  if negb (canvasContext env)
  then throw (Failure "Failed to get canvas context for video generation.")
  else if negb (mediaRecorder env)
  then throw (Failure "MediaRecorder API or canvas.captureStream is not supported in this browser.")
  else
    preloadedImages <-
      preloadAllImages env scenes (fun val => updateOverallProgress val (2 # 10) 0) ;;
    throwIfAborted env ;;
    let renderPlan := buildRenderPlan scenes (fps config) (modeOf options) in
    let totalFramesToRenderOverall := totalFrames renderPlan in
    let chosen := chooseMimeType env in
    throwIfAborted env ;;
    recordScenes env totalFramesToRenderOverall preloadedImages renderPlan 0%Z ;;
    tick ;;
    throwIfAborted env ;;
    emit (Progress 1) ;;
    ret (match chosen with
         | Some (type, fmt) => mkResult type fmt
         | None => mkResult WEBM_MIMETYPE WebM
         end).

Definition hasWebCodecsSupport (env : Env) : bool := webCodecs env.

Definition generateWebMFromScenes (env : Env) (scenes : list Scene)
           (options : VideoRenderOptions) : M GeneratedVideoResult :=
  let config := resolveOptimizedRenderConfig (modeOf options) scenes in
  if hasWebCodecsSupport env then
    catch (generateVideoWithWebCodecs env scenes options config)
          (fun error => generateWebMWithMediaRecorder env scenes options config)
  else generateWebMWithMediaRecorder env scenes options config.

(** What a caller sees of a run started in a fresh world. *)
Definition initialWorld : World := mkWorld 0 [].

Definition progressValues (events : list Event) : list Q :=
  flat_map (fun e => match e with Progress v => [v] | _ => [] end) events.

Definition attempts (events : list Event) : list (Backend * RenderConfig) :=
  flat_map (fun e => match e with Attempt b c => [(b, c)] | _ => [] end) events.

Definition sleeps (events : list Event) : list Z :=
  flat_map (fun e => match e with Sleep ms => [ms] | _ => [] end) events.

Definition frameTimestamps (events : list Event) : list Z :=
  flat_map (fun e => match e with Frame t _ => [t] | _ => [] end) events.

End VideoRendering.

Import VideoRendering.

(** ** The image cache ([ImagePreloadService] of
       [services/imagePreloadService.ts])

    The cache is a JavaScript [Map], which keeps its entries in insertion
    order: an association list with distinct keys.  The decoded image is
    opaque; what a load produces is described by an oracle [internal]
    (whether [loadImageInternal] resolves, and then whether an
    [ImageBitmap] could be made).  A call of [loadImage] is taken to
    run to completion before the next one is made, so [loadingPromises]
    is empty whenever [loadImage] is entered. *)

Module ImagePreload.

Record PreloadedImage : Type := mkImage {
  sceneId : string;
  bitmap : bool;
  loaded : bool
}.

Definition Cache : Type := list (string * PreloadedImage).

Definition mapGet (key : string) (cache : Cache) : option PreloadedImage :=
  option_map snd (find (fun entry => String.eqb (fst entry) key) cache).

Definition mapHas (key : string) (cache : Cache) : bool :=
  match mapGet key cache with Some _ => true | None => false end.

(** [Map.prototype.set]: a present key keeps its place. *)
Fixpoint mapSet (key : string) (value : PreloadedImage) (cache : Cache) : Cache :=
  match cache with
  | [] => [(key, value)]
  | (k, v) :: rest =>
      if String.eqb k key then (k, value) :: rest
      else (k, v) :: mapSet key value rest
  end.

Definition mapDelete (key : string) (cache : Cache) : Cache :=
  filter (fun entry => negb (String.eqb (fst entry) key)) cache.

Definition maxCacheSize : nat := 50.

Definition cacheKey (sceneId footageUrl : string) : string :=
  (sceneId ++ "-" ++ footageUrl)%string.

Definition manageCacheSize (cache : Cache) : Cache :=
  if (length cache <=? maxCacheSize)%nat then cache
  else
    let entries := cache in
    let toRemove := firstn (length entries - maxCacheSize) entries in
    fold_left (fun c entry => mapDelete (fst entry) c) toRemove cache.

(** [None] for the rejection that [loadImage] passes on. *)
Definition loadImage (internal : Scene -> option bool) (scene : Scene) (cache : Cache)
  : Cache * option PreloadedImage :=
  let key := cacheKey (id scene) (footageUrl scene) in
  if mapHas key cache then (cache, mapGet key cache)
  else
    match internal scene with
    | Some withBitmap =>
        let result := mkImage (id scene) withBitmap true in
        (manageCacheSize (mapSet key result cache), Some result)
    | None => (cache, None)
    end.

Definition getImage (sceneId footageUrl : string) (cache : Cache)
  : option PreloadedImage :=
  mapGet (cacheKey sceneId footageUrl) cache.

End ImagePreload.

(** ** Render timing and render configuration in binary64

    The same functions with every JavaScript [number] an IEEE 754
    binary64 value: [spec_float] of the Standard Library with 53 bits of
    precision and exponents up to 1024, whose operations round to nearest,
    ties to even, as JavaScript's do.  A decimal literal of the source is
    the quotient of two integers, which the correctly rounded division
    maps to the same value as the parser does.  An index out of range
    reads [undefined], which arithmetic turns into [NaN]. *)

Module Binary64.

Definition number : Type := spec_float.

Definition prec : Z := 53.
Definition emax : Z := 1024.

Definition add : number -> number -> number := SFadd prec emax.
Definition sub : number -> number -> number := SFsub prec emax.
Definition mul : number -> number -> number := SFmul prec emax.
Definition div : number -> number -> number := SFdiv prec emax.

Definition ofZ (z : Z) : number := binary_normalize prec emax z 0 false.

(** The literal [numerator/denominator] written in decimal. *)
Definition decimal (numerator denominator : Z) : number :=
  div (ofZ numerator) (ofZ denominator).

Definition zero : number := S754_zero false.
Definition nan : number := S754_nan.

(** [x > y], [x <= y] and [x === y]: all false when a side is [NaN]. *)
Definition gtb (x y : number) : bool := SFltb y x.
Definition leb (x y : number) : bool := SFleb x y.
Definition strictEq (x y : number) : bool := SFeqb x y.

Definition isFinite (x : number) : bool :=
  match x with
  | S754_zero _ | S754_finite _ _ _ => true
  | _ => false
  end.

Definition mathMax (x y : number) : number :=
  match x, y with
  | S754_nan, _ | _, S754_nan => S754_nan
  | S754_zero sx, S754_zero sy => S754_zero (andb sx sy)
  | _, _ => if SFltb x y then y else x
  end.

Definition mathMin (x y : number) : number :=
  match x, y with
  | S754_nan, _ | _, S754_nan => S754_nan
  | S754_zero sx, S754_zero sy => S754_zero (orb sx sy)
  | _, _ => if SFltb y x then y else x
  end.

(** The value of a finite number is [m * 2 ^ e]; below, [d] is the
    denominator [2 ^ - e] of one that is not an integer already. *)
Definition mathCeil (x : number) : number :=
  match x with
  | S754_finite s m e =>
      if (0 <=? e)%Z then x
      else
        let d := (2 ^ (- e))%Z in
        let q := (Zpos m / d)%Z in
        let r := (Zpos m mod d)%Z in
        if s then (if (q =? 0)%Z then S754_zero true else ofZ (- q))
        else ofZ (q + (if (r =? 0)%Z then 0 else 1))
  | _ => x
  end.

Definition mathFloor (x : number) : number :=
  match x with
  | S754_finite s m e =>
      if (0 <=? e)%Z then x
      else
        let d := (2 ^ (- e))%Z in
        let q := (Zpos m / d)%Z in
        let r := (Zpos m mod d)%Z in
        if s then ofZ (- (q + (if (r =? 0)%Z then 0 else 1)))
        else ofZ q
  | _ => x
  end.

(** [Math.round]: the nearest integer, a tie going up. *)
Definition mathRound (x : number) : number :=
  match x with
  | S754_finite s m e =>
      if (0 <=? e)%Z then x
      else
        let d := (2 ^ (- e))%Z in
        let n := ((2 * (if s then Zneg m else Zpos m) + d) / (2 * d))%Z in
        if (n =? 0)%Z then S754_zero s else ofZ n
  | _ => x
  end.

(** The exact value of a finite number. *)
Definition toQ (x : number) : Q :=
  match x with
  | S754_finite s m e =>
      (inject_Z (if s then Zneg m else Zpos m) * Qpower 2 e)%Q
  | _ => 0%Q
  end.

(** [values.reduce((sum, value) => sum + value, 0)] *)
Definition sum (values : list number) : number := fold_left add values zero.

Record Scene : Type := mkScene {
  id : string;
  sceneText : string;
  keywords : list string;
  imagePrompt : string;
  duration : number;
  footageUrl : string;
  footageType : FootageType
}.

Record SceneRenderPlanItem : Type := mkItem {
  scene : Scene;
  durationSeconds : number;
  frameCount : number
}.

Definition PREVIEW_MIN_SCENE_DURATION_SECONDS : number := decimal 75 100.
Definition PREVIEW_MAX_TOTAL_DURATION_SECONDS : number := ofZ 15.

(** [const epsilon = 1e-3] *)
Definition epsilon : number := decimal 1 1000.

Definition adjustableIndices (adjusted minimums : list number) : list (number * nat) :=
  filter (fun entry => gtb (sub (fst entry) (nth (snd entry) minimums nan)) epsilon)
         (mapi (fun value index => (value, index)) adjusted).

Definition reduceAt (minimums : list number) (decrement : number)
           (st : list number * number) (entry : number * nat) : list number * number :=
  let index := snd entry in
  let maxReduction := sub (nth index (fst st) nan) (nth index minimums nan) in
  if leb maxReduction zero then st
  else
    let reduction := mathMin maxReduction decrement in
    if leb reduction zero then st
    else (update index (sub (nth index (fst st) nan) reduction) (fst st),
          add (snd st) reduction).

(** The [while] loop; [fuel] is [1000 - iterations]. *)
Fixpoint clampLoop (fuel : nat) (minimums : list number) (targetTotal : number)
         (adjusted : list number) (total : number) : list number * number :=
  match fuel with
  | O => (adjusted, total)
  | S fuel' =>
      if gtb (sub total targetTotal) epsilon then
        let adjustable := adjustableIndices adjusted minimums in
        match adjustable with
        | [] => (adjusted, total)
        | _ :: _ =>
            let excess := sub total targetTotal in
            let decrement := div excess (ofZ (Z.of_nat (length adjustable))) in
            let st := fold_left (reduceAt minimums decrement) adjustable (adjusted, zero) in
            if leb (snd st) epsilon then (fst st, total)
            else clampLoop fuel' minimums targetTotal (fst st) (sub total (snd st))
        end
      else (adjusted, total)
  end.

Definition clampDurationsWithMinimums (durations minimums : list number)
           (targetTotal : number) : list number :=
  match durations with
  | [] => []
  | _ :: _ =>
      let total := sum durations in
      if leb total targetTotal then durations
      else
        let st := clampLoop 1000 minimums targetTotal durations total in
        if gtb (snd st) targetTotal then
          let scale := div targetTotal (snd st) in
          mapi (fun value i => mathMax (nth i minimums nan) (mul value scale)) (fst st)
        else fst st
  end.

Definition sanitiseDuration (value : number) : number :=
  if negb (isFinite value) || leb value zero then zero else value.

Definition computeEffectiveDurations (scenes : list Scene) (mode : RenderMode)
  : list number :=
  match mode with
  | Download => map (fun s => sanitiseDuration (duration s)) scenes
  | Preview =>
      match scenes with
      | [] => []
      | _ :: _ =>
          let sanitisedDurations := map (fun s => sanitiseDuration (duration s)) scenes in
          let totalOriginalDuration := sum sanitisedDurations in
          if leb totalOriginalDuration zero then repeat zero (length scenes)
          else if leb totalOriginalDuration PREVIEW_MAX_TOTAL_DURATION_SECONDS
          then sanitisedDurations
          else
            let scaledDurations :=
              map (fun value =>
                     if leb value zero then zero
                     else mul (div value totalOriginalDuration)
                              PREVIEW_MAX_TOTAL_DURATION_SECONDS)
                  sanitisedDurations in
            let positiveDurationCount :=
              length (filter (fun value => gtb value zero) sanitisedDurations) in
            let dynamicMinimum :=
              if (0 <? positiveDurationCount)%nat
              then mathMin PREVIEW_MIN_SCENE_DURATION_SECONDS
                           (div PREVIEW_MAX_TOTAL_DURATION_SECONDS
                                (ofZ (Z.of_nat positiveDurationCount)))
              else zero in
            let minimums :=
              map (fun value => if gtb value zero then dynamicMinimum else zero)
                  sanitisedDurations in
            let clamped :=
              mapi (fun value index =>
                      if strictEq (nth index minimums nan) zero then zero
                      else mathMax (nth index minimums nan) value)
                   scaledDurations in
            clampDurationsWithMinimums clamped minimums PREVIEW_MAX_TOTAL_DURATION_SECONDS
      end
  end.

Definition buildRenderPlan (scenes : list Scene) (fps : number) (mode : RenderMode)
  : list SceneRenderPlanItem :=
  let effectiveDurations := computeEffectiveDurations scenes mode in
  mapi (fun scene index =>
          let durationSecondsRaw := nth index effectiveDurations zero in
          let safeDurationSeconds :=
            if gtb durationSecondsRaw (decimal 1 100) then durationSecondsRaw
            else match mode with
                 | Preview => PREVIEW_MIN_SCENE_DURATION_SECONDS
                 | Download => mathMax (decimal 12 10) (div (ofZ 1) fps)
                 end in
          let frameCount := mathMax (ofZ 1) (mathCeil (mul safeDurationSeconds fps)) in
          mkItem scene safeDurationSeconds frameCount)
       scenes.

(** *** The render configuration and the canvas *)

Record RenderConfig : Type := mkConfig {
  fps : number;
  maxLandscapeWidth : number;
  maxPortraitHeight : number;
  bitrate : number
}.

Definition RENDER_CONFIG (mode : RenderMode) : RenderConfig :=
  match mode with
  | Preview => mkConfig (ofZ 15) (ofZ 854) (ofZ 960) (ofZ 1200000)
  | Download => mkConfig (ofZ 24) (ofZ 1280) (ofZ 1280) (ofZ 3500000)
  end.

Definition getRenderConfig (mode : RenderMode) : RenderConfig := RENDER_CONFIG mode.

Definition MIN_EFFECTIVE_FPS : number := ofZ 4.
Definition MIN_DOWNLOAD_FPS : number := ofZ 8.
Definition MIN_PREVIEW_FPS : number := ofZ 10.
Definition PREVIEW_FRAME_BUDGET : number := ofZ 3000.
Definition DOWNLOAD_FRAME_BUDGET : number := ofZ 4500.
Definition LONG_FORM_DURATION_THRESHOLD_SECONDS : number := ofZ 120.
Definition ULTRA_LONG_DURATION_THRESHOLD_SECONDS : number := ofZ 300.
Definition LONG_FORM_LANDSCAPE_LIMIT : number := ofZ 1120.
Definition ULTRA_LONG_LANDSCAPE_LIMIT : number := ofZ 960.
Definition LONG_FORM_PORTRAIT_LIMIT : number := ofZ 1120.
Definition ULTRA_LONG_PORTRAIT_LIMIT : number := ofZ 960.
Definition LONG_FORM_BITRATE_LIMIT : number := ofZ 3000000.
Definition ULTRA_LONG_BITRATE_LIMIT : number := ofZ 2200000.
Definition MIN_DOWNLOAD_BITRATE : number := ofZ 900000.
Definition MIN_PREVIEW_BITRATE : number := ofZ 700000.

Definition computeTotalSceneDurationSeconds (scenes : list Scene) : number :=
  fold_left
    (fun total scene =>
       let rawDuration := if isFinite (duration scene) then duration scene else zero in
       add total (mathMax zero rawDuration))
    scenes zero.

Definition resolveOptimizedRenderConfig (mode : RenderMode) (scenes : list Scene)
  : RenderConfig :=
  let baseConfig := getRenderConfig mode in
  let totalDuration := computeTotalSceneDurationSeconds scenes in
  if leb totalDuration zero then baseConfig
  else
    let frameBudget :=
      match mode with Download => DOWNLOAD_FRAME_BUDGET | Preview => PREVIEW_FRAME_BUDGET end in
    let minFps :=
      match mode with Download => MIN_DOWNLOAD_FPS | Preview => MIN_PREVIEW_FPS end in
    let minBitrate :=
      match mode with Download => MIN_DOWNLOAD_BITRATE | Preview => MIN_PREVIEW_BITRATE end in
    let baseTotalFrames := mul totalDuration (fps baseConfig) in
    let adjusted1 :=
      if gtb baseTotalFrames frameBudget then
        let allowedFpsRaw := mathFloor (div frameBudget totalDuration) in
        let allowedFps := mathMax minFps (mathMin (fps baseConfig) allowedFpsRaw) in
        if gtb (fps baseConfig) allowedFps then
          let newFps := mathMax MIN_EFFECTIVE_FPS allowedFps in
          let bitrateScale := div newFps (fps baseConfig) in
          mkConfig newFps (maxLandscapeWidth baseConfig) (maxPortraitHeight baseConfig)
                   (mathMax minBitrate (mathRound (mul (bitrate baseConfig) bitrateScale)))
        else baseConfig
      else baseConfig in
    let adjusted2 :=
      if gtb totalDuration LONG_FORM_DURATION_THRESHOLD_SECONDS then
        mkConfig (fps adjusted1)
                 (mathMin (maxLandscapeWidth baseConfig) LONG_FORM_LANDSCAPE_LIMIT)
                 (mathMin (maxPortraitHeight baseConfig) LONG_FORM_PORTRAIT_LIMIT)
                 (mathMin (bitrate adjusted1) LONG_FORM_BITRATE_LIMIT)
      else adjusted1 in
    let adjusted3 :=
      if gtb totalDuration ULTRA_LONG_DURATION_THRESHOLD_SECONDS then
        mkConfig (fps adjusted2)
                 (mathMin (maxLandscapeWidth adjusted2) ULTRA_LONG_LANDSCAPE_LIMIT)
                 (mathMin (maxPortraitHeight adjusted2) ULTRA_LONG_PORTRAIT_LIMIT)
                 (mathMin (bitrate adjusted2) ULTRA_LONG_BITRATE_LIMIT)
      else adjusted2 in
    mkConfig (mathMax MIN_EFFECTIVE_FPS (mathMin (fps baseConfig) (fps adjusted3)))
             (maxLandscapeWidth adjusted3)
             (maxPortraitHeight adjusted3)
             (mathMax minBitrate (bitrate adjusted3)).

Record CanvasDimensions : Type := mkDimensions {
  width : number;
  height : number
}.

Definition getCanvasDimensions (aspectRatio : AspectRatio) (config : RenderConfig)
  : CanvasDimensions :=
  match aspectRatio with
  | Landscape16x9 =>
      let width := maxLandscapeWidth config in
      let height := mathRound (div (mul width (ofZ 9)) (ofZ 16)) in
      mkDimensions width height
  | Portrait9x16 =>
      let height := maxPortraitHeight config in
      let width := mathRound (div (mul height (ofZ 9)) (ofZ 16)) in
      mkDimensions width height
  end.

End Binary64.

(** * Proofs *)

(** * Facts about the helpers *)

Section JsFacts.

Lemma gtb_true (x y : Q) : gtb x y = true <-> y < x.
Proof.
  unfold gtb. destruct (Qlt_le_dec y x); split; intros; try easy; lra.
Qed.

Lemma gtb_false (x y : Q) : gtb x y = false <-> x <= y.
Proof.
  unfold gtb. destruct (Qlt_le_dec y x); split; intros; try easy; lra.
Qed.

Lemma leb_true (x y : Q) : leb x y = true <-> x <= y.
Proof.
  unfold leb. rewrite negb_true_iff. apply gtb_false.
Qed.

Lemma leb_false (x y : Q) : leb x y = false <-> y < x.
Proof.
  unfold leb. rewrite negb_false_iff. apply gtb_true.
Qed.

Lemma fold_plus_acc (l : list Q) (a : Q) : fold_left Qplus l a == a + sum l.
Proof.
  unfold sum. revert a.
  induction l as [|x l IH]; intros a; simpl.
  - lra.
  - rewrite (IH (a + x)), (IH (0 + x)). lra.
Qed.

Lemma sum_cons (x : Q) (l : list Q) : sum (x :: l) == x + sum l.
Proof.
  unfold sum at 1. simpl. rewrite fold_plus_acc. lra.
Qed.

Lemma sum_nil : sum [] == 0.
Proof. reflexivity. Qed.

Lemma mapi_from_length {A B} (f : A -> nat -> B) (l : list A) (s : nat) :
  length (mapi_from f s l) = length l.
Proof.
  revert s. induction l; intros; simpl; auto.
Qed.

Lemma mapi_from_ext {A B} (f g : A -> nat -> B) (l : list A) (s : nat) :
  (forall x i, f x i = g x i) -> mapi_from f s l = mapi_from g s l.
Proof.
  intros E. revert s. induction l; intros; simpl; [|rewrite E, IHl]; auto.
Qed.

Lemma mapi_from_nth_error {A B} (f : A -> nat -> B) (l : list A) (s i : nat) :
  nth_error (mapi_from f s l) i = option_map (fun x => f x (s + i)%nat) (nth_error l i).
Proof.
  revert s i. induction l as [|x l IH]; intros s [|i]; simpl; auto.
  - now rewrite Nat.add_0_r.
  - rewrite IH. now rewrite Nat.add_succ_r.
Qed.

Lemma mapi_nth_error {A B} (f : A -> nat -> B) (l : list A) (i : nat) :
  nth_error (mapi f l) i = option_map (fun x => f x i) (nth_error l i).
Proof. unfold mapi. now rewrite mapi_from_nth_error. Qed.

Lemma hd_skipn (ms : list Q) (i : nat) : hd 0 (skipn i ms) = nth i ms 0.
Proof.
  revert ms. induction i; intros [|m ms]; simpl; auto.
Qed.

Lemma tl_skipn {A} (ms : list A) (i : nat) : tl (skipn i ms) = skipn (S i) ms.
Proof.
  revert ms. induction i; intros [|m ms]; simpl; auto.
Qed.

Lemma update_app {A} (pre : list A) (x y : A) (suf : list A) :
  update (length pre) y (pre ++ x :: suf) = pre ++ y :: suf.
Proof.
  induction pre; simpl; [|rewrite IHpre]; auto.
Qed.

Lemma nth_app_here (pre : list Q) (x : Q) (suf : list Q) :
  nth (length pre) (pre ++ x :: suf) 0 = x.
Proof.
  induction pre; simpl; auto.
Qed.

End JsFacts.

(** * The redistribution loop, entry by entry

    The loop of [clampDurationsWithMinimums] touches every adjustable index
    once per pass and reads only that entry and its minimum, so one pass is
    an entry-wise map over the array aligned with its minimums. *)

Section Aligned.

(** Entry-wise combination of an array with the array of its minimums,
    a missing minimum being read as [0] like [nth]. *)
Fixpoint map2d (g : Q -> Q -> Q) (l ms : list Q) : list Q :=
  match l with
  | [] => []
  | v :: l' => g v (hd 0 ms) :: map2d g l' (tl ms)
  end.

Fixpoint AllR (R : Q -> Q -> Prop) (l ms : list Q) : Prop :=
  match l with
  | [] => True
  | v :: l' => R v (hd 0 ms) /\ AllR R l' (tl ms)
  end.

Fixpoint ExR (R : Q -> Q -> Prop) (l ms : list Q) : Prop :=
  match l with
  | [] => False
  | v :: l' => R v (hd 0 ms) \/ ExR R l' (tl ms)
  end.

Fixpoint countR (p : Q -> Q -> bool) (l ms : list Q) : nat :=
  match l with
  | [] => O
  | v :: l' => Nat.add (if p v (hd 0 ms) then 1%nat else 0%nat) (countR p l' (tl ms))
  end.

Definition adjustable (v m : Q) : bool := gtb (v - m) epsilon.

(** What one pass does to an entry [v] with minimum [m]. *)
Definition reduceElem (dec v m : Q) : Q :=
  if adjustable v m then
    if leb (v - m) 0 then v
    else if leb (Qmin (v - m) dec) 0 then v
         else v - Qmin (v - m) dec
  else v.

(** What the entry adds to [consumed]. *)
Definition reductionOf (dec v m : Q) : list Q :=
  if adjustable v m then
    if leb (v - m) 0 then []
    else if leb (Qmin (v - m) dec) 0 then []
         else [Qmin (v - m) dec]
  else [].

Fixpoint reductions (dec : Q) (l ms : list Q) : list Q :=
  match l with
  | [] => []
  | v :: l' => reductionOf dec v (hd 0 ms) ++ reductions dec l' (tl ms)
  end.

Lemma mapi_from_map2d (g : Q -> Q -> Q) (ms l : list Q) (s : nat) :
  mapi_from (fun v i => g v (nth i ms 0)) s l = map2d g l (skipn s ms).
Proof.
  revert s. induction l as [|v l IH]; intros s; simpl; auto.
  now rewrite IH, hd_skipn, tl_skipn.
Qed.

Lemma mapi_map2d (g : Q -> Q -> Q) (ms l : list Q) :
  mapi (fun v i => g v (nth i ms 0)) l = map2d g l ms.
Proof. unfold mapi. now rewrite mapi_from_map2d. Qed.

Lemma map2d_length (g : Q -> Q -> Q) (l ms : list Q) :
  length (map2d g l ms) = length l.
Proof.
  revert ms. induction l; intros; simpl; auto.
Qed.

Lemma adjustableIndices_length_from (ms suf : list Q) (s : nat) :
  length (filter (fun entry => gtb (fst entry - nth (snd entry) ms 0) epsilon)
                 (mapi_from (fun value index => (value, index)) s suf))
  = countR adjustable suf (skipn s ms).
Proof.
  revert s. induction suf as [|v suf IH]; intros s; simpl; auto.
  rewrite hd_skipn, tl_skipn. unfold adjustable at 1.
  destruct (gtb (v - nth s ms 0) epsilon); simpl; now rewrite IH.
Qed.

Lemma adjustableIndices_length (l ms : list Q) :
  length (adjustableIndices l ms) = countR adjustable l ms.
Proof.
  unfold adjustableIndices, mapi. now rewrite adjustableIndices_length_from.
Qed.

Lemma fold_reduceAt_from (ms : list Q) (dec : Q) (suf pre : list Q) (c : Q) :
  fold_left (reduceAt ms dec)
            (filter (fun entry => gtb (fst entry - nth (snd entry) ms 0) epsilon)
                    (mapi_from (fun value index => (value, index)) (length pre) suf))
            (pre ++ suf, c)
  = (pre ++ map2d (reduceElem dec) suf (skipn (length pre) ms),
     fold_left Qplus (reductions dec suf (skipn (length pre) ms)) c).
Proof.
  revert pre c. induction suf as [|v suf IH]; intros pre c; simpl; auto.
  rewrite hd_skipn, tl_skipn.
  assert (Hnext : forall v', pre ++ v' :: suf = (pre ++ [v']) ++ suf)
    by (intros; now rewrite <- app_assoc).
  assert (Hlen : forall v', S (length pre) = length (pre ++ [v']))
    by (intros; rewrite length_app; simpl; lia).
  unfold reduceElem, reductionOf, adjustable.
  destruct (gtb (v - nth (length pre) ms 0) epsilon) eqn:Hadj; simpl.
  - unfold reduceAt at 2; simpl. rewrite nth_app_here.
    destruct (leb (v - nth (length pre) ms 0) 0) eqn:H0.
    + rewrite (Hnext v), (Hlen v), IH, <- (Hlen v), <- app_assoc. reflexivity.
    + destruct (leb (Qmin (v - nth (length pre) ms 0) dec) 0) eqn:H1.
      * rewrite (Hnext v), (Hlen v), IH, <- (Hlen v), <- app_assoc. reflexivity.
      * rewrite update_app.
        set (v' := v - Qmin (v - nth (length pre) ms 0) dec).
        rewrite (Hnext v'), (Hlen v'), IH, <- (Hlen v'), <- app_assoc. reflexivity.
  - rewrite (Hnext v), (Hlen v), IH, <- (Hlen v), <- app_assoc. reflexivity.
Qed.

(** One pass of the [for] loop, as the source writes it, is the entry-wise
    pass. *)
Lemma fold_reduceAt (ms : list Q) (dec : Q) (l : list Q) :
  fold_left (reduceAt ms dec) (adjustableIndices l ms) (l, 0)
  = (map2d (reduceElem dec) l ms, sum (reductions dec l ms)).
Proof.
  unfold adjustableIndices, mapi.
  apply (fold_reduceAt_from ms dec l [] 0).
Qed.

End Aligned.

Section OnePass.

Definition Qn (n : nat) : Q := inject_Z (Z.of_nat n).

Lemma Qn_S (n : nat) : Qn (S n) == Qn n + 1.
Proof.
  unfold Qn. rewrite Nat2Z.inj_succ, <- Z.add_1_r, inject_Z_plus. reflexivity.
Qed.

Lemma Qn_add (n m : nat) : Qn (n + m) == Qn n + Qn m.
Proof.
  unfold Qn. rewrite Nat2Z.inj_add, inject_Z_plus. reflexivity.
Qed.

Lemma Qn_nonneg (n : nat) : 0 <= Qn n.
Proof.
  unfold Qn. change 0 with (inject_Z 0). rewrite <- Zle_Qle. lia.
Qed.

Lemma Qn_le (n m : nat) : (n <= m)%nat -> Qn n <= Qn m.
Proof.
  intros. unfold Qn. rewrite <- Zle_Qle. lia.
Qed.

Lemma Qn_pos (n : nat) : (0 < n)%nat -> 1 <= Qn n.
Proof.
  intros. change 1 with (Qn 1). now apply Qn_le.
Qed.

Lemma epsilon_pos : 0 < epsilon.
Proof. reflexivity. Qed.

Variable dec : Q.
Hypothesis dec_pos : 0 < dec.

Lemma Qmin_cases (x y : Q) :
  (x <= y /\ Qmin x y == x) \/ (y < x /\ Qmin x y == y).
Proof.
  destruct (Q.min_spec x y) as [[H1 H2]|[H1 H2]].
  - left. split; lra.
  - destruct (Qlt_le_dec y x); [right | left]; split; lra.
Qed.

Lemma reduceElem_adjustable (v m : Q) :
  adjustable v m = true ->
  reduceElem dec v m = v - Qmin (v - m) dec /\
  reductionOf dec v m = [Qmin (v - m) dec].
Proof.
  intros Ha. unfold reduceElem, reductionOf. rewrite Ha.
  unfold adjustable in Ha. apply gtb_true in Ha.
  pose proof epsilon_pos.
  assert (H0 : leb (v - m) 0 = false) by (apply leb_false; lra).
  rewrite H0.
  assert (H1 : leb (Qmin (v - m) dec) 0 = false).
  { apply leb_false. destruct (Qmin_cases (v - m) dec) as [[_ ->]|[_ ->]]; lra. }
  rewrite H1. auto.
Qed.

Lemma reduceElem_fixed (v m : Q) :
  adjustable v m = false ->
  reduceElem dec v m = v /\ reductionOf dec v m = [].
Proof.
  intros Ha. unfold reduceElem, reductionOf. now rewrite Ha.
Qed.

Lemma sum_app (l1 l2 : list Q) : sum (l1 ++ l2) == sum l1 + sum l2.
Proof.
  induction l1 as [|x l1 IH]; simpl.
  - rewrite sum_nil. lra.
  - rewrite !sum_cons, IH. lra.
Qed.

(** The pass lowers the sum by exactly what it reports as consumed. *)
Lemma pass_sum (l ms : list Q) :
  sum (map2d (reduceElem dec) l ms) == sum l - sum (reductions dec l ms).
Proof.
  revert ms. induction l as [|v l IH]; intros ms; simpl.
  - rewrite !sum_nil. lra.
  - rewrite !sum_cons, sum_app, IH.
    destruct (adjustable v (hd 0 ms)) eqn:Ha.
    + destruct (reduceElem_adjustable _ _ Ha) as [-> ->].
      rewrite sum_cons, sum_nil. lra.
    + destruct (reduceElem_fixed _ _ Ha) as [-> ->].
      rewrite sum_nil. lra.
Qed.

Lemma AllR_map2d (R : Q -> Q -> Prop) (g : Q -> Q -> Q) (l ms : list Q) :
  (forall v m, R v m -> R (g v m) m) ->
  AllR R l ms -> AllR R (map2d g l ms) ms.
Proof.
  intros Hg. revert ms. induction l as [|v l IH]; intros ms; simpl; auto.
  intros [H1 H2]. split; auto.
Qed.

Lemma AllR_impl (R R' : Q -> Q -> Prop) (l ms : list Q) :
  (forall v m, R v m -> R' v m) -> AllR R l ms -> AllR R' l ms.
Proof.
  intros Hg. revert ms. induction l as [|v l IH]; intros ms; simpl; auto.
  intros [H1 H2]. split; auto.
Qed.

Lemma AllR_and (R R' : Q -> Q -> Prop) (l ms : list Q) :
  AllR R l ms -> AllR R' l ms -> AllR (fun v m => R v m /\ R' v m) l ms.
Proof.
  revert ms. induction l as [|v l IH]; intros ms; simpl; auto.
  intros [H1 H2] [H3 H4]. repeat split; auto.
Qed.

Lemma reduceElem_bounds (v m : Q) :
  m <= v -> m <= reduceElem dec v m /\ reduceElem dec v m <= v.
Proof.
  intros Hm. destruct (adjustable v m) eqn:Ha.
  - destruct (reduceElem_adjustable _ _ Ha) as [-> _].
    destruct (Qmin_cases (v - m) dec) as [[? ->]|[? ->]]; lra.
  - destruct (reduceElem_fixed _ _ Ha) as [-> _]. lra.
Qed.

Lemma adjustable_true (v m : Q) : adjustable v m = true <-> epsilon < v - m.
Proof. unfold adjustable. apply gtb_true. Qed.

Lemma adjustable_false (v m : Q) : adjustable v m = false <-> v - m <= epsilon.
Proof. unfold adjustable. apply gtb_false. Qed.

Lemma reduceElem_adjustable_mono (v m : Q) :
  m <= v -> adjustable (reduceElem dec v m) m = true -> adjustable v m = true.
Proof.
  intros Hm. rewrite !adjustable_true.
  destruct (reduceElem_bounds v m Hm). lra.
Qed.

Lemma pass_count_le (l ms : list Q) :
  AllR (fun v m => m <= v) l ms ->
  (countR adjustable (map2d (reduceElem dec) l ms) ms <= countR adjustable l ms)%nat.
Proof.
  revert ms. induction l as [|v l IH]; intros ms; simpl; auto.
  intros [H1 H2]. specialize (IH _ H2).
  destruct (adjustable (reduceElem dec v (hd 0 ms)) (hd 0 ms)) eqn:Ha.
  - rewrite (reduceElem_adjustable_mono _ _ H1 Ha). lia.
  - destruct (adjustable v (hd 0 ms)); lia.
Qed.

(** First case: every adjustable entry can take the whole decrement. *)
Lemma pass_consumed_all (l ms : list Q) :
  AllR (fun v m => adjustable v m = true -> dec <= v - m) l ms ->
  sum (reductions dec l ms) == Qn (countR adjustable l ms) * dec.
Proof.
  revert ms. induction l as [|v l IH]; intros ms; simpl.
  - intros _. rewrite sum_nil. change (Qn 0) with 0. lra.
  - intros [H1 H2]. rewrite sum_app, (IH _ H2), Qn_add.
    destruct (adjustable v (hd 0 ms)) eqn:Ha.
    + destruct (reduceElem_adjustable _ _ Ha) as [_ ->].
      rewrite sum_cons, sum_nil. specialize (H1 eq_refl).
      destruct (Qmin_cases (v - hd 0 ms) dec) as [[? ->]|[? ->]];
        change (Qn 1) with 1; lra.
    + destruct (reduceElem_fixed _ _ Ha) as [_ ->].
      rewrite sum_nil. change (Qn 0) with 0. lra.
Qed.

(** Every adjustable entry gives up more than [epsilon] when the decrement
    is larger than [epsilon]. *)
Lemma pass_consumed_lower (l ms : list Q) :
  epsilon < dec ->
  epsilon * Qn (countR adjustable l ms) <= sum (reductions dec l ms) /\
  ((0 < countR adjustable l ms)%nat -> epsilon < sum (reductions dec l ms)).
Proof.
  intros Hd. revert ms. induction l as [|v l IH]; intros ms; simpl.
  - rewrite sum_nil. change (Qn 0) with 0. split; [lra | lia].
  - destruct (IH (tl ms)) as [IH1 IH2]. rewrite sum_app, Qn_add.
    pose proof (Qn_nonneg (countR adjustable l (tl ms))) as Hk.
    pose proof epsilon_pos as He.
    destruct (adjustable v (hd 0 ms)) eqn:Ha.
    + destruct (reduceElem_adjustable _ _ Ha) as [_ ->].
      rewrite sum_cons, sum_nil. apply adjustable_true in Ha.
      change (Qn 1) with 1.
      assert (epsilon < Qmin (v - hd 0 ms) dec)
        by (destruct (Qmin_cases (v - hd 0 ms) dec) as [[? ->]|[? ->]]; lra).
      assert (0 <= epsilon * Qn (countR adjustable l (tl ms)))
        by (apply Qmult_le_0_compat; lra).
      split; intros; lra.
    + destruct (reduceElem_fixed _ _ Ha) as [_ ->].
      rewrite sum_nil. change (Qn 0) with 0. simpl.
      split; [lra | intros; specialize (IH2 H); lra].
Qed.

(** Second case: an adjustable entry cannot take the whole decrement; it
    drops to its minimum and leaves the adjustable set for good. *)
Lemma pass_count_lt (l ms : list Q) :
  AllR (fun v m => m <= v) l ms ->
  ExR (fun v m => adjustable v m = true /\ v - m < dec) l ms ->
  (countR adjustable (map2d (reduceElem dec) l ms) ms < countR adjustable l ms)%nat.
Proof.
  revert ms. induction l as [|v l IH]; intros ms; simpl; [tauto|].
  intros [H1 H2] [[Ha Ht]|Hex].
  - pose proof (pass_count_le l (tl ms) H2).
    rewrite Ha.
    destruct (reduceElem_adjustable _ _ Ha) as [-> _].
    assert (Hf : adjustable (v - Qmin (v - hd 0 ms) dec) (hd 0 ms) = false).
    { apply adjustable_false. pose proof epsilon_pos.
      destruct (Qmin_cases (v - hd 0 ms) dec) as [[? ->]|[? ->]]; lra. }
    rewrite Hf. lia.
  - specialize (IH _ H2 Hex).
    destruct (adjustable (reduceElem dec v (hd 0 ms)) (hd 0 ms)) eqn:Ha.
    + rewrite (reduceElem_adjustable_mono _ _ H1 Ha). lia.
    + destruct (adjustable v (hd 0 ms)); lia.
Qed.

Lemma pass_dichotomy (l ms : list Q) :
  AllR (fun v m => adjustable v m = true -> dec <= v - m) l ms \/
  ExR (fun v m => adjustable v m = true /\ v - m < dec) l ms.
Proof.
  revert ms. induction l as [|v l IH]; intros ms; simpl; auto.
  destruct (IH (tl ms)) as [IH1|IH1]; auto.
  destruct (adjustable v (hd 0 ms)) eqn:Ha.
  - destruct (Qlt_le_dec (v - hd 0 ms) dec); auto.
  - left. split; auto. discriminate.
Qed.

Lemma tight_dec_large (l ms : list Q) :
  ExR (fun v m => adjustable v m = true /\ v - m < dec) l ms -> epsilon < dec.
Proof.
  revert ms. induction l as [|v l IH]; intros ms; simpl; [tauto|].
  intros [[Ha Ht]|Hex]; eauto.
  apply adjustable_true in Ha. lra.
Qed.

End OnePass.

Section ClampLoop.

Variable ms : list Q.
Variable targetTotal : Q.
Hypothesis target_nonneg : 0 <= targetTotal.

(** Sum of the minimums of the entries, and number of entries whose minimum
    is not zero. *)
Definition sumMin (l : list Q) : Q := sum (map2d (fun _ m => m) l ms).
Definition countNZ (l : list Q) : nat := countR (fun _ m => negb (Qeq_bool m 0)) l ms.

(** What the caller guarantees of every entry and the loop keeps. *)
Definition entryOk (v m : Q) : Prop := 0 <= m /\ m <= v /\ (m == 0 -> v == 0).
Definition Base (l : list Q) : Prop := AllR entryOk l ms.

Lemma map2d_map2d_snd (g : Q -> Q -> Q) (h : Q -> Q -> Q) (l ms' : list Q) :
  (forall v v' m, h v m = h v' m) ->
  map2d h (map2d g l ms') ms' = map2d h l ms'.
Proof.
  intros Hh. revert ms'. induction l as [|v l IH]; intros ms'; simpl; auto.
  now rewrite IH, (Hh _ v).
Qed.

Lemma countR_map2d_snd (g : Q -> Q -> Q) (p : Q -> Q -> bool) (l ms' : list Q) :
  (forall v v' m, p v m = p v' m) ->
  countR p (map2d g l ms') ms' = countR p l ms'.
Proof.
  intros Hp. revert ms'. induction l as [|v l IH]; intros ms'; simpl; auto.
  now rewrite IH, (Hp _ v).
Qed.

Lemma sumMin_map2d (g : Q -> Q -> Q) (l : list Q) :
  sumMin (map2d g l ms) = sumMin l.
Proof. unfold sumMin. now rewrite map2d_map2d_snd. Qed.

Lemma countNZ_map2d (g : Q -> Q -> Q) (l : list Q) :
  countNZ (map2d g l ms) = countNZ l.
Proof. unfold countNZ. now rewrite countR_map2d_snd. Qed.

Lemma entryOk_reduceElem (dec v m : Q) :
  0 < dec -> entryOk v m -> entryOk (reduceElem dec v m) m.
Proof.
  intros Hd (H0 & H1 & H2).
  destruct (reduceElem_bounds dec Hd v m H1) as [Ha Hb].
  repeat split; auto.
  intros Hm. specialize (H2 Hm). lra.
Qed.

Lemma Base_pass (dec : Q) (l : list Q) :
  0 < dec -> Base l -> Base (map2d (reduceElem dec) l ms).
Proof.
  intros Hd. apply AllR_map2d. intros v m. now apply entryOk_reduceElem.
Qed.

Lemma Base_above (l : list Q) : Base l -> AllR (fun v m => m <= v) l ms.
Proof. apply AllR_impl. intros v m (_ & H & _). exact H. Qed.

Lemma Base_sum_nonneg (l : list Q) : Base l -> 0 <= sum l.
Proof.
  unfold Base. generalize ms. induction l as [|v l IH]; intros ms'; simpl.
  - intros _. rewrite sum_nil. lra.
  - intros [(H0 & H1 & _) H2]. rewrite sum_cons. specialize (IH _ H2). lra.
Qed.

(** Leaving the loop because nothing is adjustable any more. *)
Lemma exit_bound (l : list Q) :
  Base l -> countR adjustable l ms = O ->
  sum l <= sumMin l + epsilon * Qn (countNZ l).
Proof.
  unfold Base, sumMin, countNZ. generalize ms.
  induction l as [|v l IH]; intros ms'; simpl.
  - intros _ _. rewrite sum_nil. change (Qn 0) with 0. lra.
  - intros [(H0 & H1 & H2) H3] Hc.
    destruct (adjustable v (hd 0 ms')) eqn:Ha; [discriminate|].
    simpl in Hc. specialize (IH _ H3 Hc).
    apply adjustable_false in Ha.
    rewrite !sum_cons, Qn_add.
    destruct (Qeq_bool (hd 0 ms') 0) eqn:Hz; simpl.
    + apply Qeq_bool_iff in Hz. specialize (H2 Hz).
      change (Qn 0) with 0. lra.
    + change (Qn 1) with 1. lra.
Qed.

Lemma clampLoop_unfold (fuel : nat) (l : list Q) (total : Q) :
  clampLoop (S fuel) ms targetTotal l total =
  if gtb (total - targetTotal) epsilon then
    if Nat.eqb (countR adjustable l ms) 0 then (l, total)
    else
      let dec := (total - targetTotal) / Qn (countR adjustable l ms) in
      let consumed := sum (reductions dec l ms) in
      if leb consumed epsilon then (map2d (reduceElem dec) l ms, total)
      else clampLoop fuel ms targetTotal (map2d (reduceElem dec) l ms) (total - consumed)
  else (l, total).
Proof.
  simpl. destruct (gtb (total - targetTotal) epsilon); auto.
  rewrite <- adjustableIndices_length.
  destruct (adjustableIndices l ms) as [|p rest] eqn:E; auto.
  rewrite <- E, fold_reduceAt. rewrite E. reflexivity.
Qed.

Lemma clampLoop_exit (fuel : nat) (l : list Q) (total : Q) :
  total - targetTotal <= epsilon ->
  clampLoop fuel ms targetTotal l total = (l, total).
Proof.
  intros H. destruct fuel; auto.
  rewrite clampLoop_unfold.
  apply gtb_false in H. now rewrite H.
Qed.

Lemma map2d_snd_length (h : Q -> Q) (l l' ms' : list Q) :
  length l = length l' ->
  map2d (fun _ m => h m) l ms' = map2d (fun _ m => h m) l' ms'.
Proof.
  revert l' ms'.
  induction l as [|v l IH]; intros [|v' l'] ms' Hlen; simpl in *; try discriminate; auto.
  injection Hlen as Hlen. now rewrite (IH l' (tl ms') Hlen).
Qed.

Lemma sumMin_length (l l' : list Q) :
  length l = length l' -> sumMin l = sumMin l'.
Proof.
  intros Hlen. unfold sumMin.
  now rewrite (map2d_snd_length (fun m => m) l l' ms Hlen).
Qed.

Lemma countNZ_length (l l' : list Q) :
  length l = length l' -> countNZ l = countNZ l'.
Proof.
  unfold countNZ. generalize ms. revert l'.
  induction l as [|v l IH]; intros [|v' l'] ms' Hlen; simpl in *; try discriminate; auto.
Qed.

(** The state in which the loop is left. *)
Definition Post (l : list Q) (r : list Q * Q) : Prop :=
  Base (fst r) /\ snd r == sum (fst r) /\ length (fst r) = length l /\
  (sum (fst r) <= targetTotal + epsilon \/
   sum (fst r) <= sumMin l + epsilon * Qn (countNZ l)).

(** The iteration bound is never what ends the loop: with [j] passes done
    and [k] entries adjustable, every further pass that does not close the
    excess removes an entry from the adjustable set and takes more than
    [epsilon] from each of the [k], so the total cannot stay non-negative
    for a thousand passes. *)
Lemma clampLoop_post (fuel : nat) :
  forall (j : nat) (l : list Q) (total : Q),
    (j + fuel = 1000)%nat ->
    Base l -> total == sum l ->
    total + epsilon * (Qn j * Qn (countR adjustable l ms) + Qn j * (Qn j + 1) * (1 # 2)) <= 500 ->
    Post l (clampLoop fuel ms targetTotal l total).
Proof.
  induction fuel as [|fuel IH]; intros j l total Hj HB Ht Hpot.
  - exfalso. rewrite Nat.add_0_r in Hj. subst j.
    pose proof (Base_sum_nonneg l HB) as Hs.
    pose proof (Qn_nonneg (countR adjustable l ms)) as Hk.
    change (Qn 1000) with 1000 in Hpot. unfold epsilon in Hpot. lra.
  - rewrite clampLoop_unfold.
    destruct (gtb (total - targetTotal) epsilon) eqn:Hgt.
    2:{ apply gtb_false in Hgt. repeat split; auto. simpl. left. lra. }
    apply gtb_true in Hgt.
    destruct (Nat.eqb (countR adjustable l ms) 0) eqn:Hk0.
    { apply Nat.eqb_eq in Hk0. repeat split; auto. simpl. right.
      now apply exit_bound. }
    apply Nat.eqb_neq in Hk0.
    set (k := countR adjustable l ms) in *.
    assert (Hk1 : 1 <= Qn k) by (apply Qn_pos; lia).
    pose proof epsilon_pos as He.
    cbv zeta.
    set (dec := (total - targetTotal) / Qn k).
    assert (Hdk : dec * Qn k == total - targetTotal)
      by (unfold dec; field; lra).
    assert (Hd : 0 < dec).
    { unfold dec. apply Qlt_shift_div_l; lra. }
    set (l' := map2d (reduceElem dec) l ms).
    set (c := sum (reductions dec l ms)).
    assert (HB' : Base l') by now apply Base_pass.
    assert (Hs' : sum l' == sum l - c) by apply (pass_sum dec Hd).
    destruct (pass_dichotomy dec l ms) as [Hall|Htight].
    + assert (Hc : c == total - targetTotal).
      { unfold c. rewrite (pass_consumed_all dec Hd l ms Hall). fold k. lra. }
      assert (Hle : leb c epsilon = false) by (apply leb_false; lra).
      rewrite Hle, clampLoop_exit by lra.
      unfold Post; simpl. repeat split; auto.
      * lra.
      * apply map2d_length.
      * left. lra.
    + pose proof (tight_dec_large dec l ms Htight) as Hdl.
      destruct (pass_consumed_lower dec Hd l ms Hdl) as [Hlow Hstrict].
      fold k in Hlow, Hstrict. fold c in Hlow, Hstrict.
      assert (Hce : epsilon < c) by (apply Hstrict; lia).
      assert (Hle : leb c epsilon = false) by (apply leb_false; lra).
      rewrite Hle.
      pose proof (pass_count_lt dec Hd l ms (Base_above l HB) Htight) as Hlt.
      fold l' in Hlt. fold k in Hlt.
      set (k' := countR adjustable l' ms) in *.
      assert (Hk' : Qn k' + 1 <= Qn k).
      { rewrite <- Qn_S. apply Qn_le. lia. }
      pose proof (Qn_nonneg k') as Hk'0.
      pose proof (Qn_nonneg j) as Hj0.
      destruct (IH (S j) l' (total - c)) as (P1 & P2 & P3 & P4).
      * lia.
      * exact HB'.
      * lra.
      * fold k'. rewrite Qn_S.
        assert (Hm : (Qn j + 1) * Qn k' <= (Qn j + 1) * (Qn k - 1))
          by (apply Qmult_le_l; lra).
        unfold epsilon in *. lra.
      * unfold Post. repeat split; auto.
        -- rewrite P3. apply map2d_length.
        -- unfold l' in P4.
           rewrite sumMin_map2d, countNZ_map2d in P4. exact P4.
Qed.

End ClampLoop.

Section ClampSpec.


Lemma sum_map2d_le (g : Q -> Q -> Q) (l ms : list Q) :
  AllR (fun v m => g v m <= v) l ms -> sum (map2d g l ms) <= sum l.
Proof.
  revert ms. induction l as [|v l IH]; intros ms; simpl.
  - intros _. lra.
  - intros [H1 H2]. rewrite !sum_cons. specialize (IH _ H2). lra.
Qed.

Lemma Qmax_cases (x y : Q) :
  (x <= y /\ Qmax x y == y) \/ (y <= x /\ Qmax x y == x).
Proof.
  destruct (Q.max_spec x y) as [[H1 H2]|[H1 H2]]; [left | right]; split; lra.
Qed.

Lemma rescale_entry (scale v m : Q) :
  0 <= scale -> scale <= 1 -> entryOk v m ->
  entryOk (Qmax m (v * scale)) m /\ Qmax m (v * scale) <= v.
Proof.
  intros Hs0 Hs1 (H0 & H1 & H2).
  assert (Hv : v * scale <= v).
  { assert (0 <= v) by lra. nra. }
  destruct (Qmax_cases m (v * scale)) as [[Ha Hb]|[Ha Hb]];
    (split; [repeat split; auto; try lra | lra]);
    intros Hm; specialize (H2 Hm); nra.
Qed.

(** The last-resort rescaling keeps every entry between its minimum and its
    value before rescaling. *)
Lemma rescale_spec (ms l : list Q) (scale : Q) :
  0 <= scale -> scale <= 1 -> Base ms l ->
  Base ms (mapi (fun value i => Qmax (nth i ms 0) (value * scale)) l) /\
  length (mapi (fun value i => Qmax (nth i ms 0) (value * scale)) l) = length l /\
  sum (mapi (fun value i => Qmax (nth i ms 0) (value * scale)) l) <= sum l.
Proof.
  intros Hs0 Hs1 HB.
  rewrite (mapi_map2d (fun value m => Qmax m (value * scale)) ms l).
  split; [|split].
  - unfold Base.
    apply (AllR_map2d entryOk (fun value m => Qmax m (value * scale))).
    + intros v0 m0 H. now apply rescale_entry.
    + exact HB.
  - apply map2d_length.
  - apply sum_map2d_le. revert HB. apply AllR_impl.
    intros v0 m0 H. now apply rescale_entry.
Qed.

(** From the state in which the loop is left to the returned array. *)
Lemma clamp_finish (ms d : list Q) (targetTotal : Q) (st : list Q * Q) :
  0 <= targetTotal ->
  Post ms targetTotal d st ->
  Base ms (if gtb (snd st) targetTotal
           then mapi (fun value i => Qmax (nth i ms 0) (value * (targetTotal / snd st)))
                     (fst st)
           else fst st) /\
  length (if gtb (snd st) targetTotal
          then mapi (fun value i => Qmax (nth i ms 0) (value * (targetTotal / snd st)))
                    (fst st)
          else fst st) = length d /\
  (sum (if gtb (snd st) targetTotal
        then mapi (fun value i => Qmax (nth i ms 0) (value * (targetTotal / snd st)))
                  (fst st)
        else fst st) <= targetTotal + epsilon \/
   sum (if gtb (snd st) targetTotal
        then mapi (fun value i => Qmax (nth i ms 0) (value * (targetTotal / snd st)))
                  (fst st)
        else fst st) <= sumMin ms d + epsilon * Qn (countNZ ms d)).
Proof.
  intros Ht (P1 & P2 & P3 & P4).
  destruct (gtb (snd st) targetTotal) eqn:Hgt.
  2:{ split; [exact P1 | split; [exact P3 | exact P4]]. }
  apply gtb_true in Hgt.
  assert (Hs0 : 0 <= targetTotal / snd st)
    by (apply Qle_shift_div_l; lra).
  assert (Hs1 : targetTotal / snd st <= 1)
    by (apply Qle_shift_div_r; lra).
  destruct (rescale_spec ms (fst st) (targetTotal / snd st) Hs0 Hs1 P1)
    as (R1 & R2 & R3).
  split; [exact R1 | split; [congruence|]].
  destruct P4 as [P4|P4]; [left | right]; lra.
Qed.

Lemma clamp_start (ms d : list Q) (targetTotal : Q) :
  0 <= targetTotal -> Base ms d -> sum d <= 500 ->
  Post ms targetTotal d (clampLoop 1000 ms targetTotal d (sum d)).
Proof.
  intros Ht HB Hsum.
  apply (clampLoop_post ms targetTotal 1000 0 d (sum d)).
  - reflexivity.
  - exact HB.
  - reflexivity.
  - change (Qn 0) with 0. lra.
Qed.

(** What [clampDurationsWithMinimums] guarantees when every entry starts at
    or above its minimum, entries with minimum zero are zero, and the
    total is moderate. *)
Lemma clampDurationsWithMinimums_spec (durations ms : list Q) (targetTotal : Q) :
  0 <= targetTotal ->
  Base ms durations ->
  sum durations <= 500 ->
  Base ms (clampDurationsWithMinimums durations ms targetTotal) /\
  length (clampDurationsWithMinimums durations ms targetTotal) = length durations /\
  (sum (clampDurationsWithMinimums durations ms targetTotal) <= targetTotal + epsilon \/
   sum (clampDurationsWithMinimums durations ms targetTotal)
   <= sumMin ms durations + epsilon * Qn (countNZ ms durations)).
Proof.
  intros Ht HB Hsum.
  unfold clampDurationsWithMinimums.
  destruct durations as [|v l].
  { split; [exact I | split; [reflexivity | left]].
    pose proof epsilon_pos. change (sum [] <= targetTotal + epsilon).
    rewrite sum_nil. lra. }
  cbv beta match zeta.
  destruct (leb (sum (v :: l)) targetTotal) eqn:Hle.
  { apply leb_true in Hle. pose proof epsilon_pos.
    split; [exact HB | split; [reflexivity | left; lra]]. }
  apply clamp_finish; [exact Ht|].
  apply clamp_start; assumption.
Qed.

End ClampSpec.

(** * Effective durations in preview mode *)

Section EffectiveDurations.

Definition sanitised (scenes : list Scene) : list Q :=
  map (fun s => sanitiseDuration (duration s)) scenes.

Definition positiveCount (d : list Q) : nat :=
  length (filter (fun value => gtb value 0) d).

Definition dynamicMinimumOf (n : nat) : Q :=
  if (0 <? n)%nat
  then Qmin PREVIEW_MIN_SCENE_DURATION_SECONDS
            (PREVIEW_MAX_TOTAL_DURATION_SECONDS / inject_Z (Z.of_nat n))
  else 0.

Definition minOf (dm v : Q) : Q := if gtb v 0 then dm else 0.

Definition scaledOf (T v : Q) : Q :=
  if leb v 0 then 0 else (v / T) * PREVIEW_MAX_TOTAL_DURATION_SECONDS.

Definition clampedOf (dm T v : Q) : Q :=
  if Qeq_bool (minOf dm v) 0 then 0 else Qmax (minOf dm v) (scaledOf T v).

(** A scene duration the data model allows: finite and positive. *)
Definition finitePositive (v : jsnum) : Prop := exists q, v = Num q /\ 0 < q.

Lemma sanitise_cases (v : jsnum) :
  sanitiseDuration v = 0 \/ 0 < sanitiseDuration v.
Proof.
  destruct v as [q| | |]; simpl; auto.
  destruct (leb q 0) eqn:H; auto.
  right. now apply leb_false.
Qed.

Lemma sanitise_finitePositive (v : jsnum) (q : Q) :
  v = Num q -> 0 < q -> sanitiseDuration v = q.
Proof.
  intros -> Hq. simpl. apply leb_false in Hq. now rewrite Hq.
Qed.


Definition entryFine (x : Q) : Prop := x = 0 \/ 0 < x.

Lemma sanitised_fine (scenes : list Scene) : Forall entryFine (sanitised scenes).
Proof.
  unfold sanitised. induction scenes; simpl; constructor; auto.
  apply sanitise_cases.
Qed.

Lemma fine_nonneg (x : Q) : entryFine x -> 0 <= x.
Proof. intros [-> | H]; lra. Qed.

Lemma sum_fine_nonneg (d : list Q) : Forall entryFine d -> 0 <= sum d.
Proof.
  induction 1 as [|x d Hx _ IH].
  - rewrite sum_nil. lra.
  - rewrite sum_cons. apply fine_nonneg in Hx. lra.
Qed.

Lemma sum_zero_all_zero (d : list Q) :
  Forall entryFine d -> sum d <= 0 -> d = repeat 0 (length d).
Proof.
  induction 1 as [|x d Hx Hd IH]; simpl; auto.
  rewrite sum_cons. intros Hs.
  pose proof (sum_fine_nonneg d Hd).
  destruct Hx as [-> | Hx]; [|lra].
  f_equal. apply IH. lra.
Qed.

Lemma positiveCount_zero (d : list Q) :
  Forall entryFine d -> positiveCount d = O -> sum d <= 0.
Proof.
  unfold positiveCount.
  induction 1 as [|x d Hx Hd IH]; simpl.
  - intros _. rewrite sum_nil. lra.
  - rewrite sum_cons. destruct (gtb x 0) eqn:Hg; simpl; [discriminate|].
    intros Hc. apply gtb_false in Hg. specialize (IH Hc). lra.
Qed.

(** The compressing branch, with the index-based maps of the source
    rewritten as maps over the sanitised durations. *)
Lemma map2d_map_map (g : Q -> Q -> Q) (f h : Q -> Q) (d : list Q) :
  map2d g (map f d) (map h d) = map (fun v => g (f v) (h v)) d.
Proof.
  induction d as [|v d IH]; simpl; auto. now rewrite IH.
Qed.

Lemma computeEffectiveDurations_compress (scenes : list Scene) :
  PREVIEW_MAX_TOTAL_DURATION_SECONDS < sum (sanitised scenes) ->
  computeEffectiveDurations scenes Preview =
  clampDurationsWithMinimums
    (map (clampedOf (dynamicMinimumOf (positiveCount (sanitised scenes)))
                    (sum (sanitised scenes)))
         (sanitised scenes))
    (map (minOf (dynamicMinimumOf (positiveCount (sanitised scenes))))
         (sanitised scenes))
    PREVIEW_MAX_TOTAL_DURATION_SECONDS.
Proof.
  intros Hgt. unfold computeEffectiveDurations.
  destruct scenes as [|s0 rest].
  { exfalso. revert Hgt. unfold sanitised. simpl. rewrite sum_nil.
    unfold PREVIEW_MAX_TOTAL_DURATION_SECONDS. lra. }
  cbv beta match zeta.
  fold (sanitised (s0 :: rest)).
  remember (sanitised (s0 :: rest)) as d eqn:Ed. clear Ed.
  assert (H0 : leb (sum d) 0 = false).
  { apply leb_false. revert Hgt. unfold PREVIEW_MAX_TOTAL_DURATION_SECONDS. lra. }
  assert (H1 : leb (sum d) PREVIEW_MAX_TOTAL_DURATION_SECONDS = false)
    by now apply leb_false.
  rewrite H0, H1.
  fold (positiveCount d). fold (dynamicMinimumOf (positiveCount d)).
  f_equal.
  rewrite (mapi_map2d (fun value m => if Qeq_bool m 0 then 0 else Qmax m value)).
  change (fun value : Q => if gtb value 0 then dynamicMinimumOf (positiveCount d) else 0)
    with (minOf (dynamicMinimumOf (positiveCount d))).
  change (fun value : Q =>
            if leb value 0 then 0
            else value / sum d * PREVIEW_MAX_TOTAL_DURATION_SECONDS)
    with (scaledOf (sum d)).
  rewrite map2d_map_map. reflexivity.
Qed.

End EffectiveDurations.

Section PreviewBounds.

Lemma positiveCount_pos (d : list Q) :
  Forall entryFine d -> 0 < sum d -> (0 < positiveCount d)%nat.
Proof.
  intros Hf Hs. destruct (positiveCount d) eqn:E; [|lia].
  pose proof (positiveCount_zero d Hf E). lra.
Qed.

Lemma dynamicMinimum_bounds (n : nat) :
  (0 < n)%nat ->
  0 < dynamicMinimumOf n /\
  dynamicMinimumOf n <= PREVIEW_MIN_SCENE_DURATION_SECONDS /\
  Qn n * dynamicMinimumOf n <= PREVIEW_MAX_TOTAL_DURATION_SECONDS.
Proof.
  intros Hn. unfold dynamicMinimumOf.
  assert (Hb : (0 <? n)%nat = true) by now apply Nat.ltb_lt.
  rewrite Hb. fold (Qn n).
  pose proof (Qn_pos n Hn) as Hq.
  unfold PREVIEW_MIN_SCENE_DURATION_SECONDS, PREVIEW_MAX_TOTAL_DURATION_SECONDS.
  assert (Hdiv : 0 < 15 / Qn n) by (apply Qlt_shift_div_l; lra).
  assert (Hmul : Qn n * (15 / Qn n) == 15) by (apply Qmult_div_r; lra).
  destruct (Qmin_cases (75 # 100) (15 / Qn n)) as [[Ha Hm]|[Ha Hm]];
    rewrite Hm; repeat split; try lra.
  rewrite <- Hmul. apply Qmult_le_l; lra.
Qed.

Lemma AllR_map_map (R : Q -> Q -> Prop) (P : Q -> Prop) (f h : Q -> Q) (d : list Q) :
  (forall v, P v -> R (f v) (h v)) ->
  Forall P d -> AllR R (map f d) (map h d).
Proof.
  intros HR. induction 1 as [|v d Hv _ IH]; simpl; auto.
Qed.

Lemma minOf_cases (dm v : Q) :
  entryFine v -> (v = 0 /\ minOf dm v = 0) \/ (0 < v /\ minOf dm v = dm).
Proof.
  unfold minOf. intros [-> | Hv].
  - left. split; auto.
  - right. split; auto. apply gtb_true in Hv. now rewrite Hv.
Qed.

Lemma Qeq_bool_false_pos (x : Q) : 0 < x -> Qeq_bool x 0 = false.
Proof.
  intros Hx. destruct (Qeq_bool x 0) eqn:E; auto.
  apply Qeq_bool_iff in E. lra.
Qed.

Lemma clampedOf_entry (dm T v : Q) :
  0 < dm -> entryFine v -> entryOk (clampedOf dm T v) (minOf dm v).
Proof.
  intros Hdm Hv. unfold clampedOf.
  destruct (minOf_cases dm v Hv) as [[_ ->]|[_ ->]].
  - simpl. repeat split; try lra.
  - rewrite Qeq_bool_false_pos by exact Hdm.
    destruct (Qmax_cases dm (scaledOf T v)) as [[? ?]|[? ?]];
      repeat split; try lra.
Qed.

Lemma initial_Base (dm T : Q) (d : list Q) :
  0 < dm -> Forall entryFine d ->
  Base (map (minOf dm) d) (map (clampedOf dm T) d).
Proof.
  intros Hdm. unfold Base. apply AllR_map_map.
  intros v Hv. now apply clampedOf_entry.
Qed.

Lemma sum_minimums (dm : Q) (d : list Q) :
  Forall entryFine d ->
  sum (map (minOf dm) d) == Qn (positiveCount d) * dm.
Proof.
  unfold positiveCount.
  induction 1 as [|v d Hv _ IH]; simpl.
  - rewrite sum_nil. change (Qn 0) with 0. lra.
  - rewrite sum_cons, IH. unfold minOf at 1.
    destruct (gtb v 0); simpl length.
    + rewrite Qn_S. lra.
    + lra.
Qed.

Lemma sumMin_initial (dm T : Q) (d : list Q) :
  sumMin (map (minOf dm) d) (map (clampedOf dm T) d) = sum (map (minOf dm) d).
Proof.
  unfold sumMin. now rewrite map2d_map_map.
Qed.

Lemma countNZ_initial (dm T : Q) (d : list Q) :
  0 < dm -> Forall entryFine d ->
  countNZ (map (minOf dm) d) (map (clampedOf dm T) d) = positiveCount d.
Proof.
  intros Hdm. unfold countNZ, positiveCount.
  induction 1 as [|v d Hv _ IH]; simpl; auto.
  rewrite IH. unfold minOf.
  destruct (gtb v 0); simpl.
  - now rewrite Qeq_bool_false_pos by exact Hdm.
  - reflexivity.
Qed.

Lemma sum_scaled (T : Q) (d : list Q) :
  Forall entryFine d ->
  sum (map (scaledOf T) d) == sum d * / T * PREVIEW_MAX_TOTAL_DURATION_SECONDS.
Proof.
  induction 1 as [|v d Hv _ IH]; simpl.
  - rewrite !sum_nil. ring.
  - rewrite !sum_cons, IH. unfold scaledOf at 1, Qdiv.
    destruct Hv as [-> | Hv].
    + simpl. ring.
    + apply leb_false in Hv. rewrite Hv. ring.
Qed.

Lemma scaledOf_nonneg (T v : Q) : 0 < T -> entryFine v -> 0 <= scaledOf T v.
Proof.
  intros HT Hv. unfold scaledOf.
  destruct (leb v 0) eqn:E; [lra|].
  apply leb_false in E.
  unfold PREVIEW_MAX_TOTAL_DURATION_SECONDS.
  assert (0 < v / T) by (apply Qlt_shift_div_l; lra). lra.
Qed.

Lemma sum_clamped (dm T : Q) (d : list Q) :
  0 < dm -> 0 < T -> Forall entryFine d ->
  sum (map (clampedOf dm T) d) <= sum (map (minOf dm) d) + sum (map (scaledOf T) d).
Proof.
  intros Hdm HT. induction 1 as [|v d Hv _ IH]; simpl.
  - rewrite !sum_nil. lra.
  - rewrite !sum_cons.
    pose proof (scaledOf_nonneg T v HT Hv) as Hs.
    assert (clampedOf dm T v <= minOf dm v + scaledOf T v).
    { unfold clampedOf.
      destruct (minOf_cases dm v Hv) as [[_ ->]|[_ ->]].
      - simpl. lra.
      - rewrite Qeq_bool_false_pos by exact Hdm.
        destruct (Qmax_cases dm (scaledOf T v)) as [[? ->]|[? ->]]; lra. }
    lra.
Qed.

(** The array handed to [clampDurationsWithMinimums] when the preview has
    to be compressed, and what comes back. *)
Lemma compress_spec (d : list Q) :
  Forall entryFine d ->
  PREVIEW_MAX_TOTAL_DURATION_SECONDS < sum d ->
  let n := positiveCount d in
  let dm := dynamicMinimumOf n in
  let ms := map (minOf dm) d in
  let r := clampDurationsWithMinimums (map (clampedOf dm (sum d)) d) ms
                                      PREVIEW_MAX_TOTAL_DURATION_SECONDS in
  (0 < n)%nat /\ Base ms r /\ length r = length d /\
  (sum r <= PREVIEW_MAX_TOTAL_DURATION_SECONDS + epsilon \/
   sum r <= Qn n * dm + epsilon * Qn n).
Proof.
  intros Hf Hbig n dm ms r.
  assert (HT : 0 < sum d)
    by (revert Hbig; unfold PREVIEW_MAX_TOTAL_DURATION_SECONDS; lra).
  assert (Hn : (0 < n)%nat) by now apply positiveCount_pos.
  destruct (dynamicMinimum_bounds n Hn) as (Hdm & Hdm1 & Hdm2). fold dm in Hdm, Hdm1, Hdm2.
  assert (Hsm : sum ms == Qn n * dm) by now apply sum_minimums.
  assert (Hsc : sum (map (scaledOf (sum d)) d) == PREVIEW_MAX_TOTAL_DURATION_SECONDS).
  { rewrite sum_scaled by exact Hf.
    rewrite Qmult_inv_r by lra. ring. }
  pose proof (sum_clamped dm (sum d) d Hdm HT Hf) as Hcl. fold ms in Hcl.
  destruct (clampDurationsWithMinimums_spec
              (map (clampedOf dm (sum d)) d) ms PREVIEW_MAX_TOTAL_DURATION_SECONDS)
    as (R1 & R2 & R3).
  - unfold PREVIEW_MAX_TOTAL_DURATION_SECONDS. lra.
  - now apply initial_Base.
  - revert Hcl Hsc Hsm Hdm2. unfold PREVIEW_MAX_TOTAL_DURATION_SECONDS. lra.
  - fold r in R1, R2, R3.
    split; [exact Hn | split; [exact R1 | split]].
    + rewrite R2. now rewrite length_map.
    + unfold ms in R3. rewrite sumMin_initial, countNZ_initial in R3 by assumption.
      fold ms in R3. fold n in R3.
      destruct R3 as [R3|R3]; [left | right]; lra.
Qed.

End PreviewBounds.

(** * The render plan builder *)

Section RenderPlanClaims.



Lemma sanitised_length (scenes : list Scene) :
  length (sanitised scenes) = length scenes.
Proof. unfold sanitised. apply length_map. Qed.

Definition sceneOf (d : Q) : Scene := mkScene "s" "" [] "" (Num d) "" Image.

(** Raw duration of a scene of the data model (finite, positive). *)
Definition validScenes (scenes : list Scene) : Prop :=
  forall s, In s scenes -> finitePositive (duration s).

Lemma validScenes_sanitised (scenes : list Scene) :
  validScenes scenes -> map Num (sanitised scenes) = map duration scenes.
Proof.
  unfold sanitised, validScenes. induction scenes as [|s rest IH]; simpl; auto.
  intros Hv. destruct (Hv s (or_introl eq_refl)) as (q & Hq & Hpos).
  rewrite (sanitise_finitePositive _ q Hq Hpos), Hq.
  f_equal. apply IH. intros s' Hs'. apply Hv. now right.
Qed.

(** Below the cap the sanitised durations are returned as they are. *)
Lemma preview_below_cap (scenes : list Scene) :
  sum (sanitised scenes) <= PREVIEW_MAX_TOTAL_DURATION_SECONDS ->
  computeEffectiveDurations scenes Preview = sanitised scenes.
Proof.
  intros Hle. unfold computeEffectiveDurations.
  destruct scenes as [|s0 rest]; [reflexivity|].
  cbv beta match zeta. fold (sanitised (s0 :: rest)).
  pose proof (sanitised_fine (s0 :: rest)) as Hf.
  pose proof (sanitised_length (s0 :: rest)) as Hl.
  remember (sanitised (s0 :: rest)) as d eqn:Ed. clear Ed.
  destruct (leb (sum d) 0) eqn:H0.
  - apply leb_true in H0. rewrite <- Hl. symmetry.
    now apply sum_zero_all_zero.
  - apply leb_true in Hle. now rewrite Hle.
Qed.

Lemma validScenes_three : validScenes [sceneOf 2; sceneOf 5; sceneOf 3].
Proof.
  intros s [<- | [<- | [<- | []]]]; eexists; (split; [reflexivity|]);
    reflexivity.
Defined.


Lemma buildRenderPlan_nth_inv (scenes : list Scene) (fps : Q) (mode : RenderMode)
      (i : nat) (item : SceneRenderPlanItem) :
  nth_error (buildRenderPlan scenes fps mode) i = Some item ->
  exists s, nth_error scenes i = Some s.
Proof.
  unfold buildRenderPlan. rewrite mapi_nth_error.
  destruct (nth_error scenes i) as [s|]; [eauto | discriminate].
Qed.

(** C4: in download mode the effective durations of scenes of the data
    model are their raw durations, and a single 5 s scene at 24 fps gives
    exactly one item, of 120 frames. *)
Theorem download_plan (scenes : list Scene) (s : Scene) :
  validScenes scenes ->
  duration s = Num 5 ->
  map Num (computeEffectiveDurations scenes Download) = map duration scenes /\
  buildRenderPlan [s] 24 Download = [mkItem s 5 120].
Proof.
  intros Hv Hs. split.
  - apply (validScenes_sanitised scenes Hv).
  - unfold buildRenderPlan, computeEffectiveDurations, mapi. simpl.
    rewrite Hs. reflexivity.
Qed.

Lemma download_plan_witness :
  map Num (computeEffectiveDurations [sceneOf 2; sceneOf 5; sceneOf 3] Download)
  = [Num 2; Num 5; Num 3] /\
  buildRenderPlan [sceneOf 5] 24 Download = [mkItem (sceneOf 5) 5 120].
Proof.
  exact (download_plan [sceneOf 2; sceneOf 5; sceneOf 3] (sceneOf 5)
                       validScenes_three eq_refl).
Defined.



Definition sceneNaN : Scene := mkScene "n" "" [] "" NaN "" Image.



End RenderPlanClaims.

(** * The preview cap and the frame count in binary64 *)

Section PreviewTimingBinary64.

Import Binary64.

Definition sceneLasting (d : number) : Scene := mkScene "s" "" [] "" d "" Image.

(** Scenes of the data model: every duration finite and positive. *)
Definition finitePositiveScenes (scenes : list Scene) : Prop :=
  Forall (fun s => isFinite (duration s) = true /\ gtb (duration s) zero = true) scenes.

Lemma gtb_zero_not_leb (x : number) : gtb x zero = true -> leb x zero = false.
Proof.
  destruct x as [s|s| |s m e]; try destruct s; simpl; try discriminate; reflexivity.
Qed.

Lemma sanitiseDuration_finitePositive (x : number) :
  isFinite x = true -> gtb x zero = true -> sanitiseDuration x = x.
Proof.
  intros Hf Hp. unfold sanitiseDuration.
  now rewrite Hf, (gtb_zero_not_leb x Hp).
Qed.

Lemma finitePositiveScenes_sanitised (scenes : list Scene) :
  finitePositiveScenes scenes ->
  map (fun s => sanitiseDuration (duration s)) scenes = map duration scenes.
Proof.
  induction 1 as [|s rest [Hf Hp] _ IH]; simpl; [reflexivity|].
  now rewrite IH, sanitiseDuration_finitePositive.
Qed.

(** Ten scenes of 1501 s followed by ten of 1499 s. *)
Definition twentyScenes : list Scene :=
  repeat (sceneLasting (ofZ 1501)) 10 ++ repeat (sceneLasting (ofZ 1499)) 10.

(** Four scenes of 4.8 s, 1.6 s, 4.7 s and 3.9 s. *)
Definition fourScenes : list Scene :=
  [sceneLasting (decimal 48 10); sceneLasting (decimal 16 10);
   sceneLasting (decimal 47 10); sceneLasting (decimal 39 10)].

(** C1 on the code: the preview of twenty scenes, ten of 1501 s and ten
    of 1499 s, runs over the cap by more than epsilon.  The raw total exceeds the
    cap, the minimum is 0.75 s and twenty times the minimum is the cap,
    no returned duration is below the minimum, and yet the returned
    durations, ten of 0.75025 s and ten of 0.75 s, add up to 15.0025 s:
    more than cap + epsilon as JavaScript adds and compares them, and as
    exact numbers. *)
Theorem preview_cap_missed :
  let cap := PREVIEW_MAX_TOTAL_DURATION_SECONDS in
  let minimum := mathMin PREVIEW_MIN_SCENE_DURATION_SECONDS (div cap (ofZ 20)) in
  let effective := computeEffectiveDurations twentyScenes Preview in
  finitePositiveScenes twentyScenes /\
  gtb (sum (map duration twentyScenes)) cap = true /\
  minimum = decimal 75 100 /\
  leb (mul (ofZ 20) minimum) cap = true /\
  effective = repeat (S754_finite false 6757650490519608 (-53)) 10
              ++ repeat (decimal 75 100) 10 /\
  forallb (leb minimum) effective = true /\
  gtb (sum effective) (add cap epsilon) = true /\
  15 + (1 # 1000) < Js.sum (map toQ effective).
Proof.
  cbv zeta.
  split; [unfold twentyScenes; simpl; repeat constructor|].
  repeat (split; [vm_compute; reflexivity|]).
  vm_compute. reflexivity.
Qed.

(** C2, amended: for scenes of finite positive duration whose running
    total, added left to right in binary64, is positive and at most the cap,
    [computeEffectiveDurations] in preview mode returns every scene's
    duration unchanged. *)
Theorem preview_passthrough (scenes : list Scene) :
  finitePositiveScenes scenes ->
  gtb (sum (map duration scenes)) zero = true ->
  leb (sum (map duration scenes)) PREVIEW_MAX_TOTAL_DURATION_SECONDS = true ->
  computeEffectiveDurations scenes Preview = map duration scenes.
Proof.
  intros Hv Hpos Hle. unfold computeEffectiveDurations.
  destruct scenes as [|s rest]; [reflexivity|].
  cbv zeta. rewrite (finitePositiveScenes_sanitised _ Hv).
  now rewrite (gtb_zero_not_leb _ Hpos), Hle.
Qed.

Lemma preview_passthrough_witness :
  finitePositiveScenes [sceneLasting (ofZ 2); sceneLasting (ofZ 5); sceneLasting (ofZ 3)] /\
  computeEffectiveDurations
    [sceneLasting (ofZ 2); sceneLasting (ofZ 5); sceneLasting (ofZ 3)] Preview =
  [ofZ 2; ofZ 5; ofZ 3].
Proof.
  assert (H : finitePositiveScenes
                [sceneLasting (ofZ 2); sceneLasting (ofZ 5); sceneLasting (ofZ 3)])
    by (repeat constructor).
  split; [exact H|].
  exact (preview_passthrough _ H eq_refl eq_refl).
Defined.

(** C2, as stated, fails for scenes of 4.8 s, 1.6 s, 4.7 s and 3.9 s: the
    four durations add up to exactly 15 s, but the running total of the
    code is the next number above 15, and the preview shortens the
    scenes. *)
Lemma preview_passthrough_rounding :
  let effective := computeEffectiveDurations fourScenes Preview in
  finitePositiveScenes fourScenes /\
  Js.sum (map toQ (map duration fourScenes)) == 15 /\
  gtb (sum (map duration fourScenes)) PREVIEW_MAX_TOTAL_DURATION_SECONDS = true /\
  effective <> map duration fourScenes /\
  toQ (nth 0 effective zero) < toQ (decimal 48 10).
Proof.
  cbv zeta.
  split; [unfold finitePositiveScenes, fourScenes; repeat constructor|].
  split; [vm_compute; reflexivity|].
  split; [vm_compute; reflexivity|].
  split; [|vm_compute; reflexivity].
  intros H. vm_compute in H. discriminate H.
Qed.

(** C3: every item of the plan, for every frame rate and both modes, has
    [frameCount = Math.max(1, Math.ceil(durationSeconds * fps))], the
    product being the binary64 one, and its [durationSeconds] is the
    effective duration of its scene whenever that exceeds 0.01 s, and the
    fallback of the mode otherwise. *)
Theorem frameCount_invariant (scenes : list Scene) (fps : number) (mode : RenderMode)
        (i : nat) (item : SceneRenderPlanItem) :
  nth_error (buildRenderPlan scenes fps mode) i = Some item ->
  let effective := nth i (computeEffectiveDurations scenes mode) zero in
  frameCount item = mathMax (ofZ 1) (mathCeil (mul (durationSeconds item) fps)) /\
  durationSeconds item =
    if gtb effective (decimal 1 100) then effective
    else match mode with
         | Preview => PREVIEW_MIN_SCENE_DURATION_SECONDS
         | Download => mathMax (decimal 12 10) (div (ofZ 1) fps)
         end.
Proof.
  unfold buildRenderPlan. rewrite mapi_nth_error.
  destruct (nth_error scenes i) as [s|]; [|discriminate].
  cbn [option_map]. intros [= <-]. cbn [frameCount durationSeconds].
  split; reflexivity.
Qed.

(** A scene of 0.2 s at 15 fps has three frames: the product rounds to 3. *)
Lemma frameCount_invariant_witness :
  nth_error (buildRenderPlan [sceneLasting (decimal 2 10)] (ofZ 15) Preview) 0 =
  Some (mkItem (sceneLasting (decimal 2 10)) (decimal 2 10) (ofZ 3)) /\
  ofZ 3 = mathMax (ofZ 1) (mathCeil (mul (decimal 2 10) (ofZ 15))).
Proof.
  split; [reflexivity|].
  exact (proj1 (frameCount_invariant [sceneLasting (decimal 2 10)] (ofZ 15) Preview 0
                  (mkItem (sceneLasting (decimal 2 10)) (decimal 2 10) (ofZ 3))
                  eq_refl)).
Defined.

End PreviewTimingBinary64.

(** * Traces of the renderer *)

Section Runs.

(** [Runs m R]: from any world, [m] appends some events [l] to the trace,
    and [R] relates [l] to the outcome. *)
Definition Runs {A : Type} (m : M A) (R : list Event -> A + RenderError -> Prop) : Prop :=
  forall w, exists l, trace (fst (m w)) = trace w ++ l /\ R l (snd (m w)).

Lemma Runs_conseq {A : Type} (m : M A) (R R' : list Event -> A + RenderError -> Prop) :
  Runs m R -> (forall l r, R l r -> R' l r) -> Runs m R'.
Proof.
  intros H HR w. destruct (H w) as (l & Hl & Hr). eauto.
Qed.

Lemma Runs_ret {A : Type} (x : A) : Runs (ret x) (fun l r => l = [] /\ r = inl x).
Proof. intros w. exists []. simpl. now rewrite app_nil_r. Qed.

Lemma Runs_throw {A : Type} (e : RenderError) :
  Runs (@throw A e) (fun l r => l = [] /\ r = inr e).
Proof. intros w. exists []. simpl. now rewrite app_nil_r. Qed.

Lemma Runs_tick : Runs tick (fun l r => l = [] /\ r = inl tt).
Proof. intros w. exists []. simpl. now rewrite app_nil_r. Qed.

Lemma Runs_emit (e : Event) : Runs (emit e) (fun l r => l = [e] /\ r = inl tt).
Proof. intros w. exists [e]. simpl. auto. Qed.

Lemma Runs_throwIfAborted (env : Env) :
  Runs (throwIfAborted env)
       (fun l r => l = [] /\ (r = inl tt \/ r = inr AbortError)).
Proof.
  intros w. exists []. unfold throwIfAborted.
  destruct (aborted env w); simpl; rewrite app_nil_r; auto.
Qed.

Lemma Runs_bind {A B : Type} (m : M A) (k : A -> M B)
      (R1 : list Event -> A + RenderError -> Prop)
      (R2 : A -> list Event -> B + RenderError -> Prop)
      (R : list Event -> B + RenderError -> Prop) :
  Runs m R1 ->
  (forall x, Runs (k x) (R2 x)) ->
  (forall l e, R1 l (inr e) -> R l (inr e)) ->
  (forall l1 l2 x r, R1 l1 (inl x) -> R2 x l2 r -> R (l1 ++ l2) r) ->
  Runs (bind m k) R.
Proof.
  intros Hm Hk He Hc w. unfold bind.
  destruct (Hm w) as (l1 & Hl1 & Hr1).
  destruct (m w) as [w1 [x|e]]; simpl in *.
  - destruct (Hk x w1) as (l2 & Hl2 & Hr2).
    exists (l1 ++ l2). rewrite Hl2, Hl1, app_assoc. eauto.
  - exists l1. eauto.
Qed.

Lemma Runs_catch {A : Type} (m : M A) (h : RenderError -> M A)
      (R1 : list Event -> A + RenderError -> Prop)
      (R2 : RenderError -> list Event -> A + RenderError -> Prop)
      (R : list Event -> A + RenderError -> Prop) :
  Runs m R1 ->
  (forall e, Runs (h e) (R2 e)) ->
  (forall l x, R1 l (inl x) -> R l (inl x)) ->
  (forall l1 l2 e r, R1 l1 (inr e) -> R2 e l2 r -> R (l1 ++ l2) r) ->
  Runs (catch m h) R.
Proof.
  intros Hm Hh Hx Hc w. unfold catch.
  destruct (Hm w) as (l1 & Hl1 & Hr1).
  destruct (m w) as [w1 [x|e]]; simpl in *.
  - exists l1. eauto.
  - destruct (Hh e w1) as (l2 & Hl2 & Hr2).
    exists (l1 ++ l2). rewrite Hl2, Hl1, app_assoc. eauto.
Qed.

(** Every emitted event satisfies [P]. *)
Definition AllEvents {A : Type} (P : Event -> Prop) (m : M A) : Prop :=
  Runs m (fun l _ => Forall P l).

Lemma AllEvents_impl {A : Type} (P Q : Event -> Prop) (m : M A) :
  (forall e, P e -> Q e) -> AllEvents P m -> AllEvents Q m.
Proof.
  intros HPQ H. apply (Runs_conseq _ _ _ H).
  intros l _. apply Forall_impl. exact HPQ.
Qed.

Lemma AllEvents_ret {A : Type} (P : Event -> Prop) (x : A) : AllEvents P (ret x).
Proof. apply (Runs_conseq _ _ _ (Runs_ret x)). now intros l r [-> _]. Qed.

Lemma AllEvents_throw {A : Type} (P : Event -> Prop) (e : RenderError) :
  AllEvents P (@throw A e).
Proof. apply (Runs_conseq _ _ _ (Runs_throw e)). now intros l r [-> _]. Qed.

Lemma AllEvents_tick (P : Event -> Prop) : AllEvents P tick.
Proof. apply (Runs_conseq _ _ _ Runs_tick). now intros l r [-> _]. Qed.

Lemma AllEvents_throwIfAborted (P : Event -> Prop) (env : Env) :
  AllEvents P (throwIfAborted env).
Proof. apply (Runs_conseq _ _ _ (Runs_throwIfAborted env)). now intros l r [-> _]. Qed.

Lemma AllEvents_emit (P : Event -> Prop) (e : Event) : P e -> AllEvents P (emit e).
Proof.
  intros He. apply (Runs_conseq _ _ _ (Runs_emit e)).
  intros l r [-> _]. auto.
Qed.

Lemma AllEvents_bind {A B : Type} (P : Event -> Prop) (m : M A) (k : A -> M B) :
  AllEvents P m -> (forall x, AllEvents P (k x)) -> AllEvents P (bind m k).
Proof.
  intros Hm Hk.
  apply (Runs_bind m k _ (fun _ l _ => Forall P l) _ Hm Hk); auto.
  intros l1 l2 _ _ H1 H2. apply Forall_app. auto.
Qed.

Lemma AllEvents_catch {A : Type} (P : Event -> Prop) (m : M A) (h : RenderError -> M A) :
  AllEvents P m -> (forall e, AllEvents P (h e)) -> AllEvents P (catch m h).
Proof.
  intros Hm Hh.
  apply (Runs_catch m h _ (fun _ l _ => Forall P l) _ Hm Hh); auto.
  intros l1 l2 _ _ H1 H2. apply Forall_app. auto.
Qed.

End Runs.

(** Splits a computation along its binds, catches and branches. *)
Ltac events_step :=
  first
    [ apply AllEvents_bind; [|intros ?]
    | apply AllEvents_catch; [|intros ?]
    | apply AllEvents_ret
    | apply AllEvents_throw
    | apply AllEvents_tick
    | apply AllEvents_throwIfAborted
    | apply AllEvents_emit
    | match goal with
      | |- AllEvents _ (if ?c then _ else _) => destruct c
      | |- AllEvents _ (match ?c with _ => _ end) => destruct c
      end ].

Ltac events := repeat events_step.

Section EventKinds.

(** What the preloader may emit. *)
Definition preloadEvent (e : Event) : Prop :=
  match e with
  | Progress _ | LoadAttempt _ _ | Sleep _ => True
  | _ => False
  end.

(** What the loaders of one scene may emit. *)
Definition loadEvent (e : Event) : Prop :=
  match e with
  | LoadAttempt _ _ | Sleep _ => True
  | _ => False
  end.

Lemma createStylizedFallbackImage_events (env : Env) (scene : Scene) :
  AllEvents loadEvent (createStylizedFallbackImage env scene).
Proof. unfold createStylizedFallbackImage. events. Qed.

Lemma loadOnce_events (env : Env) (message : string) (i attempt : nat) :
  AllEvents loadEvent (loadOnce env message i attempt).
Proof. unfold loadOnce. events. exact I. Qed.

Lemma retryLoop_events (env : Env) (message : string) (scene : Scene) (i : nat)
      (remaining attempt : nat) :
  AllEvents loadEvent (retryLoop env message scene i remaining attempt).
Proof.
  revert attempt. induction remaining as [|remaining IH]; intros attempt; simpl.
  - apply createStylizedFallbackImage_events.
  - apply AllEvents_catch; [apply loadOnce_events|]. intros e.
    destruct (isAbortError e); [events|].
    destruct (attempt <? IMAGE_LOAD_RETRIES)%nat.
    + events; [exact I | apply IH].
    + apply createStylizedFallbackImage_events.
Qed.

Lemma loadImageWithRetries_events (env : Env) (src : string) (scene : Scene) (i : nat) :
  AllEvents loadEvent (loadImageWithRetries env src scene i).
Proof.
  unfold loadImageWithRetries. destruct (String.eqb src "").
  - apply createStylizedFallbackImage_events.
  - apply retryLoop_events.
Qed.

Lemma loadVideoFrameWithRetries_events (env : Env) (src : string) (scene : Scene) (i : nat) :
  AllEvents loadEvent (loadVideoFrameWithRetries env src scene i).
Proof.
  unfold loadVideoFrameWithRetries. destruct (String.eqb src "").
  - apply createStylizedFallbackImage_events.
  - apply retryLoop_events.
Qed.

Lemma createPreloadedImageFromElement_events (env : Env) (key : string)
      (element : ImageSource) :
  AllEvents loadEvent (createPreloadedImageFromElement env key element).
Proof. unfold createPreloadedImageFromElement. events. Qed.

End EventKinds.

Section BackendEvents.

Definition notAttempt (e : Event) : Prop :=
  match e with
  | Attempt _ _ => False
  | _ => True
  end.

Lemma loadEvent_preloadEvent (e : Event) : loadEvent e -> preloadEvent e.
Proof. destruct e; simpl; auto. Qed.

Lemma preloadEvent_notAttempt (e : Event) : preloadEvent e -> notAttempt e.
Proof. destruct e; simpl; auto. Qed.

Lemma updateOverallProgress_events (a b c : Q) :
  AllEvents preloadEvent (updateOverallProgress a b c).
Proof. unfold updateOverallProgress. events. exact I. Qed.

Lemma worker_events (env : Env) (onProgress : Q -> M unit) (total : nat)
      (remaining : list Scene) :
  (forall v, AllEvents preloadEvent (onProgress v)) ->
  forall (i completed : nat) (results : list PreloadedImage),
    AllEvents preloadEvent (worker env onProgress total remaining i completed results).
Proof.
  intros Hp. induction remaining as [|scene rest IH]; intros i completed results; simpl.
  - events.
  - apply AllEvents_bind; [events|]. intros _.
    apply AllEvents_bind.
    { apply AllEvents_catch.
      - apply (AllEvents_impl loadEvent); [exact loadEvent_preloadEvent|].
        destruct (footageType scene).
        + apply loadImageWithRetries_events.
        + apply loadVideoFrameWithRetries_events.
      - intros e. destruct (isAbortError e); [events|].
        apply (AllEvents_impl loadEvent); [exact loadEvent_preloadEvent|].
        apply createStylizedFallbackImage_events. }
    intros baseImage. apply AllEvents_bind.
    { apply (AllEvents_impl loadEvent); [exact loadEvent_preloadEvent|].
      apply createPreloadedImageFromElement_events. }
    intros prepared. apply AllEvents_bind; [apply Hp|]. intros _. apply IH.
Qed.

Lemma preloadAllImages_events (env : Env) (scenes : list Scene)
      (onProgress : Q -> M unit) :
  (forall v, AllEvents preloadEvent (onProgress v)) ->
  AllEvents preloadEvent (preloadAllImages env scenes onProgress).
Proof.
  intros Hp. unfold preloadAllImages.
  apply AllEvents_bind; [apply Hp|]. intros _.
  apply AllEvents_bind; [now apply worker_events|]. intros results.
  apply AllEvents_bind; [apply Hp|]. intros _. events.
Qed.

Lemma firstSupported_events (env : Env) (candidates : list string) :
  AllEvents notAttempt (firstSupported env candidates).
Proof.
  induction candidates as [|codec rest IH]; simpl; events. exact IH.
Qed.

Lemma progress_notAttempt (a b c : Q) :
  AllEvents notAttempt (updateOverallProgress a b c).
Proof.
  apply (AllEvents_impl preloadEvent); [exact preloadEvent_notAttempt|].
  apply updateOverallProgress_events.
Qed.

Lemma encodeSceneFrames_events (env : Env) (D T Y : Z) (key : string) (remaining : nat) :
  forall rendered sinceYield : Z,
    AllEvents notAttempt (encodeSceneFrames env D T Y key remaining rendered sinceYield).
Proof.
  induction remaining as [|remaining IH]; intros rendered sinceYield; simpl.
  - events.
  - apply AllEvents_bind; [events|]. intros _.
    apply AllEvents_bind; [events; exact I|]. intros _.
    apply AllEvents_bind; [events; exact I|]. intros _.
    apply AllEvents_bind.
    { destruct (encoderFault env) as [k|]; [|events].
      destruct (Z.of_nat k =? rendered)%Z; events. }
    intros _. apply AllEvents_bind.
    { destruct (0 <? T)%Z; [apply progress_notAttempt | events]. }
    intros _. apply AllEvents_bind.
    { destruct (Y <=? sinceYield + 1)%Z; events. }
    intros sinceYield'. apply IH.
Qed.

Lemma encodeScenes_events (env : Env) (D T Y : Z) (images : list PreloadedImage)
      (renderPlan : list SceneRenderPlanItem) :
  forall rendered sinceYield : Z,
    AllEvents notAttempt (encodeScenes env D T Y images renderPlan rendered sinceYield).
Proof.
  induction renderPlan as [|planItem rest IH]; intros rendered sinceYield; simpl.
  - events.
  - apply AllEvents_bind; [events|]. intros _.
    destruct (lookupImage images (id (scene planItem))); [|events].
    apply AllEvents_bind; [apply encodeSceneFrames_events|]. intros st.
    apply AllEvents_bind.
    { destruct (0 <? snd st)%Z; events. }
    intros sinceYield'. apply IH.
Qed.

Lemma recordSceneFrames_events (env : Env) (T : Z) (images : list PreloadedImage)
      (key : string) (remaining : nat) :
  forall rendered : Z,
    AllEvents notAttempt (recordSceneFrames env T images key remaining rendered).
Proof.
  induction remaining as [|remaining IH]; intros rendered; simpl.
  - events.
  - apply AllEvents_bind; [events|]. intros _.
    apply AllEvents_bind; [events|]. intros _.
    destruct (lookupImage images key); [|events].
    apply AllEvents_bind.
    { destruct (recorderFault env) as [k|]; [|events].
      destruct (Z.of_nat k =? rendered)%Z; events. }
    intros _. apply AllEvents_bind; [events; exact I|]. intros _.
    apply AllEvents_bind.
    { destruct (0 <? T)%Z; [apply progress_notAttempt | events]. }
    intros _. apply IH.
Qed.

Lemma recordScenes_events (env : Env) (T : Z) (images : list PreloadedImage)
      (renderPlan : list SceneRenderPlanItem) :
  forall rendered : Z,
    AllEvents notAttempt (recordScenes env T images renderPlan rendered).
Proof.
  induction renderPlan as [|planItem rest IH]; intros rendered; simpl.
  - events.
  - apply AllEvents_bind; [apply recordSceneFrames_events|]. intros r. apply IH.
Qed.

Lemma preload_notAttempt (env : Env) (scenes : list Scene) :
  AllEvents notAttempt
            (preloadAllImages env scenes (fun val => updateOverallProgress val (2 # 10) 0)).
Proof.
  apply (AllEvents_impl preloadEvent); [exact preloadEvent_notAttempt|].
  apply preloadAllImages_events. intros v. apply updateOverallProgress_events.
Qed.

(** The WebCodecs renderer after its entry has been logged. *)
Definition webCodecsBody (env : Env) (scenes : list Scene)
           (options : VideoRenderOptions) (config : RenderConfig)
  : M GeneratedVideoResult :=
  if negb (canvasContext env)
  then throw (Failure "Failed to get canvas context for WebCodecs video generation.")
  else
    let frameDurationUS := round (1000000 / fps config) in
    preloadedImages <-
      preloadAllImages env scenes (fun val => updateOverallProgress val (2 # 10) 0) ;;
    throwIfAborted env ;;
    let renderPlan := buildRenderPlan scenes (fps config) (modeOf options) in
    let totalFramesToRenderOverall := totalFrames renderPlan in
    if negb (webCodecs env)
    then throw (Failure "WebCodecs API is unavailable in this browser.")
    else
      mp4 <- (match mode options with
              | Some Download => firstSupported env MP4_CODEC_CANDIDATES
              | _ => ret None
              end) ;;
      chosenFormat <- (match mp4 with
                       | Some _ => ret MP4
                       | None =>
                           firstSupported env WEB_CODECS_WEBM_CODEC_CANDIDATES ;;
                           ret WebM
                       end) ;;
      let framesBetweenYields := Z.max 60 (round (fps config * 3)) in
      encodeScenes env frameDurationUS totalFramesToRenderOverall framesBetweenYields
                   preloadedImages renderPlan 0%Z 0%Z ;;
      tick ;;
      emit (Progress 1) ;;
      ret (mkResult (match chosenFormat with MP4 => MP4_MIMETYPE | WebM => WEBM_MIMETYPE end)
                    chosenFormat).

Lemma generateVideoWithWebCodecs_body (env : Env) (scenes : list Scene)
      (options : VideoRenderOptions) (config : RenderConfig) :
  generateVideoWithWebCodecs env scenes options config
  = (emit (Attempt WebCodecs config) ;; webCodecsBody env scenes options config).
Proof. reflexivity. Qed.

Lemma webCodecsBody_events (env : Env) (scenes : list Scene)
      (options : VideoRenderOptions) (config : RenderConfig) :
  AllEvents notAttempt (webCodecsBody env scenes options config).
Proof.
  unfold webCodecsBody.
  destruct (negb (canvasContext env)); [events|].
  apply AllEvents_bind; [apply preload_notAttempt|]. intros images.
  apply AllEvents_bind; [events|]. intros _.
  destruct (negb (webCodecs env)); [events|].
  apply AllEvents_bind.
  { destruct (mode options) as [[|]|]; try apply AllEvents_ret.
    apply firstSupported_events. }
  intros mp4. apply AllEvents_bind.
  { destruct mp4; [events|].
    apply AllEvents_bind; [apply firstSupported_events|]. intros _. events. }
  intros chosen. apply AllEvents_bind; [apply encodeScenes_events|]. intros _.
  events. exact I.
Qed.

(** The MediaRecorder renderer after its entry has been logged. *)
Definition mediaRecorderBody (env : Env) (scenes : list Scene)
           (options : VideoRenderOptions) (config : RenderConfig)
  : M GeneratedVideoResult :=
  if negb (canvasContext env)
  then throw (Failure "Failed to get canvas context for video generation.")
  else if negb (mediaRecorder env)
  then throw (Failure "MediaRecorder API or canvas.captureStream is not supported in this browser.")
  else
    preloadedImages <-
      preloadAllImages env scenes (fun val => updateOverallProgress val (2 # 10) 0) ;;
    throwIfAborted env ;;
    let renderPlan := buildRenderPlan scenes (fps config) (modeOf options) in
    let totalFramesToRenderOverall := totalFrames renderPlan in
    let chosen := chooseMimeType env in
    throwIfAborted env ;;
    recordScenes env totalFramesToRenderOverall preloadedImages renderPlan 0%Z ;;
    tick ;;
    throwIfAborted env ;;
    emit (Progress 1) ;;
    ret (match chosen with
         | Some (type, fmt) => mkResult type fmt
         | None => mkResult WEBM_MIMETYPE WebM
         end).

Lemma generateWebMWithMediaRecorder_body (env : Env) (scenes : list Scene)
      (options : VideoRenderOptions) (config : RenderConfig) :
  generateWebMWithMediaRecorder env scenes options config
  = (emit (Attempt MediaRecorder config) ;; mediaRecorderBody env scenes options config).
Proof. reflexivity. Qed.

Lemma mediaRecorderBody_events (env : Env) (scenes : list Scene)
      (options : VideoRenderOptions) (config : RenderConfig) :
  AllEvents notAttempt (mediaRecorderBody env scenes options config).
Proof.
  unfold mediaRecorderBody.
  destruct (negb (canvasContext env)); [events|].
  destruct (negb (mediaRecorder env)); [events|].
  apply AllEvents_bind; [apply preload_notAttempt|]. intros images.
  apply AllEvents_bind; [events|]. intros _.
  apply AllEvents_bind; [events|]. intros _.
  apply AllEvents_bind; [apply recordScenes_events|]. intros _.
  events. exact I.
Qed.

Lemma attempts_app (l1 l2 : list Event) :
  attempts (l1 ++ l2) = attempts l1 ++ attempts l2.
Proof. unfold attempts. apply flat_map_app. Qed.

Lemma attempts_notAttempt (l : list Event) : Forall notAttempt l -> attempts l = [].
Proof.
  induction 1 as [|e l He _ IH]; simpl; auto.
  destruct e; simpl in *; auto. contradiction.
Qed.

(** Each renderer logs its entry once and no other. *)
Lemma generateVideoWithWebCodecs_attempts (env : Env) (scenes : list Scene)
      (options : VideoRenderOptions) (config : RenderConfig) :
  Runs (generateVideoWithWebCodecs env scenes options config)
       (fun l _ => attempts l = [(WebCodecs, config)]).
Proof.
  rewrite generateVideoWithWebCodecs_body.
  apply (Runs_bind _ _ _ (fun _ l _ => Forall notAttempt l) _
                   (Runs_emit (Attempt WebCodecs config))).
  - intros _. apply webCodecsBody_events.
  - intros l e [_ H]. discriminate.
  - intros l1 l2 x r [-> _] H2. rewrite attempts_app, (attempts_notAttempt l2 H2).
    reflexivity.
Qed.

Lemma generateWebMWithMediaRecorder_attempts (env : Env) (scenes : list Scene)
      (options : VideoRenderOptions) (config : RenderConfig) :
  Runs (generateWebMWithMediaRecorder env scenes options config)
       (fun l _ => attempts l = [(MediaRecorder, config)]).
Proof.
  rewrite generateWebMWithMediaRecorder_body.
  apply (Runs_bind _ _ _ (fun _ l _ => Forall notAttempt l) _
                   (Runs_emit (Attempt MediaRecorder config))).
  - intros _. apply mediaRecorderBody_events.
  - intros l e [_ H]. discriminate.
  - intros l1 l2 x r [-> _] H2. rewrite attempts_app, (attempts_notAttempt l2 H2).
    reflexivity.
Qed.

End BackendEvents.

(** * The render entry point *)

Section Orchestration.

(** C5: without WebCodecs the low-level renderer is never entered and the
    outcome is the MediaRecorder renderer's; with WebCodecs the low-level
    renderer is entered first and, when it fails in any way, the whole
    render is run once more by the MediaRecorder renderer with the same
    configuration, from the world the failed run left; an error of the
    call is always an error of the MediaRecorder renderer. *)
Theorem backend_selection (env : Env) (scenes : list Scene)
        (options : VideoRenderOptions) (w : World) :
  let config := resolveOptimizedRenderConfig (modeOf options) scenes in
  let lowLevel := generateVideoWithWebCodecs env scenes options config w in
  let out := generateWebMFromScenes env scenes options w in
  exists l,
    trace (fst out) = trace w ++ l /\
    (hasWebCodecsSupport env = false ->
     attempts l = [(MediaRecorder, config)] /\
     out = generateWebMWithMediaRecorder env scenes options config w) /\
    (hasWebCodecsSupport env = true ->
     match snd lowLevel with
     | inl _ => attempts l = [(WebCodecs, config)] /\ out = lowLevel
     | inr _ =>
         attempts l = [(WebCodecs, config); (MediaRecorder, config)] /\
         out = generateWebMWithMediaRecorder env scenes options config (fst lowLevel)
     end) /\
    (forall error,
        snd out = inr error ->
        exists w',
          snd (generateWebMWithMediaRecorder env scenes options config w') = inr error).
Proof.
  intros config lowLevel out. unfold out, generateWebMFromScenes. fold config.
  destruct (hasWebCodecsSupport env).
  - unfold catch. fold lowLevel.
    destruct (generateVideoWithWebCodecs_attempts env scenes options config w)
      as (l1 & Hl1 & Ha1).
    fold lowLevel in Hl1, Ha1.
    destruct lowLevel as [w1 [v|e]] eqn:Elow; simpl in *.
    + exists l1. split; [exact Hl1|]. split; [discriminate|]. split.
      * intros _. auto.
      * intros error H. discriminate.
    + destruct (generateWebMWithMediaRecorder_attempts env scenes options config w1)
        as (l2 & Hl2 & Ha2).
      exists (l1 ++ l2). split; [rewrite Hl2, Hl1; symmetry; apply app_assoc|].
      split; [discriminate|]. split.
      * intros _. rewrite attempts_app, Ha1, Ha2. auto.
      * intros error H. eauto.
  - destruct (generateWebMWithMediaRecorder_attempts env scenes options config w)
      as (l & Hl & Ha).
    exists l. split; [exact Hl|]. split; [auto|]. split; [discriminate|].
    intros error H. eauto.
Qed.

End Orchestration.

(** * Frames and progress of the two renderers *)

Section FrameLoops.

(** [r; r+1; ...; r+n-1] *)
Definition countFrom (r : Z) (n : nat) : list Z :=
  map (fun j => (r + Z.of_nat j)%Z) (seq 0 n).

Lemma countFrom_S (r : Z) (n : nat) :
  countFrom r (S n) = r :: countFrom (r + 1) n.
Proof.
  unfold countFrom. simpl. rewrite Z.add_0_r. f_equal.
  rewrite <- seq_shift, map_map. apply map_ext. intros j. lia.
Qed.

(** Progress reported after the frame that brings the count to [k]. *)
Definition frameProgress (T k : Z) : Q :=
  Qmin (99 # 100) ((20 # 100) + (inject_Z k / inject_Z T) * (79 # 100)).

(** The progress values of the frames [r+1 .. r+n]; none is reported when
    the plan has no frame at all. *)
Definition progressFrom (T r : Z) (n : nat) : list Q :=
  if (0 <? T)%Z then map (fun k => frameProgress T (k + 1)) (countFrom r n) else [].

Lemma progressFrom_S (T r : Z) (n : nat) :
  progressFrom T r (S n) =
  (if (0 <? T)%Z then [frameProgress T (r + 1)] else []) ++ progressFrom T (r + 1) n.
Proof.
  unfold progressFrom. rewrite countFrom_S. destruct (0 <? T)%Z; reflexivity.
Qed.

Lemma progressValues_app (l1 l2 : list Event) :
  progressValues (l1 ++ l2) = progressValues l1 ++ progressValues l2.
Proof. unfold progressValues. apply flat_map_app. Qed.

Lemma frameTimestamps_app (l1 l2 : list Event) :
  frameTimestamps (l1 ++ l2) = frameTimestamps l1 ++ frameTimestamps l2.
Proof. unfold frameTimestamps. apply flat_map_app. Qed.

(** The frames and progress values one scene adds to the trace. *)
Definition framesAdded (D T r : Z) (w w' : World) (n n' : nat) : Prop :=
  frameTimestamps (trace w') =
    frameTimestamps (trace w) ++ map (fun k => (k * D)%Z) (countFrom r n) /\
  progressValues (trace w') = progressValues (trace w) ++ progressFrom T r n' /\
  (n' = n \/ S n' = n).

Lemma bind_inv {A B : Type} (m : M A) (k : A -> M B) (w w' : World)
      (res : B + RenderError) :
  bind m k w = (w', res) ->
  (exists w1 x, m w = (w1, inl x) /\ k x w1 = (w', res)) \/
  (exists e, m w = (w', inr e) /\ res = inr e).
Proof.
  unfold bind. destruct (m w) as [w1 [x|e]]; intros E.
  - left. eauto.
  - right. injection E as <- <-. eauto.
Qed.

Lemma throwIfAborted_inv (env : Env) (w w' : World) (res : unit + RenderError) :
  throwIfAborted env w = (w', res) ->
  w' = w /\ (res = inl tt \/ res = inr AbortError).
Proof.
  unfold throwIfAborted. destruct (aborted env w); intros [= <- <-]; auto.
Qed.

Lemma emit_inv (e : Event) (w w' : World) (res : unit + RenderError) :
  emit e w = (w', res) ->
  trace w' = trace w ++ [e] /\ clock w' = clock w /\ res = inl tt.
Proof. unfold emit. intros [= <- <-]. auto. Qed.

Lemma tick_inv (w w' : World) (res : unit + RenderError) :
  tick w = (w', res) -> trace w' = trace w /\ res = inl tt.
Proof. unfold tick. intros [= <- <-]. auto. Qed.

Lemma ret_inv {A : Type} (x : A) (w w' : World) (res : A + RenderError) :
  ret x w = (w', res) -> w' = w /\ res = inl x.
Proof. unfold ret. intros [= <- <-]. auto. Qed.

(** The periodic yield of the encode loop leaves the trace alone. *)
Lemma yield_inv (env : Env) (c : bool) (a b : Z) (w w' : World) (res : Z + RenderError) :
  (if c then tick;; throwIfAborted env;; ret a else ret b) w = (w', res) ->
  trace w' = trace w.
Proof.
  destruct c; intros E.
  - apply bind_inv in E. destruct E as [(w1 & x & E1 & E) | (e & E1 & _)].
    + apply tick_inv in E1. destruct E1 as [T1 _].
      apply bind_inv in E. destruct E as [(w2 & y & E2 & E) | (e & E2 & _)].
      * apply throwIfAborted_inv in E2. destruct E2 as [-> _].
        apply ret_inv in E. destruct E as [-> _]. exact T1.
      * apply throwIfAborted_inv in E2. destruct E2 as [-> _]. exact T1.
    + apply tick_inv in E1. destruct E1 as [_ H]. discriminate.
  - apply ret_inv in E. now destruct E as [-> _].
Qed.

Lemma fault_inv (fault : option nat) (r : Z) (message : string) (w w' : World)
      (res : unit + RenderError) :
  (match fault with
   | Some k => if (Z.of_nat k =? r)%Z then throw (Failure message) else ret tt
   | None => ret tt
   end) w = (w', res) ->
  w' = w.
Proof.
  destruct fault as [k|]; [destruct (Z.of_nat k =? r)%Z|]; intros [= <- _]; reflexivity.
Qed.

Lemma frameProgress_inv (T r : Z) (w w' : World) (res : unit + RenderError) :
  (if (0 <? T)%Z
   then updateOverallProgress (inject_Z (r + 1) / inject_Z T) (79 # 100) (20 # 100)
   else ret tt) w = (w', res) ->
  trace w' = trace w ++ (if (0 <? T)%Z
                         then [Progress (frameProgress T (r + 1))] else []) /\
  res = inl tt.
Proof.
  destruct (0 <? T)%Z; intros E.
  - apply emit_inv in E. destruct E as (E & _ & ->). auto.
  - apply ret_inv in E. destruct E as [-> ->]. now rewrite app_nil_r.
Qed.

Lemma framesAdded_refl (D T r : Z) (w w' : World) :
  trace w' = trace w -> framesAdded D T r w w' 0 0.
Proof.
  intros E. unfold framesAdded, progressFrom, countFrom. rewrite E. simpl.
  destruct (0 <? T)%Z; simpl; rewrite !app_nil_r; auto.
Qed.

Lemma framesAdded_frame (D T r : Z) (w w' : World) (quiet : list Event) :
  frameTimestamps quiet = [] -> progressValues quiet = [] ->
  trace w' = trace w ++ quiet ++ [Frame (r * D) D] ->
  framesAdded D T r w w' 1 0.
Proof.
  intros Hf Hp E. unfold framesAdded. rewrite E.
  rewrite !frameTimestamps_app, !progressValues_app, Hf, Hp. simpl.
  rewrite Z.add_0_r. unfold progressFrom.
  destruct (0 <? T)%Z; simpl; rewrite ?app_nil_r; auto.
Qed.

Lemma framesAdded_progress (D T r : Z) (w w1 w2 : World) :
  framesAdded D T r w w1 1 0 ->
  trace w2 = trace w1 ++ (if (0 <? T)%Z
                          then [Progress (frameProgress T (r + 1))] else []) ->
  framesAdded D T r w w2 1 1.
Proof.
  intros (F & P & _) E. unfold framesAdded. rewrite E.
  rewrite frameTimestamps_app, progressValues_app, F, P, progressFrom_S.
  unfold progressFrom at 1 2. unfold countFrom at 1. simpl.
  destruct (0 <? T)%Z; simpl; rewrite ?app_nil_r; auto.
Qed.

Lemma framesAdded_same_trace (D T r : Z) (w w1 w2 : World) (n n' : nat) :
  framesAdded D T r w w1 n n' -> trace w2 = trace w1 -> framesAdded D T r w w2 n n'.
Proof. unfold framesAdded. intros H E. now rewrite E. Qed.

Lemma framesAdded_more (D T r : Z) (w w1 w2 : World) (n n' : nat) :
  framesAdded D T r w w1 1 1 ->
  framesAdded D T (r + 1) w1 w2 n n' ->
  framesAdded D T r w w2 (S n) (S n').
Proof.
  intros (F1 & P1 & _) (F2 & P2 & C). unfold framesAdded.
  rewrite F2, P2, F1, P1, <- !app_assoc.
  rewrite (countFrom_S r n), (progressFrom_S T r n').
  assert (H1 : countFrom r 1 = [r]).
  { unfold countFrom. simpl. now rewrite Z.add_0_r. }
  assert (H2 : progressFrom T r 1 =
               if (0 <? T)%Z then [frameProgress T (r + 1)] else []).
  { unfold progressFrom. rewrite H1. destruct (0 <? T)%Z; reflexivity. }
  rewrite H1, H2. simpl.
  split; [reflexivity | split; [reflexivity | lia]].
Qed.

Lemma encodeSceneFrames_trace (env : Env) (D T Y : Z) (key : string) (remaining : nat) :
  forall (r sy : Z) (w w' : World) (res : Z * Z + RenderError),
    encodeSceneFrames env D T Y key remaining r sy w = (w', res) ->
    exists n n',
      framesAdded D T r w w' n n' /\
      forall st, res = inl st -> fst st = (r + Z.of_nat n)%Z /\ n' = n.
Proof.
  induction remaining as [|remaining IH]; intros r sy w w' res E.
  - apply ret_inv in E. destruct E as [-> ->].
    exists O, O. split; [now apply framesAdded_refl|].
    intros st [= <-]. simpl. split; [lia | reflexivity].
  - simpl in E.
    apply bind_inv in E. destruct E as [(w1 & x & E1 & E) | (e & E1 & ->)];
      apply throwIfAborted_inv in E1; destruct E1 as [-> _].
    2:{ exists O, O. split; [now apply framesAdded_refl | discriminate]. }
    apply bind_inv in E. destruct E as [(w2 & x2 & E2 & E) | (e & E2 & ->)];
      apply emit_inv in E2; destruct E2 as (T2 & _ & H2); [|discriminate].
    apply bind_inv in E. destruct E as [(w3 & x3 & E3 & E) | (e & E3 & ->)];
      apply emit_inv in E3; destruct E3 as (T3 & _ & H3); [|discriminate].
    assert (Hw3 : framesAdded D T r w w3 1 0).
    { apply (framesAdded_frame D T r w w3 [Drawn key]); auto.
      rewrite T3, T2, <- app_assoc. reflexivity. }
    apply bind_inv in E. destruct E as [(w4 & x4 & E4 & E) | (e & E4 & ->)];
      apply fault_inv in E4; subst.
    2:{ exists 1%nat, O. split; [exact Hw3 | discriminate]. }
    apply bind_inv in E. destruct E as [(w5 & x5 & E5 & E) | (e & E5 & ->)];
      apply frameProgress_inv in E5; destruct E5 as [T5 H5]; [|discriminate].
    pose proof (framesAdded_progress D T r w w3 w5 Hw3 T5) as Hw5.
    apply bind_inv in E. destruct E as [(w6 & sy' & E6 & E) | (e & E6 & ->)];
      apply yield_inv in E6.
    2:{ exists 1%nat, 1%nat.
        split; [now apply (framesAdded_same_trace D T r w w5) | discriminate]. }
    destruct (IH _ _ _ _ _ E) as (n & n' & Hn & Hres).
    exists (S n), (S n'). split.
    + apply (framesAdded_more D T r w w6 w'); auto.
      now apply (framesAdded_same_trace D T r w w5).
    + intros st Hst. destruct (Hres st Hst) as [-> ->]. split; [lia | reflexivity].
Qed.

Lemma countFrom_app (r : Z) (n1 n2 : nat) :
  countFrom r (n1 + n2) = countFrom r n1 ++ countFrom (r + Z.of_nat n1) n2.
Proof.
  revert r. induction n1 as [|n1 IH]; intros r.
  - simpl. unfold countFrom at 2. simpl. now rewrite Z.add_0_r.
  - change (S n1 + n2)%nat with (S (n1 + n2)).
    rewrite !countFrom_S, IH. simpl. do 3 f_equal. lia.
Qed.

Lemma progressFrom_app (T r : Z) (n1 n2 : nat) :
  progressFrom T r (n1 + n2) = progressFrom T r n1 ++ progressFrom T (r + Z.of_nat n1) n2.
Proof.
  unfold progressFrom. rewrite countFrom_app, map_app.
  destruct (0 <? T)%Z; reflexivity.
Qed.

Lemma framesAdded_trans (D T r : Z) (w w1 w2 : World) (n1 n2 n2' : nat) :
  framesAdded D T r w w1 n1 n1 ->
  framesAdded D T (r + Z.of_nat n1) w1 w2 n2 n2' ->
  framesAdded D T r w w2 (n1 + n2) (n1 + n2').
Proof.
  intros (F1 & P1 & _) (F2 & P2 & C). unfold framesAdded.
  rewrite F2, P2, F1, P1, <- !app_assoc, countFrom_app, progressFrom_app, map_app.
  split; [reflexivity | split; [reflexivity | lia]].
Qed.

Lemma encodeScenes_trace (env : Env) (D T Y : Z) (images : list PreloadedImage)
      (renderPlan : list SceneRenderPlanItem) :
  forall (r sy : Z) (w w' : World) (res : Z * Z + RenderError),
    encodeScenes env D T Y images renderPlan r sy w = (w', res) ->
    exists n n', framesAdded D T r w w' n n'.
Proof.
  induction renderPlan as [|planItem rest IH]; intros r sy w w' res E.
  - apply ret_inv in E. destruct E as [-> _].
    exists O, O. now apply framesAdded_refl.
  - simpl in E.
    apply bind_inv in E. destruct E as [(w1 & x & E1 & E) | (e & E1 & ->)];
      apply throwIfAborted_inv in E1; destruct E1 as [-> _].
    2:{ exists O, O. now apply framesAdded_refl. }
    destruct (lookupImage images (id (scene planItem))).
    2:{ injection E as <- _. exists O, O. now apply framesAdded_refl. }
    apply bind_inv in E. destruct E as [(w2 & st & E2 & E) | (e & E2 & ->)];
      destruct (encodeSceneFrames_trace _ _ _ _ _ _ _ _ _ _ _ E2) as (n & n' & Hn & Hres).
    2:{ eauto. }
    destruct (Hres st eq_refl) as [Hst ->].
    apply bind_inv in E. destruct E as [(w3 & sy' & E3 & E) | (e & E3 & ->)];
      apply yield_inv in E3.
    2:{ exists n, n. now apply (framesAdded_same_trace D T r w w2). }
    rewrite Hst in E.
    destruct (IH _ _ _ _ _ E) as (m & m' & Hm).
    exists (n + m)%nat, (n + m')%nat.
    apply (framesAdded_trans D T r w w3 w'); auto.
    now apply (framesAdded_same_trace D T r w w2).
Qed.








End FrameLoops.

(** * Progress values *)

Section ProgressOrder.

(** [between a b vs]: [a <= v1 <= v2 <= ... <= vn <= b]. *)
Fixpoint between (a b : Q) (vs : list Q) : Prop :=
  match vs with
  | [] => a <= b
  | v :: rest => a <= v /\ between v b rest
  end.

Lemma between_le (a b : Q) (vs : list Q) : between a b vs -> a <= b.
Proof.
  revert a. induction vs as [|v vs IH]; intros a; simpl; auto.
  intros [H1 H2]. specialize (IH _ H2). lra.
Qed.

Lemma between_weaken_l (a a' b : Q) (vs : list Q) :
  a' <= a -> between a b vs -> between a' b vs.
Proof.
  destruct vs as [|v vs]; simpl; intros H; [lra|].
  intros [H1 H2]. split; [lra | exact H2].
Qed.

Lemma between_weaken_r (a b b' : Q) (vs : list Q) :
  b <= b' -> between a b vs -> between a b' vs.
Proof.
  intros Hb. revert a. induction vs as [|v vs IH]; intros a; simpl; [lra|].
  intros [H1 H2]. auto.
Qed.

Lemma between_app (a b c : Q) (l1 l2 : list Q) :
  between a b l1 -> between b c l2 -> between a c (l1 ++ l2).
Proof.
  revert a. induction l1 as [|v l1 IH]; intros a; simpl.
  - intros H1 H2. now apply (between_weaken_l b).
  - intros [H1 H2] H3. auto.
Qed.

(** Every value lies in the interval and the list is non-decreasing. *)
Lemma between_bounds (a b : Q) (vs : list Q) :
  between a b vs -> Forall (fun v => a <= v /\ v <= b) vs.
Proof.
  revert a. induction vs as [|v vs IH]; intros a; simpl; [constructor|].
  intros [H1 H2]. pose proof (between_le _ _ _ H2). constructor; [lra|].
  specialize (IH _ H2). revert IH. apply Forall_impl. intros x. lra.
Qed.

Lemma between_sorted (a b : Q) (vs : list Q) (i : nat) (x y : Q) :
  between a b vs ->
  nth_error vs i = Some x -> nth_error vs (S i) = Some y -> x <= y.
Proof.
  revert a i. induction vs as [|v vs IH]; intros a i; simpl.
  - destruct i; discriminate.
  - intros [H1 H2]. destruct i as [|i]; simpl.
    + intros [= <-] Hy. destruct vs as [|v' vs]; [discriminate|].
      simpl in Hy. injection Hy as <-. simpl in H2. tauto.
    + intros Hx Hy. eapply IH; eauto.
Qed.

Lemma div_le (x y t : Q) : 0 < t -> x <= y -> x / t <= y / t.
Proof.
  intros Ht Hxy. unfold Qdiv. apply Qmult_le_compat_r; [exact Hxy|].
  apply Qinv_le_0_compat. lra.
Qed.

Lemma div_nonneg (x t : Q) : 0 <= x -> 0 <= t -> 0 <= x / t.
Proof.
  intros Hx Ht. unfold Qdiv. apply Qmult_le_0_compat; [exact Hx|].
  now apply Qinv_le_0_compat.
Qed.

Lemma ratio_le_1 (c t : nat) : (c <= t)%nat -> Qn c / Qn t <= 1.
Proof.
  intros Hc. destruct t as [|t].
  - assert (c = O) by lia. subst. discriminate.
  - apply Qle_shift_div_r.
    + pose proof (Qn_pos (S t) ltac:(lia)). lra.
    + pose proof (Qn_le c (S t) Hc). lra.
Qed.

(** The value reported for the preload stage. *)
Definition preloadProgress (val : Q) : Q := Qmin (99 # 100) (0 + val * (2 # 10)).

Lemma preloadProgress_mono (x y : Q) :
  x <= y -> preloadProgress x <= preloadProgress y.
Proof.
  intros H. unfold preloadProgress.
  destruct (Qmin_cases (99 # 100) (0 + x * (2 # 10))) as [[? ->]|[? ->]];
    destruct (Qmin_cases (99 # 100) (0 + y * (2 # 10))) as [[? ->]|[? ->]]; lra.
Qed.

Lemma preloadProgress_le (x : Q) : x <= 1 -> preloadProgress x <= 2 # 10.
Proof.
  intros H. unfold preloadProgress.
  destruct (Qmin_cases (99 # 100) (0 + x * (2 # 10))) as [[? ->]|[? ->]]; lra.
Qed.

Lemma preloadProgress_0 : preloadProgress 0 == 0.
Proof. reflexivity. Qed.

Lemma preloadProgress_1 : preloadProgress 1 == 2 # 10.
Proof. reflexivity. Qed.

Lemma frameProgress_mono (T k : Z) :
  (0 < T)%Z -> frameProgress T k <= frameProgress T (k + 1).
Proof.
  intros HT. unfold frameProgress.
  assert (Hq : 0 < inject_Z T).
  { change 0 with (inject_Z 0). rewrite <- Zlt_Qlt. exact HT. }
  assert (Hk : inject_Z k <= inject_Z (k + 1)).
  { rewrite <- Zle_Qle. lia. }
  pose proof (div_le _ _ _ Hq Hk) as Hd.
  destruct (Qmin_cases (99 # 100)
              ((20 # 100) + inject_Z k / inject_Z T * (79 # 100))) as [[? ->]|[? ->]];
    destruct (Qmin_cases (99 # 100)
                ((20 # 100) + inject_Z (k + 1) / inject_Z T * (79 # 100)))
      as [[? ->]|[? ->]]; lra.
Qed.

Lemma frameProgress_le (T k : Z) : frameProgress T k <= 99 # 100.
Proof.
  unfold frameProgress. apply Q.le_min_l.
Qed.

Lemma frameProgress_ge (T k : Z) :
  (0 < T)%Z -> (0 <= k)%Z -> 2 # 10 <= frameProgress T k.
Proof.
  intros HT Hk. unfold frameProgress.
  assert (Hq : 0 <= inject_Z T).
  { change 0 with (inject_Z 0). rewrite <- Zle_Qle. lia. }
  assert (Hq' : 0 <= inject_Z k).
  { change 0 with (inject_Z 0). rewrite <- Zle_Qle. lia. }
  pose proof (div_nonneg _ _ Hq' Hq).
  destruct (Qmin_cases (99 # 100)
              ((20 # 100) + inject_Z k / inject_Z T * (79 # 100))) as [[? ->]|[? ->]];
    lra.
Qed.

Lemma progressFrom_between_pos (T : Z) (n : nat) :
  (0 < T)%Z ->
  forall r, between (frameProgress T r) (99 # 100) (progressFrom T r n).
Proof.
  intros HT. induction n as [|n IH]; intros r.
  - unfold progressFrom, countFrom. simpl.
    destruct (0 <? T)%Z; simpl; apply frameProgress_le.
  - rewrite progressFrom_S.
    assert (Hb : (0 <? T)%Z = true) by now apply Z.ltb_lt.
    rewrite Hb. simpl. split; [now apply frameProgress_mono | apply IH].
Qed.

Lemma progressFrom_between (T r : Z) (n : nat) :
  (0 <= r)%Z -> between (2 # 10) (99 # 100) (progressFrom T r n).
Proof.
  intros Hr. destruct (0 <? T)%Z eqn:HT.
  - apply Z.ltb_lt in HT.
    apply (between_weaken_l (frameProgress T r)).
    + now apply frameProgress_ge.
    + now apply progressFrom_between_pos.
  - unfold progressFrom. rewrite HT. simpl. lra.
Qed.

End ProgressOrder.

Section RendererTraces.

Lemma AllEvents_run {A : Type} (P : Event -> Prop) (m : M A) (w w' : World)
      (res : A + RenderError) :
  AllEvents P m -> m w = (w', res) ->
  exists l, trace w' = trace w ++ l /\ Forall P l.
Proof.
  intros H E. destruct (H w) as (l & Hl & HP). rewrite E in Hl. simpl in Hl. eauto.
Qed.

Definition notProgressOrFrame (e : Event) : Prop :=
  match e with
  | Progress _ | Frame _ _ => False
  | _ => True
  end.

Lemma quiet_projections (l : list Event) :
  Forall notProgressOrFrame l -> progressValues l = [] /\ frameTimestamps l = [].
Proof.
  induction 1 as [|e l He _ [IH1 IH2]]; simpl; auto.
  destruct e; simpl in *; auto; contradiction.
Qed.

Lemma loadEvent_quiet (e : Event) : loadEvent e -> notProgressOrFrame e.
Proof. destruct e; simpl; auto. Qed.

(** A computation that emits load events only leaves the progress values
    and the frames of the trace as they are. *)
Lemma quiet_run {A : Type} (m : M A) (w w' : World) (res : A + RenderError) :
  AllEvents loadEvent m -> m w = (w', res) ->
  progressValues (trace w') = progressValues (trace w) /\
  frameTimestamps (trace w') = frameTimestamps (trace w).
Proof.
  intros H E. destruct (AllEvents_run _ _ _ _ _ H E) as (l & -> & Hl).
  assert (Hq : Forall notProgressOrFrame l)
    by (revert Hl; apply Forall_impl; exact loadEvent_quiet).
  destruct (quiet_projections l Hq) as [P F].
  rewrite progressValues_app, frameTimestamps_app, P, F, !app_nil_r. auto.
Qed.

Lemma firstSupported_quiet (env : Env) (candidates : list string) :
  AllEvents loadEvent (firstSupported env candidates).
Proof.
  induction candidates as [|codec rest IH]; simpl; events. exact IH.
Qed.

Definition onPreloadProgress (val : Q) : M unit := updateOverallProgress val (2 # 10) 0.

Lemma onPreloadProgress_inv (val : Q) (w w' : World) (res : unit + RenderError) :
  onPreloadProgress val w = (w', res) ->
  trace w' = trace w ++ [Progress (preloadProgress val)] /\ res = inl tt.
Proof.
  unfold onPreloadProgress, updateOverallProgress. intros E.
  apply emit_inv in E. destruct E as (E & _ & ->). auto.
Qed.

Lemma worker_between (env : Env) (t : nat) (remaining : list Scene) :
  forall (i c : nat) (results : list PreloadedImage) (w w' : World)
         (res : list PreloadedImage + RenderError),
    worker env onPreloadProgress t remaining i c results w = (w', res) ->
    (c + length remaining = t)%nat ->
    exists vs,
      progressValues (trace w') = progressValues (trace w) ++ vs /\
      between (preloadProgress (Qn c / Qn t)) (2 # 10) vs.
Proof.
  induction remaining as [|scene rest IH]; intros i c results w w' res E Hc.
  - simpl in E. simpl in Hc.
    assert (Ht : trace w' = trace w).
    { apply bind_inv in E. destruct E as [(w1 & x & E1 & E) | (e & E1 & ->)];
        apply throwIfAborted_inv in E1; destruct E1 as [-> _]; [|reflexivity].
      apply ret_inv in E. now destruct E as [-> _]. }
    exists []. rewrite Ht, app_nil_r. split; [reflexivity|]. simpl.
    apply preloadProgress_le, ratio_le_1. lia.
  - cbn [worker] in E. simpl in Hc.
    assert (Hle : preloadProgress (Qn c / Qn t) <= 2 # 10)
      by (apply preloadProgress_le, ratio_le_1; lia).
    apply bind_inv in E. destruct E as [(w1 & x & E1 & E) | (e & E1 & ->)];
      apply throwIfAborted_inv in E1; destruct E1 as [-> _].
    2:{ exists []. rewrite app_nil_r. split; [reflexivity | exact Hle]. }
    apply bind_inv in E. destruct E as [(w2 & img & E2 & E) | (e & E2 & ->)].
    2:{ apply quiet_run in E2.
        - destruct E2 as [-> _]. exists []. rewrite app_nil_r. split; [reflexivity | exact Hle].
        - apply AllEvents_catch.
          + destruct (footageType scene);
              [apply loadImageWithRetries_events | apply loadVideoFrameWithRetries_events].
          + intros e'. destruct (isAbortError e'); [events|].
            apply createStylizedFallbackImage_events. }
    apply quiet_run in E2.
    2:{ apply AllEvents_catch.
        + destruct (footageType scene);
            [apply loadImageWithRetries_events | apply loadVideoFrameWithRetries_events].
        + intros e'. destruct (isAbortError e'); [events|].
          apply createStylizedFallbackImage_events. }
    destruct E2 as [P2 _].
    apply bind_inv in E. destruct E as [(w3 & prepared & E3 & E) | (e & E3 & ->)];
      apply quiet_run in E3; try apply createPreloadedImageFromElement_events;
      destruct E3 as [P3 _].
    2:{ exists []. rewrite P3, P2, app_nil_r. split; [reflexivity | exact Hle]. }
    apply bind_inv in E. destruct E as [(w4 & x4 & E4 & E) | (e & E4 & ->)];
      apply onPreloadProgress_inv in E4; destruct E4 as [T4 H4]; [|discriminate].
    destruct (IH _ _ _ _ _ _ E ltac:(lia)) as (vs & Pv & Hb).
    exists (preloadProgress (Qn (S c) / Qn t) :: vs).
    split.
    + rewrite Pv, T4, progressValues_app, P3, P2, <- app_assoc. reflexivity.
    + simpl. split; [|exact Hb].
      apply preloadProgress_mono. apply div_le.
      * pose proof (Qn_pos t ltac:(lia)). lra.
      * apply Qn_le. lia.
Qed.

(** The preloader reports non-decreasing values between 0 and 0.2 and hands
    no frame to any encoder. *)
Lemma preloadAllImages_between (env : Env) (scenes : list Scene) (w w' : World)
      (res : list PreloadedImage + RenderError) :
  preloadAllImages env scenes onPreloadProgress w = (w', res) ->
  (exists vs,
      progressValues (trace w') = progressValues (trace w) ++ vs /\
      between 0 (2 # 10) vs) /\
  frameTimestamps (trace w') = frameTimestamps (trace w).
Proof.
  intros E. split.
  - unfold preloadAllImages in E.
    apply bind_inv in E. destruct E as [(w1 & x1 & E1 & E) | (e & E1 & ->)];
      apply onPreloadProgress_inv in E1; destruct E1 as [T1 H1]; [|discriminate].
    assert (H0 : between 0 (preloadProgress (Qn 0 / Qn (length scenes)))
                         [preloadProgress 0]).
    { simpl. split; [rewrite preloadProgress_0; lra|].
      apply preloadProgress_mono. apply div_nonneg; apply Qn_nonneg. }
    apply bind_inv in E. destruct E as [(w2 & results & E2 & E) | (e & E2 & ->)];
      destruct (worker_between _ _ _ _ _ _ _ _ _ E2 eq_refl) as (vs & Pv & Hb).
    2:{ exists ([preloadProgress 0] ++ vs). split.
        - rewrite Pv, T1, progressValues_app, <- app_assoc. reflexivity.
        - eapply between_app; eauto. }
    apply bind_inv in E. destruct E as [(w3 & x3 & E3 & E) | (e & E3 & ->)];
      apply onPreloadProgress_inv in E3; destruct E3 as [T3 H3]; [|discriminate].
    apply ret_inv in E. destruct E as [-> _].
    exists (([preloadProgress 0] ++ vs) ++ [preloadProgress 1]). split.
    + rewrite T3, progressValues_app, Pv, T1, progressValues_app, <- !app_assoc.
      reflexivity.
    + apply (between_app 0 (2 # 10)).
      * eapply between_app; eauto.
      * simpl. rewrite preloadProgress_1. split; lra.
  - assert (Hev : AllEvents preloadEvent (preloadAllImages env scenes onPreloadProgress)).
    { apply preloadAllImages_events. intros v. apply updateOverallProgress_events. }
    destruct (AllEvents_run _ _ _ _ _ Hev E) as (l & -> & Hl).
    rewrite frameTimestamps_app.
    assert (Hf : frameTimestamps l = []).
    { clear -Hl. induction Hl as [|e l He _ IH]; simpl; auto.
      destruct e; simpl in *; auto; contradiction. }
    now rewrite Hf, app_nil_r.
Qed.

(** What a renderer has added to the trace so far: progress values that
    are non-decreasing between 0 and [b], and [n] frames whose timestamps
    are the multiples of [D]. *)
Definition rendered (D : Z) (b : Q) (w w' : World) : Prop :=
  (exists vs,
      progressValues (trace w') = progressValues (trace w) ++ vs /\
      between 0 b vs) /\
  exists n,
    frameTimestamps (trace w') =
    frameTimestamps (trace w) ++ map (fun k => (k * D)%Z) (countFrom 0 n).

Lemma rendered_nothing (D : Z) (b : Q) (w w' : World) :
  0 <= b -> trace w' = trace w -> rendered D b w w'.
Proof.
  intros Hb E. unfold rendered. rewrite E. split.
  - exists []. rewrite app_nil_r. simpl. auto.
  - exists O. unfold countFrom. simpl. now rewrite app_nil_r.
Qed.

Lemma rendered_weaken (D : Z) (b b' : Q) (w w' : World) :
  b <= b' -> rendered D b w w' -> rendered D b' w w'.
Proof.
  intros Hb ((vs & Pv & Hvs) & Hf). split; [|exact Hf].
  exists vs. split; [exact Pv|]. now apply (between_weaken_r 0 b).
Qed.

Lemma rendered_same_trace (D : Z) (b : Q) (w w1 w2 : World) :
  rendered D b w w1 -> trace w2 = trace w1 -> rendered D b w w2.
Proof. unfold rendered. intros H E. now rewrite E. Qed.

(** The same before any frame is produced. *)
Definition staged (b : Q) (w w' : World) : Prop :=
  (exists vs,
      progressValues (trace w') = progressValues (trace w) ++ vs /\
      between 0 b vs) /\
  frameTimestamps (trace w') = frameTimestamps (trace w).

Lemma staged_rendered (D : Z) (b : Q) (w w' : World) :
  staged b w w' -> rendered D b w w'.
Proof.
  intros [Hp Hf]. split; [exact Hp|].
  exists O. unfold countFrom. simpl. now rewrite app_nil_r.
Qed.




Lemma staged_preload (env : Env) (scenes : list Scene) (w w' : World)
      (res : list PreloadedImage + RenderError) :
  preloadAllImages env scenes onPreloadProgress w = (w', res) ->
  staged (2 # 10) w w'.
Proof. apply preloadAllImages_between. Qed.

Lemma staged_quiet {A : Type} (b : Q) (m : M A) (w w1 w2 : World)
      (res : A + RenderError) :
  AllEvents loadEvent m -> staged b w w1 -> m w1 = (w2, res) ->
  staged b w w2.
Proof.
  intros Hm H E. destruct (quiet_run _ _ _ _ Hm E) as [P F].
  unfold staged. now rewrite P, F.
Qed.

Lemma rendered_frames (D T : Z) (w w1 w2 : World) (n n' : nat) :
  staged (2 # 10) w w1 -> framesAdded D T 0 w1 w2 n n' ->
  rendered D (99 # 100) w w2.
Proof.
  intros ((vs & Pv & Hvs) & Hf) (F & P & _). split.
  - exists (vs ++ progressFrom T 0 n'). split.
    + rewrite P, Pv, <- app_assoc. reflexivity.
    + apply (between_app 0 (2 # 10)); [exact Hvs|].
      apply progressFrom_between. lia.
  - exists n. rewrite F, Hf. reflexivity.
Qed.


Lemma rendered_final (D : Z) (b : Q) (w w1 w2 : World) :
  b <= 1 -> rendered D b w w1 ->
  trace w2 = trace w1 ++ [Progress 1] ->
  rendered D 1 w w2.
Proof.
  intros Hb ((vs & Pv & Hvs) & (n & Hf)) E. split.
  - exists (vs ++ [1]). split.
    + rewrite E, progressValues_app, Pv, <- app_assoc. reflexivity.
    + apply (between_app 0 b); [exact Hvs|]. simpl. split; lra.
  - exists n. rewrite E, frameTimestamps_app, Hf. simpl. now rewrite app_nil_r.
Qed.


Lemma webCodecsBody_rendered (env : Env) (scenes : list Scene)
      (options : VideoRenderOptions) (config : RenderConfig) (w w' : World)
      (res : GeneratedVideoResult + RenderError) :
  webCodecsBody env scenes options config w = (w', res) ->
  rendered (round (1000000 / fps config)) 1 w w'.
Proof.
  intros E. unfold webCodecsBody in E.
  set (D := round (1000000 / fps config)) in *.
  destruct (negb (canvasContext env)).
  { injection E as <- _. apply rendered_nothing; [lra | reflexivity]. }
  apply bind_inv in E. destruct E as [(w1 & images & E1 & E) | (e & E1 & ->)];
    apply staged_preload in E1.
  2:{ apply (rendered_weaken D (2 # 10)); [lra|]. now apply staged_rendered. }
  apply bind_inv in E. destruct E as [(w2 & x2 & E2 & E) | (e & E2 & ->)];
    apply throwIfAborted_inv in E2; destruct E2 as [-> _].
  2:{ apply (rendered_weaken D (2 # 10)); [lra|]. now apply staged_rendered. }
  destruct (negb (webCodecs env)).
  { injection E as <- _.
    apply (rendered_weaken D (2 # 10)); [lra|]. now apply staged_rendered. }
  assert (Q3 : AllEvents loadEvent
                         (match mode options with
                          | Some Download => firstSupported env MP4_CODEC_CANDIDATES
                          | _ => ret None
                          end)).
  { destruct (mode options) as [[|]|]; try apply AllEvents_ret.
    apply firstSupported_quiet. }
  apply bind_inv in E. destruct E as [(w3 & mp4 & E3 & E) | (e & E3 & ->)];
    pose proof (staged_quiet _ _ _ _ _ _ Q3 E1 E3) as S3.
  2:{ apply (rendered_weaken D (2 # 10)); [lra|]. now apply staged_rendered. }
  assert (Q4 : AllEvents loadEvent
                         (match mp4 with
                          | Some _ => ret MP4
                          | None =>
                              firstSupported env WEB_CODECS_WEBM_CODEC_CANDIDATES ;;
                              ret WebM
                          end)).
  { destruct mp4; [apply AllEvents_ret|].
    apply AllEvents_bind; [apply firstSupported_quiet|]. intros _.
    apply AllEvents_ret. }
  apply bind_inv in E. destruct E as [(w4 & chosen & E4 & E) | (e & E4 & ->)];
    pose proof (staged_quiet _ _ _ _ _ _ Q4 S3 E4) as S4.
  2:{ apply (rendered_weaken D (2 # 10)); [lra|]. now apply staged_rendered. }
  apply bind_inv in E. destruct E as [(w5 & st & E5 & E) | (e & E5 & ->)];
    destruct (encodeScenes_trace _ _ _ _ _ _ _ _ _ _ _ E5) as (n & n' & Hn);
    pose proof (rendered_frames _ _ _ _ _ _ _ S4 Hn) as H5.
  2:{ apply (rendered_weaken D (99 # 100)); [lra | exact H5]. }
  apply bind_inv in E. destruct E as [(w6 & x6 & E6 & E) | (e & E6 & ->)];
    apply tick_inv in E6; destruct E6 as [T6 H6]; [|discriminate].
  apply bind_inv in E. destruct E as [(w7 & x7 & E7 & E) | (e & E7 & ->)];
    apply emit_inv in E7; destruct E7 as (T7 & _ & H7); [|discriminate].
  apply ret_inv in E. destruct E as [-> _].
  apply (rendered_final D (99 # 100) w w6); [lra | | exact T7].
  now apply (rendered_same_trace D _ w w5).
Qed.


End RendererTraces.

(** * Claims about the renderers *)

Section RendererClaims.

Lemma rendered_after_attempt (D : Z) (b : Q) (backend : Backend) (config : RenderConfig)
      (w w1 w' : World) :
  trace w1 = trace w ++ [Attempt backend config] ->
  rendered D b w1 w' -> rendered D b w w'.
Proof.
  intros E ((vs & Pv & Hvs) & (n & Hf)).
  rewrite E, progressValues_app in Pv. rewrite E, frameTimestamps_app in Hf.
  simpl in Pv, Hf. rewrite app_nil_r in Pv, Hf.
  split; eauto.
Qed.

Lemma generateVideoWithWebCodecs_rendered (env : Env) (scenes : list Scene)
      (options : VideoRenderOptions) (config : RenderConfig) (w w' : World)
      (res : GeneratedVideoResult + RenderError) :
  generateVideoWithWebCodecs env scenes options config w = (w', res) ->
  rendered (round (1000000 / fps config)) 1 w w'.
Proof.
  rewrite generateVideoWithWebCodecs_body. intros E.
  apply bind_inv in E. destruct E as [(w1 & x1 & E1 & E) | (e & E1 & ->)];
    apply emit_inv in E1; destruct E1 as (T1 & _ & H1); [|discriminate].
  apply (rendered_after_attempt _ _ WebCodecs config w w1 w' T1).
  now apply (webCodecsBody_rendered env scenes options config w1 w' res).
Qed.


Lemma nth_error_map_seq (f : nat -> Z) (n : nat) :
  forall (s k : nat) (t : Z),
    nth_error (map f (seq s n)) k = Some t -> t = f (s + k)%nat.
Proof.
  induction n as [|n IH]; intros s k t; simpl.
  - destruct k; discriminate.
  - destruct k as [|k]; simpl.
    + intros [= <-]. now rewrite Nat.add_0_r.
    + intros H. rewrite (IH _ _ _ H). f_equal. lia.
Qed.

Definition cfg15 : RenderConfig := resolveOptimizedRenderConfig Preview [sceneOf (2 # 10)].

Definition plainEnv : Env :=
  mkEnv true true true true None (fun _ _ => true) (fun _ => true) (fun _ => true)
        None None.

Definition previewOptions : VideoRenderOptions := mkOptions false None.

(** C9, as stated, fails at the default preview rate of 15 frames per
    second: the second frame handed to the encoder carries 66667 us, not
    1 * (1000000 / 15) us. *)
Lemma second_frame_timestamp_rounded :
  fps cfg15 == 15 /\
  nth_error
    (frameTimestamps
       (trace (fst (generateVideoWithWebCodecs plainEnv [sceneOf (2 # 10)]
                      previewOptions cfg15 initialWorld)))) 1
  = Some 66667%Z /\
  ~ inject_Z 66667 == 1 * (1000000 / fps cfg15).
Proof.
  split; [vm_compute; reflexivity|]. split; [vm_compute; reflexivity|].
  vm_compute. discriminate.
Qed.

(** C9, amended: the k-th frame (from zero) that the WebCodecs renderer
    hands to the encoder carries the timestamp
    k * round(1000000 / fps) microseconds. *)
Theorem frame_timestamps (env : Env) (scenes : list Scene)
        (options : VideoRenderOptions) (config : RenderConfig) (w : World) :
  0 < fps config ->
  exists ts,
    frameTimestamps
      (trace (fst (generateVideoWithWebCodecs env scenes options config w)))
    = frameTimestamps (trace w) ++ ts /\
    forall (k : nat) (t : Z),
      nth_error ts k = Some t ->
      t = (Z.of_nat k * round (1000000 / fps config))%Z.
Proof.
  intros _.
  destruct (generateVideoWithWebCodecs env scenes options config w) as [w' res] eqn:E.
  destruct (generateVideoWithWebCodecs_rendered _ _ _ _ _ _ _ E) as (_ & (n & Hf)).
  eexists. split; [exact Hf|].
  intros k t Hk. unfold countFrom in Hk. rewrite map_map in Hk.
  apply nth_error_map_seq in Hk. rewrite Hk. simpl. reflexivity.
Qed.

Lemma frame_timestamps_witness :
  0 < fps cfg15 /\
  exists ts,
    frameTimestamps
      (trace (fst (generateVideoWithWebCodecs plainEnv [sceneOf (2 # 10)]
                     previewOptions cfg15 initialWorld)))
    = frameTimestamps (trace initialWorld) ++ ts /\
    forall (k : nat) (t : Z),
      nth_error ts k = Some t ->
      t = (Z.of_nat k * round (1000000 / fps cfg15))%Z.
Proof.
  assert (H : 0 < fps cfg15) by (vm_compute; reflexivity).
  split; [exact H|].
  exact (frame_timestamps plainEnv [sceneOf (2 # 10)] previewOptions cfg15
                          initialWorld H).
Defined.




End RendererClaims.

Section CancellationAndFallbackArt.

Definition clip : Scene :=
  mkScene "clip" "text" [] "" (Num (2 # 10)) "https://example.org/a.png" Image.

(** WebCodecs is there, MediaRecorder is not, and the signal fires at the
    sixth suspension, which is the yield after the three frames of [clip]. *)
Definition cancelEnv : Env :=
  mkEnv true true false true (Some 6%nat) (fun _ _ => true) (fun _ => true)
        (fun _ => true) None None.

(** The same with MediaRecorder available. *)
Definition cancelEnvBoth : Env :=
  mkEnv true true true true (Some 6%nat) (fun _ _ => true) (fun _ => true)
        (fun _ => true) None None.

(** C6 on the code: the low-level renderer observes the cancellation and
    rejects with AbortError, the entry point catches it like any failure
    and enters the MediaRecorder renderer; without MediaRecorder the call
    rejects with a generic failure, and with it the callback is handed 0
    once more before AbortError comes out. *)
Theorem cancellation_enters_fallback :
  snd (generateVideoWithWebCodecs cancelEnv [clip] previewOptions
         (resolveOptimizedRenderConfig Preview [clip]) initialWorld)
  = inr AbortError /\
  snd (generateWebMFromScenes cancelEnv [clip] previewOptions initialWorld)
  = inr (Failure "MediaRecorder API or canvas.captureStream is not supported in this browser.") /\
  map fst (attempts (trace (fst (generateWebMFromScenes cancelEnv [clip] previewOptions
                                   initialWorld))))
  = [WebCodecs; MediaRecorder] /\
  snd (generateWebMFromScenes cancelEnvBoth [clip] previewOptions initialWorld)
  = inr AbortError /\
  map fst (attempts (trace (fst (generateWebMFromScenes cancelEnvBoth [clip]
                                   previewOptions initialWorld))))
  = [WebCodecs; MediaRecorder] /\
  exists x y,
    nth_error
      (progressValues
         (trace (fst (generateWebMFromScenes cancelEnvBoth [clip] previewOptions
                        initialWorld)))) 5 = Some x /\
    nth_error
      (progressValues
         (trace (fst (generateWebMFromScenes cancelEnvBoth [clip] previewOptions
                        initialWorld)))) 6 = Some y /\
    x == 99 # 100 /\ y == 0.
Proof.
  repeat split; try (vm_compute; reflexivity).
  eexists. eexists.
  split; [vm_compute; reflexivity|]. split; [vm_compute; reflexivity|].
  split; reflexivity.
Qed.

Lemma aborted_never (env : Env) (w : World) : abortAt env = None -> aborted env w = false.
Proof. unfold aborted. now intros ->. Qed.

Lemma throwIfAborted_never (env : Env) (w : World) :
  abortAt env = None -> throwIfAborted env w = (w, inl tt).
Proof. intros H. unfold throwIfAborted. now rewrite aborted_never. Qed.

Lemma loadOnce_fails (env : Env) (message : string) (i attempt : nat) (w : World) :
  abortAt env = None -> loads env i attempt = false ->
  loadOnce env message i attempt w
  = (mkWorld (S (clock w)) (trace w ++ [LoadAttempt i attempt]), inr (Failure message)).
Proof.
  intros Ha Hl. unfold loadOnce, bind.
  rewrite (throwIfAborted_never env w Ha). unfold emit, tick. simpl.
  rewrite (throwIfAborted_never env _ Ha), Hl. reflexivity.
Qed.

Lemma createStylizedFallbackImage_run (env : Env) (scene : Scene) (w : World) :
  canvasContext env = true ->
  createStylizedFallbackImage env scene w
  = (mkWorld (S (clock w)) (trace w),
     inl (StylizedFallback (computeSceneAccentColor scene))).
Proof.
  intros Hc. unfold createStylizedFallbackImage. rewrite Hc. reflexivity.
Qed.

Lemma retryLoop_retry (env : Env) (message : string) (scene : Scene)
      (i remaining attempt : nat) (w : World) :
  abortAt env = None -> loads env i attempt = false ->
  (attempt <? IMAGE_LOAD_RETRIES)%nat = true ->
  retryLoop env message scene i (S remaining) attempt w
  = retryLoop env message scene i remaining (S attempt)
              (mkWorld (S (S (clock w)))
                       (trace w ++ [LoadAttempt i attempt;
                                    Sleep (INITIAL_RETRY_DELAY_MS * 2 ^ Z.of_nat attempt)])).
Proof.
  intros Ha Hl Hlt. cbn [retryLoop]. unfold catch.
  rewrite (loadOnce_fails env message i attempt w Ha Hl).
  cbn [isAbortError]. rewrite Hlt.
  unfold bind, emit, tick. cbn [clock trace].
  rewrite <- app_assoc. reflexivity.
Qed.

Lemma retryLoop_give_up (env : Env) (message : string) (scene : Scene)
      (i remaining attempt : nat) (w : World) :
  abortAt env = None -> loads env i attempt = false ->
  (attempt <? IMAGE_LOAD_RETRIES)%nat = false ->
  retryLoop env message scene i (S remaining) attempt w
  = createStylizedFallbackImage env scene
      (mkWorld (S (clock w)) (trace w ++ [LoadAttempt i attempt])).
Proof.
  intros Ha Hl Hlt. cbn [retryLoop]. unfold catch.
  rewrite (loadOnce_fails env message i attempt w Ha Hl).
  cbn [isAbortError]. rewrite Hlt. reflexivity.
Qed.

(** Same identity, different caption. *)
Definition sceneX : Scene := mkScene "a" "x" [] "" (Num 5) "" Image.
Definition sceneY : Scene := mkScene "a" "y" [] "" (Num 5) "" Image.

(** C8, as stated, fails: two scenes with the same id get different
    fallback colours when their captions differ. *)
Lemma accent_not_a_function_of_id :
  id sceneX = id sceneY /\
  computeSceneAccentColor sceneX = "#10AC84"%string /\
  computeSceneAccentColor sceneY = "#FF5F6D"%string /\
  computeSceneAccentColor sceneX <> computeSceneAccentColor sceneY.
Proof.
  repeat split; try (vm_compute; reflexivity).
  vm_compute. discriminate.
Qed.

(** C8, amended: when the signal never fires and every attempt to load a
    scene's source fails, [loadImageWithRetries] makes three attempts with
    backoff sleeps of 300 ms and 600 ms and then returns the stylized
    fallback image instead of an error; its accent colour is a function of
    the scene's id, keywords, image prompt and text together. *)
Theorem fallback_after_failed_loads (env : Env) (src : string) (scene : Scene)
        (i : nat) (w : World) :
  src <> ""%string ->
  abortAt env = None ->
  canvasContext env = true ->
  (forall attempt, loads env i attempt = false) ->
  snd (loadImageWithRetries env src scene i w)
  = inl (StylizedFallback (computeSceneAccentColor scene)) /\
  trace (fst (loadImageWithRetries env src scene i w))
  = trace w ++ [LoadAttempt i 0; Sleep 300; LoadAttempt i 1; Sleep 600; LoadAttempt i 2] /\
  forall scene',
    id scene' = id scene -> keywords scene' = keywords scene ->
    imagePrompt scene' = imagePrompt scene -> sceneText scene' = sceneText scene ->
    computeSceneAccentColor scene' = computeSceneAccentColor scene.
Proof.
  intros Hsrc Ha Hc Hl.
  assert (Hrun : loadImageWithRetries env src scene i w
                 = (mkWorld (S (S (S (S (S (S (clock w)))))))
                            (trace w ++ [LoadAttempt i 0; Sleep 300; LoadAttempt i 1;
                                         Sleep 600; LoadAttempt i 2]),
                    inl (StylizedFallback (computeSceneAccentColor scene)))).
  { unfold loadImageWithRetries.
    destruct (String.eqb src "") eqn:Es; [apply String.eqb_eq in Es; contradiction|].
    change (S IMAGE_LOAD_RETRIES) with 3%nat.
    rewrite (retryLoop_retry env _ scene i _ 0 w Ha (Hl _) eq_refl).
    rewrite (retryLoop_retry env _ scene i _ 1 _ Ha (Hl _) eq_refl).
    rewrite (retryLoop_give_up env _ scene i _ 2 _ Ha (Hl _) eq_refl).
    rewrite (createStylizedFallbackImage_run env scene _ Hc). cbn [clock trace].
    rewrite <- !app_assoc. reflexivity. }
  rewrite Hrun. simpl. split; [reflexivity|]. split; [reflexivity|].
  intros scene' H1 H2 H3 H4. unfold computeSceneAccentColor.
  now rewrite H1, H2, H3, H4.
Qed.

Definition deadEnv : Env :=
  mkEnv true true true true None (fun _ _ => false) (fun _ => true) (fun _ => true)
        None None.

Lemma fallback_after_failed_loads_witness :
  snd (loadImageWithRetries deadEnv "https://example.org/a.png" clip 0 initialWorld)
  = inl (StylizedFallback (computeSceneAccentColor clip)).
Proof.
  refine (proj1 (fallback_after_failed_loads deadEnv "https://example.org/a.png" clip 0
                   initialWorld _ eq_refl eq_refl (fun _ => eq_refl))).
  discriminate.
Defined.

End CancellationAndFallbackArt.

(** * The render configuration *)

Section RenderConfigFacts.

Definition minFpsOf (mode : RenderMode) : Q :=
  match mode with Download => MIN_DOWNLOAD_FPS | Preview => MIN_PREVIEW_FPS end.

Definition minBitrateOf (mode : RenderMode) : Q :=
  match mode with Download => MIN_DOWNLOAD_BITRATE | Preview => MIN_PREVIEW_BITRATE end.

Definition frameBudgetOf (mode : RenderMode) : Q :=
  match mode with Download => DOWNLOAD_FRAME_BUDGET | Preview => PREVIEW_FRAME_BUDGET end.

Lemma total_duration_acc (scenes : list Scene) (a : Q) :
  fold_left
    (fun total scene =>
       total + Qmax 0 (match duration scene with Num q => q | _ => 0 end))
    scenes a
  == a + sum (sanitised scenes).
Proof.
  revert a. induction scenes as [|s rest IH]; intros a; simpl.
  - rewrite sum_nil. lra.
  - rewrite IH. unfold sanitised in *. simpl. rewrite sum_cons.
    assert (H : Qmax 0 (match duration s with Num q => q | _ => 0 end)
                == sanitiseDuration (duration s)).
    { destruct (duration s) as [q| | |]; simpl;
        try (destruct (Qmax_cases 0 0) as [[_ ->]|[_ ->]]; reflexivity).
      destruct (leb q 0) eqn:E.
      - apply leb_true in E. destruct (Qmax_cases 0 q) as [[? ->]|[? ->]]; lra.
      - apply leb_false in E. destruct (Qmax_cases 0 q) as [[? ->]|[? ->]]; lra. }
    rewrite H. lra.
Qed.

(** X1: The renderer's total duration and the plan builder's sanitised total
    are the same number. *)
Theorem total_duration_is_sanitised_total (scenes : list Scene) :
  computeTotalSceneDurationSeconds scenes == sum (sanitised scenes).
Proof.
  unfold computeTotalSceneDurationSeconds. rewrite total_duration_acc. lra.
Qed.

Lemma round_le_integer (x : Q) (z : Z) : x <= inject_Z z -> inject_Z (round x) <= inject_Z z.
Proof.
  intros H. unfold round. rewrite <- Zle_Qle.
  assert (Hf : (Qfloor (x + (1 # 2)) <= Qfloor (inject_Z z + (1 # 2)))%Z)
    by (apply Qfloor_resp_le; lra).
  assert (Hz : Qfloor (inject_Z z + (1 # 2)) = z).
  { apply Z.le_antisymm.
    - apply Z.lt_succ_r. rewrite Zlt_Qlt.
      eapply Qle_lt_trans; [apply Qfloor_le|].
      rewrite <- Z.add_1_r, inject_Z_plus. change (inject_Z 1) with 1. lra.
    - rewrite <- (Qfloor_Z z) at 1. apply Qfloor_resp_le. lra. }
  lia.
Qed.

Ltac plain t :=
  lazymatch t with
  | context [Qmax _ _] => fail
  | context [Qmin _ _] => fail
  | _ => idtac
  end.

Ltac split_minmax :=
  repeat match goal with
         | |- context [Qmax ?a ?b] =>
             plain a; plain b;
             let H := fresh in let E := fresh in
             destruct (Qmax_cases a b) as [[H E]|[H E]]; rewrite !E in *
         | |- context [Qmin ?a ?b] =>
             plain a; plain b;
             let H := fresh in let E := fresh in
             destruct (Qmin_cases a b) as [[H E]|[H E]]; rewrite !E in *
         end.

(** The adjusted frame rate once the budget is exceeded. *)
Definition allowedFpsOf (mode : RenderMode) (totalDuration : Q) : Q :=
  Qmax (minFpsOf mode)
       (Qmin (fps (getRenderConfig mode))
             (inject_Z (Qfloor (frameBudgetOf mode / totalDuration)))).

Lemma resolved_fps (mode : RenderMode) (scenes : list Scene) :
  let total := computeTotalSceneDurationSeconds scenes in
  let base := getRenderConfig mode in
  fps (resolveOptimizedRenderConfig mode scenes) == fps base \/
  (0 < total /\ frameBudgetOf mode < total * fps base /\
   allowedFpsOf mode total < fps base /\
   fps (resolveOptimizedRenderConfig mode scenes) == allowedFpsOf mode total).
Proof.
  intros total base. subst base. unfold resolveOptimizedRenderConfig. fold total.
  destruct (leb total 0) eqn:E0; [left; reflexivity|].
  apply leb_false in E0.
  fold (frameBudgetOf mode). fold (minFpsOf mode). fold (minBitrateOf mode).
  cbv zeta.
  destruct (gtb (total * fps (getRenderConfig mode)) (frameBudgetOf mode)) eqn:E1.
  - apply gtb_true in E1. fold (allowedFpsOf mode total).
    destruct (gtb (fps (getRenderConfig mode)) (allowedFpsOf mode total)) eqn:E2.
    + apply gtb_true in E2. right.
      split; [exact E0|]. split; [exact E1|]. split; [exact E2|].
      assert (Hmin : minFpsOf mode <= allowedFpsOf mode total)
        by (unfold allowedFpsOf; apply Q.le_max_l).
      assert (H4 : MIN_EFFECTIVE_FPS <= minFpsOf mode)
        by (destruct mode; discriminate).
      destruct (gtb total LONG_FORM_DURATION_THRESHOLD_SECONDS);
        destruct (gtb total ULTRA_LONG_DURATION_THRESHOLD_SECONDS);
        cbn [fps]; split_minmax; lra.
    + left.
      assert (H4 : MIN_EFFECTIVE_FPS <= fps (getRenderConfig mode))
        by (destruct mode; discriminate).
      destruct (gtb total LONG_FORM_DURATION_THRESHOLD_SECONDS);
        destruct (gtb total ULTRA_LONG_DURATION_THRESHOLD_SECONDS);
        cbn [fps]; split_minmax; lra.
  - left.
    assert (H4 : MIN_EFFECTIVE_FPS <= fps (getRenderConfig mode))
      by (destruct mode; discriminate).
    destruct (gtb total LONG_FORM_DURATION_THRESHOLD_SECONDS);
      destruct (gtb total ULTRA_LONG_DURATION_THRESHOLD_SECONDS);
      cbn [fps]; split_minmax; lra.
Qed.

(** X2: The resolved frame rate never leaves the band between the mode's
    minimum (10 in preview, 8 in download, both above
    [MIN_EFFECTIVE_FPS]) and the mode's base rate. *)
Theorem resolved_fps_bounds (mode : RenderMode) (scenes : list Scene) :
  MIN_EFFECTIVE_FPS <= minFpsOf mode /\
  minFpsOf mode <= fps (resolveOptimizedRenderConfig mode scenes) /\
  fps (resolveOptimizedRenderConfig mode scenes) <= fps (getRenderConfig mode).
Proof.
  split; [destruct mode; discriminate|].
  destruct (resolved_fps mode scenes) as [H | (_ & _ & Hlt & H)]; rewrite H.
  - split; [destruct mode; discriminate | lra].
  - split; [unfold allowedFpsOf; apply Q.le_max_l | lra].
Qed.

Lemma scaled_bitrate_le (mode : RenderMode) (x : Q) :
  x <= fps (getRenderConfig mode) ->
  inject_Z (round (bitrate (getRenderConfig mode) * (x / fps (getRenderConfig mode))))
  <= bitrate (getRenderConfig mode).
Proof.
  intros Hx. destruct mode.
  - change (fps (getRenderConfig Preview)) with 15 in *.
    change (bitrate (getRenderConfig Preview)) with (inject_Z 1200000).
    apply round_le_integer. unfold Qdiv.
    change (/ 15) with (1 # 15). change (inject_Z 1200000) with 1200000. lra.
  - change (fps (getRenderConfig Download)) with 24 in *.
    change (bitrate (getRenderConfig Download)) with (inject_Z 3500000).
    apply round_le_integer. unfold Qdiv.
    change (/ 24) with (1 # 24). change (inject_Z 3500000) with 3500000. lra.
Qed.

(** X4: Optimisation only ever lowers quality: the resolved bit rate stays
    between the mode's floor and the base bit rate, and the resolved
    dimensions never exceed the base dimensions. *)
Theorem resolved_quality_bounds (mode : RenderMode) (scenes : list Scene) :
  let base := getRenderConfig mode in
  let config := resolveOptimizedRenderConfig mode scenes in
  minBitrateOf mode <= bitrate config /\ bitrate config <= bitrate base /\
  maxLandscapeWidth config <= maxLandscapeWidth base /\
  maxPortraitHeight config <= maxPortraitHeight base.
Proof.
  intros base config. subst base config.
  assert (Hb : minBitrateOf mode <= bitrate (getRenderConfig mode))
    by (destruct mode; discriminate).
  unfold resolveOptimizedRenderConfig.
  set (total := computeTotalSceneDurationSeconds scenes).
  destruct (leb total 0) eqn:E0; [repeat split; lra|].
  fold (frameBudgetOf mode). fold (minFpsOf mode). fold (minBitrateOf mode).
  cbv zeta. fold (allowedFpsOf mode total).
  assert (HR : allowedFpsOf mode total < fps (getRenderConfig mode) ->
               inject_Z (round (bitrate (getRenderConfig mode) *
                                (Qmax MIN_EFFECTIVE_FPS (allowedFpsOf mode total)
                                 / fps (getRenderConfig mode))))
               <= bitrate (getRenderConfig mode)).
  { intros Hlt. apply scaled_bitrate_le.
    assert (MIN_EFFECTIVE_FPS <= fps (getRenderConfig mode))
      by (destruct mode; discriminate).
    split_minmax; lra. }
  revert HR.
  generalize (inject_Z (round (bitrate (getRenderConfig mode) *
                               (Qmax MIN_EFFECTIVE_FPS (allowedFpsOf mode total)
                                / fps (getRenderConfig mode))))) as rounded.
  intros rounded HR.
  destruct (gtb (total * fps (getRenderConfig mode)) (frameBudgetOf mode));
    [destruct (gtb (fps (getRenderConfig mode)) (allowedFpsOf mode total)) eqn:E2;
     [apply gtb_true in E2; specialize (HR E2)|]|];
    destruct (gtb total LONG_FORM_DURATION_THRESHOLD_SECONDS);
    destruct (gtb total ULTRA_LONG_DURATION_THRESHOLD_SECONDS);
    cbn [bitrate maxLandscapeWidth maxPortraitHeight];
    repeat split; split_minmax; lra.
Qed.

End RenderConfigFacts.

(** * The canvas in binary64 *)

Section CanvasFacts.

Import Binary64.

Lemma short_total_thresholds (t : number) :
  leb t zero = true ->
  gtb t LONG_FORM_DURATION_THRESHOLD_SECONDS = false /\
  gtb t ULTRA_LONG_DURATION_THRESHOLD_SECONDS = false.
Proof.
  destruct t as [[]|[]| |[] m e]; vm_compute; intros H;
    try discriminate H; split; reflexivity.
Qed.

(** X5: The canvas size is decided by the mode and by the running total of
    the durations as the code adds them: a preview is always 854x480 (or
    540x960 in portrait), a download is 1280x720 while the total is not
    above 120, 1120x630 while it is not above 300 and 960x540 beyond, with
    the sides swapped in portrait. *)
Theorem canvas_dimensions (mode : RenderMode) (scenes : list Scene)
        (aspectRatio : AspectRatio) :
  let total := computeTotalSceneDurationSeconds scenes in
  let config := resolveOptimizedRenderConfig mode scenes in
  getCanvasDimensions aspectRatio config =
  match mode, aspectRatio with
  | Preview, Landscape16x9 => mkDimensions (ofZ 854) (ofZ 480)
  | Preview, Portrait9x16 => mkDimensions (ofZ 540) (ofZ 960)
  | Download, Landscape16x9 =>
      if gtb total ULTRA_LONG_DURATION_THRESHOLD_SECONDS
      then mkDimensions (ofZ 960) (ofZ 540)
      else if gtb total LONG_FORM_DURATION_THRESHOLD_SECONDS
      then mkDimensions (ofZ 1120) (ofZ 630)
      else mkDimensions (ofZ 1280) (ofZ 720)
  | Download, Portrait9x16 =>
      if gtb total ULTRA_LONG_DURATION_THRESHOLD_SECONDS
      then mkDimensions (ofZ 540) (ofZ 960)
      else if gtb total LONG_FORM_DURATION_THRESHOLD_SECONDS
      then mkDimensions (ofZ 630) (ofZ 1120)
      else mkDimensions (ofZ 720) (ofZ 1280)
  end.
Proof.
  intros total config. subst config.
  unfold resolveOptimizedRenderConfig. fold total.
  destruct (leb total zero) eqn:E0.
  { destruct (short_total_thresholds total E0) as [-> ->].
    destruct mode, aspectRatio; vm_compute; reflexivity. }
  cbv zeta.
  destruct (gtb total ULTRA_LONG_DURATION_THRESHOLD_SECONDS) eqn:E1;
    destruct (gtb total LONG_FORM_DURATION_THRESHOLD_SECONDS) eqn:E2;
    (destruct (gtb (mul total (fps (getRenderConfig mode))) _);
     [destruct (gtb (fps (getRenderConfig mode)) _)|]);
    destruct mode, aspectRatio; reflexivity.
Qed.

End CanvasFacts.

(** * Shape of the render plan *)

Section PlanShape.

Lemma AllR_Forall (R : Q -> Q -> Prop) (P : Q -> Prop) (l ms : list Q) :
  (forall v m, R v m -> P v) -> AllR R l ms -> Forall P l.
Proof.
  intros HRP. revert ms. induction l as [|v l IH]; intros ms H; simpl in *.
  - constructor.
  - destruct H as [Hv Hl]. constructor; eauto.
Qed.

(** X6: There is one effective duration per scene and none is negative, in
    both modes; the [?? 0] with which [buildRenderPlan] reads them never
    applies. *)
Theorem effective_durations_shape (scenes : list Scene) (mode : RenderMode) :
  length (computeEffectiveDurations scenes mode) = length scenes /\
  Forall (fun d => 0 <= d) (computeEffectiveDurations scenes mode).
Proof.
  assert (Hs : Forall (fun d => 0 <= d) (sanitised scenes)).
  { eapply Forall_impl; [|apply sanitised_fine]. apply fine_nonneg. }
  destruct mode.
  2:{ change (computeEffectiveDurations scenes Download) with (sanitised scenes).
      split; [apply sanitised_length | exact Hs]. }
  destruct (Qlt_le_dec PREVIEW_MAX_TOTAL_DURATION_SECONDS (sum (sanitised scenes)))
    as [Hbig|Hle].
  - rewrite (computeEffectiveDurations_compress scenes Hbig).
    destruct (compress_spec (sanitised scenes) (sanitised_fine scenes) Hbig)
      as (_ & HB & Hlen & _).
    split; [now rewrite Hlen, sanitised_length|].
    eapply AllR_Forall; [|exact HB].
    intros v m (H0 & Hm & _). lra.
  - rewrite (preview_below_cap scenes Hle).
    split; [apply sanitised_length | exact Hs].
Qed.

Lemma mapi_from_map {A B C} (f : A -> nat -> B) (g : B -> C) (h : A -> C)
      (l : list A) (s : nat) :
  (forall x i, g (f x i) = h x) -> map g (mapi_from f s l) = map h l.
Proof.
  intros E. revert s. induction l as [|x l IH]; intros s; simpl; auto.
  now rewrite E, IH.
Qed.

Lemma mapi_from_Forall {A B} (f : A -> nat -> B) (P : B -> Prop) (l : list A) (s : nat) :
  (forall x i, P (f x i)) -> Forall P (mapi_from f s l).
Proof.
  intros H. revert s. induction l as [|x l IH]; intros s; simpl; constructor; auto.
Qed.

Lemma buildRenderPlan_scenes (scenes : list Scene) (fps : Q) (mode : RenderMode) :
  map scene (buildRenderPlan scenes fps mode) = scenes.
Proof.
  unfold buildRenderPlan, mapi.
  rewrite (mapi_from_map _ scene (fun s => s)); [apply map_id | reflexivity].
Qed.

(** X7: For a positive frame rate, the plan lists the scenes in their
    order, one item each, and every item lasts more than 0.01 s and has at
    least one frame, whatever the durations and the mode. *)
Theorem render_plan_shape (scenes : list Scene) (fps : Q) (mode : RenderMode) :
  0 < fps ->
  map scene (buildRenderPlan scenes fps mode) = scenes /\
  Forall (fun item => 1 # 100 < durationSeconds item /\ (1 <= frameCount item)%Z)
         (buildRenderPlan scenes fps mode).
Proof.
  intros _.
  split; [apply buildRenderPlan_scenes|]. unfold buildRenderPlan, mapi.
  apply mapi_from_Forall. intros s i. cbn [durationSeconds frameCount].
  split; [|apply Z.le_max_l].
  destruct (gtb (nth i (computeEffectiveDurations scenes mode) 0) (1 # 100)) eqn:E.
  - now apply gtb_true in E.
  - destruct mode; [reflexivity|].
    eapply Qlt_le_trans; [|apply Q.le_max_l]. reflexivity.
Qed.

Lemma render_plan_shape_witness :
  0 < 24 /\
  map scene (buildRenderPlan [sceneOf 5; sceneNaN] 24 Download) = [sceneOf 5; sceneNaN].
Proof.
  split; [reflexivity|].
  exact (proj1 (render_plan_shape [sceneOf 5; sceneNaN] 24 Download eq_refl)).
Defined.

End PlanShape.

(** * Accent colours *)

Section AccentFacts.

Lemma toInt32_range (z : Z) : (- 2 ^ 31 <= toInt32 z < 2 ^ 31)%Z.
Proof.
  unfold toInt32.
  pose proof (Z.mod_pos_bound (z + 2 ^ 31) (2 ^ 32) ltac:(lia)). lia.
Qed.

Lemma accent_fold_range (codes : list Z) (h : Z) :
  (- 2 ^ 31 <= h < 2 ^ 31)%Z ->
  (- 2 ^ 31 <=
   fold_left (fun hash code => toInt32 (toInt32 (Z.shiftl hash 5) - hash + code)) codes h
   < 2 ^ 31)%Z.
Proof.
  revert h. induction codes as [|c codes IH]; intros h Hh; simpl; [exact Hh|].
  apply IH. apply toInt32_range.
Qed.

(** X10: The hash of any key is a signed 32-bit integer, and the accent colour
    of any scene is one of the ten palette colours: the palette lookup is
    never out of range. *)
Theorem accent_colour_in_palette (scene : Scene) (key : string) :
  (- 2 ^ 31 <= sceneAccentHash key < 2 ^ 31)%Z /\
  In (computeSceneAccentColor scene) ACCENT_COLOR_PALETTE.
Proof.
  split.
  - unfold sceneAccentHash. apply accent_fold_range. lia.
  - unfold computeSceneAccentColor. cbv zeta. apply nth_In.
    change (length ACCENT_COLOR_PALETTE) with 10%nat.
    match goal with
    | |- (Z.to_nat (?h mod _) < _)%nat =>
        pose proof (Z.mod_pos_bound h (Z.of_nat 10) ltac:(lia))
    end.
    lia.
Qed.

End AccentFacts.

(** * The loaders *)

Section Loaders.

Variable env : Env.

(** The signal, once fired, stays fired. *)
Lemma aborted_later (w w' : World) :
  (clock w <= clock w')%nat -> aborted env w = true -> aborted env w' = true.
Proof.
  unfold aborted. destruct (abortAt env) as [t|]; [|discriminate].
  intros Hc H. apply Nat.leb_le in H. apply Nat.leb_le. lia.
Qed.

Lemma aborted_clock (w w' : World) :
  clock w = clock w' -> aborted env w = aborted env w'.
Proof. unfold aborted. now intros ->. Qed.

(** How a call of a loader can end: with the loaded image, with the
    scene's fallback art (the gray pixel when there is no 2D context), or
    with [AbortError] once the signal has fired. *)
Definition loaderOutcome (scene : Scene) (i : nat) (w' : World)
           (r : ImageSource + RenderError) : Prop :=
  (r = inr AbortError /\ aborted env w' = true) \/
  r = inl (LoadedImage i) \/
  (r = inl (StylizedFallback (computeSceneAccentColor scene)) /\
   canvasContext env = true) \/
  (r = inl GrayPixel /\ canvasContext env = false).

(** The attempts and backoff sleeps of a retry loop that is never cut
    short. *)
Fixpoint fullSchedule (i attempt remaining : nat) : list Event :=
  match remaining with
  | O => []
  | S remaining' =>
      LoadAttempt i attempt ::
      (if (attempt <? IMAGE_LOAD_RETRIES)%nat
       then Sleep (INITIAL_RETRY_DELAY_MS * 2 ^ Z.of_nat attempt)
                  :: fullSchedule i (S attempt) remaining'
       else [])
  end.

Lemma createStylizedFallbackImage_cases (scene : Scene) (i : nat) (w : World) :
  exists w' r,
    createStylizedFallbackImage env scene w = (w', r) /\
    trace w' = trace w /\ (clock w <= clock w')%nat /\
    loaderOutcome scene i w' r.
Proof.
  unfold createStylizedFallbackImage, loaderOutcome.
  destruct (canvasContext env); do 2 eexists;
    (split; [reflexivity|]); simpl; (split; [reflexivity|]);
    (split; [lia|]); auto.
Qed.

Lemma loadOnce_cases (message : string) (i attempt : nat) (w : World) :
  exists w' r,
    loadOnce env message i attempt w = (w', r) /\
    (clock w <= clock w')%nat /\
    ((aborted env w = true /\ w' = w /\ r = inr AbortError) \/
     (aborted env w = false /\
      trace w' = trace w ++ [LoadAttempt i attempt] /\
      ((r = inr AbortError /\ aborted env w' = true) \/
       (r = inl (LoadedImage i) /\ loads env i attempt = true) \/
       (r = inr (Failure message) /\ loads env i attempt = false /\
        aborted env w' = false)))).
Proof.
  unfold loadOnce, bind, throwIfAborted, emit, tick.
  destruct (aborted env w) eqn:A0.
  { do 2 eexists. split; [reflexivity|]. split; [lia|]. left. auto. }
  cbn [clock trace].
  destruct (aborted env {| clock := S (clock w);
                           trace := trace w ++ [LoadAttempt i attempt] |}) eqn:A1.
  { do 2 eexists. split; [reflexivity|]. cbn [clock trace]. split; [lia|].
    right. split; [reflexivity|]. split; [reflexivity|]. left. auto. }
  destruct (loads env i attempt) eqn:L.
  - cbn [clock trace].
    destruct (aborted env {| clock := S (S (clock w));
                             trace := trace w ++ [LoadAttempt i attempt] |}) eqn:A2.
    + do 2 eexists. split; [reflexivity|]. cbn [clock trace]. split; [lia|].
      right. split; [reflexivity|]. split; [reflexivity|]. left. auto.
    + do 2 eexists. split; [reflexivity|]. cbn [clock trace]. split; [lia|].
      right. split; [reflexivity|]. split; [reflexivity|]. right. left. auto.
  - do 2 eexists. split; [reflexivity|]. cbn [clock trace]. split; [lia|].
    right. split; [reflexivity|]. split; [reflexivity|]. right. right. auto.
Qed.

Lemma retryLoop_cases (message : string) (scene : Scene) (i : nat) (remaining : nat) :
  forall (attempt : nat) (w : World),
  exists w' r added rest,
    retryLoop env message scene i remaining attempt w = (w', r) /\
    trace w' = trace w ++ added /\
    added ++ rest = fullSchedule i attempt remaining /\
    (clock w <= clock w')%nat /\
    loaderOutcome scene i w' r.
Proof.
  induction remaining as [|remaining IH]; intros attempt w.
  { destruct (createStylizedFallbackImage_cases scene i w) as (w' & r & E & T & C & O).
    exists w', r, [], []. simpl. rewrite app_nil_r. auto. }
  cbn [retryLoop fullSchedule]. unfold catch.
  destruct (loadOnce_cases message i attempt w)
    as (w1 & r1 & E1 & C1 & [(A & -> & ->) | (A & T1 & Hr)]); rewrite E1.
  { exists w, (inr AbortError), [], (fullSchedule i attempt (S remaining)).
    cbn [isAbortError fullSchedule]. rewrite app_nil_r.
    repeat split; auto. left. auto. }
  destruct Hr as [(-> & A1) | [(-> & L) | (-> & L & A1)]].
  - do 2 eexists. exists [LoadAttempt i attempt]. eexists.
    cbn [isAbortError]. split; [reflexivity|]. split; [exact T1|].
    split; [reflexivity|]. split; [exact C1|]. left. auto.
  - do 2 eexists. exists [LoadAttempt i attempt]. eexists.
    split; [reflexivity|]. split; [exact T1|].
    split; [reflexivity|]. split; [exact C1|]. right. left. reflexivity.
  - cbn [isAbortError].
    destruct (attempt <? IMAGE_LOAD_RETRIES)%nat.
    + unfold bind at 1 2. unfold emit, tick. cbn [clock trace].
      destruct (IH (S attempt)
                   {| clock := S (clock w1);
                      trace := trace w1 ++
                               [Sleep (INITIAL_RETRY_DELAY_MS * 2 ^ Z.of_nat attempt)] |})
        as (w' & r & added & rest & E & T & S & C & O).
      exists w', r,
        (LoadAttempt i attempt
           :: Sleep (INITIAL_RETRY_DELAY_MS * 2 ^ Z.of_nat attempt) :: added), rest.
      split; [exact E|]. cbn [clock trace] in T, C.
      split; [rewrite T, T1, <- !app_assoc; reflexivity|].
      split; [simpl; now rewrite S|]. split; [lia | exact O].
    + destruct (createStylizedFallbackImage_cases scene i w1)
        as (w' & r & E & T & C & O).
      exists w', r, [LoadAttempt i attempt], [].
      split; [exact E|]. split; [now rewrite T, T1|].
      split; [reflexivity|]. split; [lia | exact O].
Qed.

(** Both loaders run the same loop; only the message of the failure that
    is retried differs. *)
Definition loaderOf (footage : FootageType) : string -> Scene -> nat -> M ImageSource :=
  match footage with
  | Image => loadImageWithRetries env
  | Video => loadVideoFrameWithRetries env
  end.

Lemma loaderOf_cases (footage : FootageType) (src : string) (scene : Scene)
      (i : nat) (w : World) :
  exists w' r added rest,
    loaderOf footage src scene i w = (w', r) /\
    trace w' = trace w ++ added /\
    added ++ rest = [LoadAttempt i 0; Sleep 300; LoadAttempt i 1; Sleep 600;
                     LoadAttempt i 2] /\
    (clock w <= clock w')%nat /\
    loaderOutcome scene i w' r.
Proof.
  assert (Hempty : exists w' r added rest,
             createStylizedFallbackImage env scene w = (w', r) /\
             trace w' = trace w ++ added /\
             added ++ rest = [LoadAttempt i 0; Sleep 300; LoadAttempt i 1; Sleep 600;
                              LoadAttempt i 2] /\
             (clock w <= clock w')%nat /\
             loaderOutcome scene i w' r).
  { destruct (createStylizedFallbackImage_cases scene i w) as (w' & r & E & T & C & O).
    exists w', r, []. eexists. rewrite app_nil_r. simpl. eauto. }
  destruct footage; cbn [loaderOf];
    unfold loadImageWithRetries, loadVideoFrameWithRetries;
    destruct (String.eqb src ""); try exact Hempty;
    apply (retryLoop_cases _ scene i (S IMAGE_LOAD_RETRIES) 0 w).
Qed.

(** X11: A loader never fails on a source that cannot be loaded: it resolves
    with the loaded image or with the scene's fallback art, or it rejects
    with [AbortError], and then the signal has indeed fired.  What it
    logs is always an initial part of attempt, 300 ms, attempt, 600 ms,
    attempt: at most three attempts and two sleeps. *)
Theorem loader_outcome (footage : FootageType) (src : string) (scene : Scene)
        (i : nat) (w : World) :
  let w' := fst (loaderOf footage src scene i w) in
  let r := snd (loaderOf footage src scene i w) in
  (exists added rest,
     trace w' = trace w ++ added /\
     added ++ rest = [LoadAttempt i 0; Sleep 300; LoadAttempt i 1; Sleep 600;
                      LoadAttempt i 2]) /\
  ((r = inr AbortError /\ aborted env w' = true) \/
   r = inl (LoadedImage i) \/
   (r = inl (StylizedFallback (computeSceneAccentColor scene)) /\
    canvasContext env = true) \/
   (r = inl GrayPixel /\ canvasContext env = false)).
Proof.
  destruct (loaderOf_cases footage src scene i w)
    as (w' & r & added & rest & E & T & S & C & O).
  cbv zeta. rewrite E. cbn [fst snd]. split; [eauto | exact O].
Qed.

(** X12: A loader entered after the signal has fired, with a source to load,
    rejects at once: no attempt, no sleep, not even a tick. *)
Theorem loader_after_cancellation (footage : FootageType) (src : string)
        (scene : Scene) (i : nat) (w : World) :
  src <> ""%string ->
  aborted env w = true ->
  loaderOf footage src scene i w = (w, inr AbortError).
Proof.
  intros Hsrc A.
  assert (Es : String.eqb src "" = false) by now apply String.eqb_neq.
  destruct footage; cbn [loaderOf];
    unfold loadImageWithRetries, loadVideoFrameWithRetries; rewrite Es;
    cbn [retryLoop]; unfold catch, loadOnce, bind, throwIfAborted; rewrite A;
    reflexivity.
Qed.

End Loaders.

Definition firedEnv : Env :=
  mkEnv true true true true (Some 0%nat) (fun _ _ => true) (fun _ => true)
        (fun _ => true) None None.

Lemma loader_after_cancellation_witness :
  loaderOf firedEnv Image "https://example.org/a.png" clip 0 initialWorld
  = (initialWorld, inr AbortError).
Proof.
  apply (loader_after_cancellation firedEnv Image "https://example.org/a.png" clip 0
                                   initialWorld).
  - discriminate.
  - reflexivity.
Defined.

Section FirstSuccess.

Variable env : Env.
Hypothesis never_cancelled : abortAt env = None.

Lemma retryLoop_succeed (message : string) (scene : Scene)
      (i remaining attempt : nat) (w : World) :
  loads env i attempt = true ->
  retryLoop env message scene i (S remaining) attempt w
  = (mkWorld (S (S (clock w))) (trace w ++ [LoadAttempt i attempt]),
     inl (LoadedImage i)).
Proof.
  intros Hl. cbn [retryLoop]. unfold catch, loadOnce, bind.
  rewrite (throwIfAborted_never env w never_cancelled). unfold emit, tick.
  cbn [clock trace].
  rewrite (throwIfAborted_never env _ never_cancelled), Hl.
  rewrite (throwIfAborted_never env _ never_cancelled). reflexivity.
Qed.

(** X13: Without cancellation, the first attempt that loads ends the retries:
    [k] failed attempts, each followed by its backoff sleep, then the
    successful one, and the loaded image is returned. *)
Theorem first_success_ends_retries (footage : FootageType) (src : string)
        (scene : Scene) (i k : nat) (w : World) :
  src <> ""%string ->
  (k <= IMAGE_LOAD_RETRIES)%nat ->
  (forall a, (a < k)%nat -> loads env i a = false) ->
  loads env i k = true ->
  loaderOf env footage src scene i w
  = (mkWorld (clock w + 2 * k + 2)
             (trace w ++ firstn (2 * k + 1)
                                [LoadAttempt i 0; Sleep 300; LoadAttempt i 1; Sleep 600;
                                 LoadAttempt i 2]),
     inl (LoadedImage i)).
Proof.
  intros Hsrc Hk Hfail Hload.
  assert (Es : String.eqb src "" = false) by now apply String.eqb_neq.
  assert (Hloop : forall message,
             retryLoop env message scene i (S IMAGE_LOAD_RETRIES) 0 w
             = (mkWorld (clock w + 2 * k + 2)
                        (trace w ++ firstn (2 * k + 1)
                           [LoadAttempt i 0; Sleep 300; LoadAttempt i 1; Sleep 600;
                            LoadAttempt i 2]),
                inl (LoadedImage i))).
  { intros message. change (S IMAGE_LOAD_RETRIES) with 3%nat.
    unfold IMAGE_LOAD_RETRIES in Hk.
    destruct k as [|[|[|k]]]; [| | |lia].
    - rewrite (retryLoop_succeed _ _ _ _ _ _ Hload).
      do 2 f_equal. lia.
    - rewrite (retryLoop_retry env _ scene i _ 0 w never_cancelled
                               (Hfail 0%nat ltac:(lia)) eq_refl).
      rewrite (retryLoop_succeed _ _ _ _ _ _ Hload). cbn [clock trace].
      rewrite <- app_assoc. do 2 f_equal. lia.
    - rewrite (retryLoop_retry env _ scene i _ 0 w never_cancelled
                               (Hfail 0%nat ltac:(lia)) eq_refl).
      rewrite (retryLoop_retry env _ scene i _ 1 _ never_cancelled
                               (Hfail 1%nat ltac:(lia)) eq_refl).
      rewrite (retryLoop_succeed _ _ _ _ _ _ Hload). cbn [clock trace].
      rewrite <- !app_assoc. do 2 f_equal. lia. }
  destruct footage; cbn [loaderOf];
    unfold loadImageWithRetries, loadVideoFrameWithRetries; rewrite Es; apply Hloop.
Qed.

End FirstSuccess.

(** The second attempt is the first to load. *)
Definition flakyEnv : Env :=
  mkEnv true true true true None (fun _ attempt => (0 <? attempt)%nat) (fun _ => true)
        (fun _ => true) None None.

Lemma first_success_ends_retries_witness :
  loaderOf flakyEnv Video "https://example.org/a.mp4" clip 0 initialWorld
  = (mkWorld 4 [LoadAttempt 0 0; Sleep 300; LoadAttempt 0 1], inl (LoadedImage 0)).
Proof.
  apply (first_success_ends_retries flakyEnv eq_refl Video "https://example.org/a.mp4"
                                    clip 0 1 initialWorld).
  - discriminate.
  - unfold IMAGE_LOAD_RETRIES. lia.
  - intros [|a] Ha; [reflexivity | lia].
  - reflexivity.
Defined.

(** * The preloader *)

Section Preloader.

Variable env : Env.

Lemma throwIfAborted_cases (w w' : World) (res : unit + RenderError) :
  throwIfAborted env w = (w', res) ->
  w' = w /\
  ((res = inl tt /\ aborted env w = false) \/
   (res = inr AbortError /\ aborted env w = true)).
Proof.
  unfold throwIfAborted. destruct (aborted env w); intros [= <- <-]; auto.
Qed.

Lemma catch_inv {A : Type} (m : M A) (h : RenderError -> M A) (w w' : World)
      (res : A + RenderError) :
  catch m h w = (w', res) ->
  (exists x, m w = (w', inl x) /\ res = inl x) \/
  (exists w1 e, m w = (w1, inr e) /\ h e w1 = (w', res)).
Proof.
  unfold catch. destruct (m w) as [w1 [x|e]]; intros E.
  - left. injection E as <- <-. eauto.
  - right. eauto.
Qed.

(** What is prepared for the scene at index [i]. *)
Definition preparedFor (scene : Scene) (i : nat) (image : PreloadedImage) : Prop :=
  sceneId image = id scene /\
  (source image = LoadedImage i \/
   (source image = StylizedFallback (computeSceneAccentColor scene) /\
    canvasContext env = true) \/
   (source image = GrayPixel /\ canvasContext env = false)).

Fixpoint preparedAll (i : nat) (scenes : list Scene) (images : list PreloadedImage)
  : Prop :=
  match scenes, images with
  | [], [] => True
  | scene :: scenes', image :: images' =>
      preparedFor scene i image /\ preparedAll (S i) scenes' images'
  | _, _ => False
  end.

(** The load of the base image, with the worker's [catch] around it. *)
Lemma baseImage_cases (scene : Scene) (i : nat) (w w' : World)
      (res : ImageSource + RenderError) :
  catch (match footageType scene with
         | Video => loadVideoFrameWithRetries env (footageUrl scene) scene i
         | Image => loadImageWithRetries env (footageUrl scene) scene i
         end)
        (fun error =>
           if isAbortError error then throw error
           else createStylizedFallbackImage env scene) w = (w', res) ->
  (clock w <= clock w')%nat /\ loaderOutcome env scene i w' res.
Proof.
  intros E.
  destruct (loaderOf_cases env (footageType scene) (footageUrl scene) scene i w)
    as (w1 & r & added & rest & E1 & _ & _ & C & O).
  assert (E1' : match footageType scene with
                | Video => loadVideoFrameWithRetries env (footageUrl scene) scene i
                | Image => loadImageWithRetries env (footageUrl scene) scene i
                end w = (w1, r))
    by (destruct (footageType scene); exact E1).
  apply catch_inv in E. destruct E as [(x & E & ->) | (w2 & e & E & H)];
    rewrite E1' in E; injection E as Hw Hr; subst; [auto|].
  destruct O as [(Hr & A) | [Hr | [(Hr & _) | (Hr & _)]]]; try discriminate Hr.
  injection Hr as ->. cbn [isAbortError] in H. unfold throw in H.
  injection H as Hw Hr. subst.
  split; [exact C | left; auto].
Qed.

Lemma createPreloadedImageFromElement_cases (key : string) (element : ImageSource)
      (w w' : World) (res : PreloadedImage + RenderError) :
  createPreloadedImageFromElement env key element w = (w', res) ->
  (clock w <= clock w')%nat /\
  ((res = inr AbortError /\ w' = w /\ aborted env w = true) \/
   exists bitmap, res = inl (mkPreloaded key element bitmap)).
Proof.
  unfold createPreloadedImageFromElement, bind, catch, throwIfAborted, tick, ret.
  destruct (aborted env w) eqn:A; [intros [= <- <-]; split; [lia | left; auto]|].
  destruct (imageBitmap env); [|intros [= <- <-]; split; [lia | right; eauto]].
  cbn [clock trace].
  match goal with
  | |- context [if aborted env ?x then _ else _] => destruct (aborted env x)
  end; simpl; intros E; injection E as Hw Hr; subst;
    simpl; (split; [lia | right; eauto]).
Qed.

Lemma worker_cases (t : nat) (remaining : list Scene) :
  forall (i c : nat) (results : list PreloadedImage) (w w' : World)
         (res : list PreloadedImage + RenderError),
    worker env onPreloadProgress t remaining i c results w = (w', res) ->
    (clock w <= clock w')%nat /\
    ((res = inr AbortError /\ aborted env w' = true) \/
     exists more, res = inl (results ++ more) /\ preparedAll i remaining more).
Proof.
  induction remaining as [|scene rest IH]; intros i c results w w' res E.
  - cbn [worker] in E.
    apply bind_inv in E. destruct E as [(w1 & x & E1 & E) | (e & E1 & ->)];
      apply throwIfAborted_cases in E1; destruct E1 as [-> [[H A] | [H A]]];
      try discriminate H.
    + apply ret_inv in E. destruct E as [-> ->]. split; [lia|].
      right. exists []. rewrite app_nil_r. simpl. auto.
    + injection H as ->. split; [lia | left; auto].
  - cbn [worker] in E.
    apply bind_inv in E. destruct E as [(w1 & x & E1 & E) | (e & E1 & ->)];
      apply throwIfAborted_cases in E1; destruct E1 as [-> [[H A] | [H A]]];
      try discriminate H.
    2:{ injection H as ->. split; [lia | left; auto]. }
    apply bind_inv in E. destruct E as [(w2 & baseImage & E2 & E) | (e & E2 & ->)];
      apply baseImage_cases in E2; destruct E2 as [C2 O2].
    2:{ split; [exact C2|]. left.
        destruct O2 as [(Hr & A2) | [Hr | [(Hr & _) | (Hr & _)]]];
          try discriminate Hr.
        injection Hr as ->. auto. }
    apply bind_inv in E. destruct E as [(w3 & prepared & E3 & E) | (e & E3 & ->)];
      apply createPreloadedImageFromElement_cases in E3; destruct E3 as [C3 O3].
    2:{ split; [lia|]. left.
        destruct O3 as [(Hr & -> & A3) | (b & Hr)]; [|discriminate Hr].
        injection Hr as ->. auto. }
    destruct O3 as [(Hr & _) | (b & Hr)]; [discriminate Hr|].
    injection Hr as ->.
    apply bind_inv in E. destruct E as [(w4 & y & E4 & E) | (e & E4 & ->)];
      unfold onPreloadProgress, updateOverallProgress in E4;
      apply emit_inv in E4; destruct E4 as (_ & C4 & H4); [|discriminate H4].
    destruct (IH _ _ _ _ _ _ E) as [C5 O5].
    split; [lia|].
    destruct O5 as [O5 | (more & -> & P)]; [left; exact O5|].
    right. exists (mkPreloaded (id scene) baseImage b :: more).
    split; [now rewrite <- app_assoc|].
    cbn [preparedAll]. split; [|exact P].
    unfold preparedFor. cbn [sceneId source]. split; [reflexivity|].
    destruct O2 as [(Hr & _) | [Hr | [(Hr & Hc) | (Hr & Hc)]]];
      try discriminate Hr; injection Hr as ->; auto.
Qed.

Lemma preparedAll_ids (i : nat) (scenes : list Scene) (images : list PreloadedImage) :
  preparedAll i scenes images -> map sceneId images = map id scenes.
Proof.
  revert i images. induction scenes as [|s scenes IH]; intros i [|p images] H;
    simpl in *; try contradiction; auto.
  destruct H as [[Hid _] H]. now rewrite Hid, (IH _ _ H).
Qed.

Lemma lookupImage_found (images : list PreloadedImage) (key : string) :
  In key (map sceneId images) -> exists image, lookupImage images key = Some image.
Proof.
  intros Hin. apply in_map_iff in Hin. destruct Hin as (p & Hp & Hin).
  unfold lookupImage.
  destruct (find (fun item => String.eqb (sceneId item) key) (rev images)) as [q|] eqn:F;
    [eauto|].
  exfalso. apply in_rev in Hin.
  pose proof (find_none _ _ F p Hin) as Hf. cbv beta in Hf.
  rewrite Hp, String.eqb_refl in Hf. discriminate.
Qed.

Lemma preloadAllImages_cases (scenes : list Scene) (w w' : World)
      (res : list PreloadedImage + RenderError) :
  preloadAllImages env scenes onPreloadProgress w = (w', res) ->
  (res = inr AbortError /\ aborted env w' = true) \/
  exists results, res = inl results /\ preparedAll 0 scenes results.
Proof.
  intros E. unfold preloadAllImages in E.
  apply bind_inv in E. destruct E as [(w1 & x1 & E1 & E) | (e & E1 & ->)];
    unfold onPreloadProgress at 1, updateOverallProgress in E1;
    apply emit_inv in E1; destruct E1 as (_ & C1 & H1); [|discriminate H1].
  apply bind_inv in E. destruct E as [(w2 & results & E2 & E) | (e & E2 & ->)];
    apply worker_cases in E2; destruct E2 as [C2 O2].
  2:{ left. destruct O2 as [O2 | (more & Hr & _)]; [exact O2 | discriminate Hr]. }
  destruct O2 as [(Hr & _) | (more & Hr & P)]; [discriminate Hr|].
  injection Hr as ->.
  apply bind_inv in E. destruct E as [(w3 & x3 & E3 & E) | (e & E3 & ->)];
    unfold onPreloadProgress, updateOverallProgress in E3;
    apply emit_inv in E3; destruct E3 as (_ & C3 & H3); [|discriminate H3].
  apply ret_inv in E. destruct E as [-> ->]. right. eauto.
Qed.

Lemma preparedAll_each (scenes : list Scene) :
  forall (i : nat) (images : list PreloadedImage),
    preparedAll i scenes images ->
    length images = length scenes /\
    forall j scene, nth_error scenes j = Some scene ->
                    exists image, In image images /\ preparedFor scene (i + j) image.
Proof.
  induction scenes as [|s scenes IH]; intros i [|p images] H; simpl in H;
    try contradiction.
  - split; [reflexivity|]. intros [|j] scene Hj; discriminate Hj.
  - destruct H as [Hp H]. destruct (IH _ _ H) as [Hlen Heach].
    split; [simpl; now rewrite Hlen|].
    intros [|j] scene Hj; simpl in Hj.
    + injection Hj as <-. exists p. rewrite Nat.add_0_r. split; [now left | exact Hp].
    + destruct (Heach j scene Hj) as (image & Hin & Himage).
      exists image. split; [now right|].
      now replace (i + S j)%nat with (S i + j)%nat by lia.
Qed.

(** X14: The preloader cannot fail on assets.  It either rejects with
    [AbortError], the signal having fired, or resolves with as many
    prepared images as there are scenes, among them, for every scene, one
    stored under the scene's id that holds the scene's loaded image or
    its fallback art; so every later lookup by scene id finds an image. *)
Theorem preload_outcome (scenes : list Scene) (w : World) :
  let w' := fst (preloadAllImages env scenes onPreloadProgress w) in
  match snd (preloadAllImages env scenes onPreloadProgress w) with
  | inl results =>
      length results = length scenes /\
      (forall i scene,
          nth_error scenes i = Some scene ->
          exists image, In image results /\ preparedFor scene i image) /\
      forall scene, In scene scenes ->
                    exists image, lookupImage results (id scene) = Some image
  | inr error =>
      error = AbortError /\
      exists t, abortAt env = Some t /\ (t <= clock w')%nat
  end.
Proof.
  destruct (preloadAllImages env scenes onPreloadProgress w) as [w' res] eqn:E.
  cbn [fst snd]. cbv zeta.
  pose proof (preloadAllImages_cases scenes w w' res E) as H.
  destruct H as [(-> & A) | (results & -> & P)].
  - split; [reflexivity|]. unfold aborted in A.
    destruct (abortAt env) as [t|]; [|discriminate].
    exists t. split; [reflexivity|]. now apply Nat.leb_le.
  - pose proof (preparedAll_ids _ _ _ P) as Hids.
    destruct (preparedAll_each _ _ _ P) as [Hlen Heach].
    split; [exact Hlen|]. split; [exact Heach|].
    intros scene Hin. apply lookupImage_found. rewrite Hids. now apply in_map.
Qed.

End Preloader.

(** * How a render can end *)

Section Outcomes.

(** [Outcome m P E]: whatever the world, a value [m] resolves with
    satisfies [P] and an error it rejects with satisfies [E]. *)
Definition Outcome {A : Type} (m : M A) (P : A -> Prop) (E : RenderError -> Prop)
  : Prop :=
  forall w, match snd (m w) with inl x => P x | inr e => E e end.

Lemma Outcome_ret {A : Type} (x : A) (P : A -> Prop) (E : RenderError -> Prop) :
  P x -> Outcome (ret x) P E.
Proof. intros H w. exact H. Qed.

Lemma Outcome_throw {A : Type} (e : RenderError) (P : A -> Prop)
      (E : RenderError -> Prop) :
  E e -> Outcome (@throw A e) P E.
Proof. intros H w. exact H. Qed.

Lemma Outcome_emit (ev : Event) (P : unit -> Prop) (E : RenderError -> Prop) :
  P tt -> Outcome (emit ev) P E.
Proof. intros H w. exact H. Qed.

Lemma Outcome_tick (P : unit -> Prop) (E : RenderError -> Prop) :
  P tt -> Outcome tick P E.
Proof. intros H w. exact H. Qed.

Definition cancellable (env : Env) : Prop := exists t, abortAt env = Some t.

Lemma aborted_cancellable (env : Env) (w : World) :
  aborted env w = true -> cancellable env.
Proof.
  unfold aborted, cancellable. destruct (abortAt env) as [t|]; [eauto | discriminate].
Qed.

Lemma Outcome_throwIfAborted (env : Env) (P : unit -> Prop) (E : RenderError -> Prop) :
  P tt -> (cancellable env -> E AbortError) -> Outcome (throwIfAborted env) P E.
Proof.
  intros HP HE w. unfold throwIfAborted.
  destruct (aborted env w) eqn:A; cbn [snd]; [|exact HP].
  apply HE. now apply aborted_cancellable with w.
Qed.

Lemma Outcome_bind {A B : Type} (m : M A) (k : A -> M B) (P : A -> Prop)
      (Q : B -> Prop) (E : RenderError -> Prop) :
  Outcome m P E -> (forall x, P x -> Outcome (k x) Q E) -> Outcome (bind m k) Q E.
Proof.
  intros Hm Hk w. unfold bind. specialize (Hm w).
  destruct (m w) as [w1 [x|e]]; cbn [snd] in *; [now apply Hk | exact Hm].
Qed.

Lemma Outcome_catch {A : Type} (m : M A) (h : RenderError -> M A) (P : A -> Prop)
      (E' E : RenderError -> Prop) :
  Outcome m P E' -> (forall e, E' e -> Outcome (h e) P E) -> Outcome (catch m h) P E.
Proof.
  intros Hm Hh w. unfold catch. specialize (Hm w).
  destruct (m w) as [w1 [x|e]]; cbn [snd] in *; [exact Hm | now apply Hh].
Qed.

End Outcomes.

(** One step of a computation whose intermediate value does not matter. *)
Ltac outcome_step :=
  first
    [ apply Outcome_ret; solve [auto]
    | apply Outcome_throw; solve [eauto 8]
    | apply Outcome_emit; solve [auto]
    | apply Outcome_tick; solve [auto]
    | apply Outcome_throwIfAborted; solve [auto]
    | apply (Outcome_bind _ _ (fun _ => True)); [|intros ? _]
    | match goal with
      | |- Outcome (if ?c then _ else _) _ _ => destruct c eqn:?
      | |- Outcome (match ?c with _ => _ end) _ _ => destruct c eqn:?
      end ].

Ltac outcome := repeat outcome_step.

Section RendererOutcomes.

Variable env : Env.

(** The ways in which the WebCodecs renderer can reject, each with what
    must be the case in the browser for it to happen. *)
Definition webCodecsError (e : RenderError) : Prop :=
  (e = AbortError /\ cancellable env) \/
  (e = Failure "Failed to get canvas context for WebCodecs video generation."
   /\ canvasContext env = false) \/
  (e = Failure "WebCodecs API is unavailable in this browser."
   /\ webCodecs env = false) \/
  (e = Failure "VideoEncoder error" /\ exists k, encoderFault env = Some k).

(** The same for the MediaRecorder renderer. *)
Definition mediaRecorderError (e : RenderError) : Prop :=
  (e = AbortError /\ cancellable env) \/
  (e = Failure "Failed to get canvas context for video generation."
   /\ canvasContext env = false) \/
  (e = Failure "MediaRecorder API or canvas.captureStream is not supported in this browser."
   /\ mediaRecorder env = false) \/
  (e = Failure "draw error" /\ exists k, recorderFault env = Some k).

(** What the WebCodecs renderer resolves with: MP4 only for a download
    and only when one of the AVC candidates is supported, WebM otherwise. *)
Definition webCodecsResult (options : VideoRenderOptions) (r : GeneratedVideoResult)
  : Prop :=
  (r = mkResult MP4_MIMETYPE MP4 /\ mode options = Some Download /\
   exists codec, In codec MP4_CODEC_CANDIDATES /\ configSupported env codec = true) \/
  (r = mkResult WEBM_MIMETYPE WebM /\
   (mode options = Some Download ->
    forall codec, In codec MP4_CODEC_CANDIDATES -> configSupported env codec = false)).

(** What the MediaRecorder renderer resolves with: the first supported
    candidate type, or plain WebM when the browser supports none. *)
Definition mediaRecorderResult (r : GeneratedVideoResult) : Prop :=
  In (mimeType r, format r) mimeTypeCandidates /\
  (typeSupported env (mimeType r) = true \/
   (r = mkResult WEBM_MIMETYPE WebM /\
    forall candidate, In candidate mimeTypeCandidates ->
                      typeSupported env (fst candidate) = false)).

Definition allFound (images : list PreloadedImage) (scenes : list Scene) : Prop :=
  forall scene, In scene scenes -> exists image, lookupImage images (id scene) = Some image.

Lemma preloadAllImages_outcome (scenes : list Scene) (E : RenderError -> Prop) :
  (cancellable env -> E AbortError) ->
  Outcome (preloadAllImages env scenes (fun val => updateOverallProgress val (2 # 10) 0))
          (fun images => allFound images scenes) E.
Proof.
  intros HE w.
  change (fun val => updateOverallProgress val (2 # 10) 0) with onPreloadProgress.
  destruct (preloadAllImages env scenes onPreloadProgress w) as [w' res] eqn:Erun.
  cbn [snd].
  destruct (preloadAllImages_cases env scenes w w' res Erun)
    as [(-> & A) | (results & -> & P)].
  - apply HE. now apply aborted_cancellable with w'.
  - intros scene Hin. apply lookupImage_found.
    rewrite (preparedAll_ids env _ _ _ P). now apply in_map.
Qed.

Lemma firstSupported_outcome (candidates : list string) (E : RenderError -> Prop) :
  Outcome (firstSupported env candidates)
          (fun found =>
             match found with
             | Some codec => In codec candidates /\ configSupported env codec = true
             | None => forall codec, In codec candidates -> configSupported env codec = false
             end) E.
Proof.
  induction candidates as [|codec rest IH]; cbn [firstSupported].
  - apply Outcome_ret. intros codec [].
  - apply (Outcome_bind _ _ (fun _ => True)); [apply Outcome_tick; auto | intros _ _].
    destruct (configSupported env codec) eqn:S.
    + apply Outcome_ret. split; [now left | exact S].
    + intros w. specialize (IH w).
      destruct (snd (firstSupported env rest w)) as [[c|]|e]; [| |exact IH].
      * destruct IH as [Hin Hs]. split; [now right | exact Hs].
      * intros c [<- | Hin]; [exact S | now apply IH].
Qed.

Lemma encodeSceneFrames_outcome (D T Y : Z) (key : string) (remaining : nat)
      (E : RenderError -> Prop) :
  (cancellable env -> E AbortError) ->
  ((exists k, encoderFault env = Some k) -> E (Failure "VideoEncoder error")) ->
  forall r sy, Outcome (encodeSceneFrames env D T Y key remaining r sy) (fun _ => True) E.
Proof.
  intros HA HF. induction remaining as [|remaining IH]; intros r sy;
    cbn [encodeSceneFrames].
  - outcome.
  - unfold updateOverallProgress. outcome. apply IH.
Qed.

Lemma encodeScenes_outcome (D T Y : Z) (images : list PreloadedImage)
      (renderPlan : list SceneRenderPlanItem) (E : RenderError -> Prop) :
  (cancellable env -> E AbortError) ->
  ((exists k, encoderFault env = Some k) -> E (Failure "VideoEncoder error")) ->
  (forall item, In item renderPlan ->
                exists image, lookupImage images (id (scene item)) = Some image) ->
  forall r sy, Outcome (encodeScenes env D T Y images renderPlan r sy) (fun _ => True) E.
Proof.
  intros HA HF. induction renderPlan as [|item rest IH]; intros Hfound r sy;
    cbn [encodeScenes].
  - outcome.
  - apply (Outcome_bind _ _ (fun _ => True));
      [apply Outcome_throwIfAborted; auto | intros _ _].
    destruct (Hfound item (or_introl eq_refl)) as [image ->].
    apply (Outcome_bind _ _ (fun _ => True));
      [now apply encodeSceneFrames_outcome | intros st _].
    apply (Outcome_bind _ _ (fun _ => True)); [outcome | intros sy' _].
    apply IH. intros item' Hin. apply Hfound. now right.
Qed.

Lemma recordSceneFrames_outcome (T : Z) (images : list PreloadedImage) (key : string)
      (remaining : nat) (E : RenderError -> Prop) :
  (cancellable env -> E AbortError) ->
  ((exists k, recorderFault env = Some k) -> E (Failure "draw error")) ->
  (exists image, lookupImage images key = Some image) ->
  forall r, Outcome (recordSceneFrames env T images key remaining r) (fun _ => True) E.
Proof.
  intros HA HF [image Himage]. induction remaining as [|remaining IH]; intros r;
    cbn [recordSceneFrames].
  - outcome.
  - rewrite Himage. unfold updateOverallProgress. outcome. apply IH.
Qed.

Lemma recordScenes_outcome (T : Z) (images : list PreloadedImage)
      (renderPlan : list SceneRenderPlanItem) (E : RenderError -> Prop) :
  (cancellable env -> E AbortError) ->
  ((exists k, recorderFault env = Some k) -> E (Failure "draw error")) ->
  (forall item, In item renderPlan ->
                exists image, lookupImage images (id (scene item)) = Some image) ->
  forall r, Outcome (recordScenes env T images renderPlan r) (fun _ => True) E.
Proof.
  intros HA HF. induction renderPlan as [|item rest IH]; intros Hfound r;
    cbn [recordScenes].
  - outcome.
  - apply (Outcome_bind _ _ (fun _ => True)).
    + apply recordSceneFrames_outcome; auto. apply Hfound. now left.
    + intros r' _. apply IH. intros item' Hin. apply Hfound. now right.
Qed.

Lemma plan_images_found (images : list PreloadedImage) (scenes : list Scene)
      (fps : Q) (mode : RenderMode) :
  allFound images scenes ->
  forall item, In item (buildRenderPlan scenes fps mode) ->
               exists image, lookupImage images (id (scene item)) = Some image.
Proof.
  intros Hfound item Hin. apply Hfound.
  rewrite <- (buildRenderPlan_scenes scenes fps mode). now apply in_map.
Qed.

Lemma generateVideoWithWebCodecs_outcome (scenes : list Scene)
      (options : VideoRenderOptions) (config : RenderConfig) :
  Outcome (generateVideoWithWebCodecs env scenes options config)
          (webCodecsResult options) webCodecsError.
Proof.
  assert (HA : cancellable env -> webCodecsError AbortError)
    by (intros H; left; auto).
  assert (HF : (exists k, encoderFault env = Some k) ->
               webCodecsError (Failure "VideoEncoder error"))
    by (intros H; right; right; right; auto).
  unfold generateVideoWithWebCodecs.
  apply (Outcome_bind _ _ (fun _ => True)); [apply Outcome_emit; auto | intros _ _].
  destruct (canvasContext env) eqn:Hc; cbn [negb];
    [|apply Outcome_throw; right; left; auto].
  cbv zeta.
  apply (Outcome_bind _ _ (fun images => allFound images scenes));
    [now apply preloadAllImages_outcome | intros images Himages].
  apply (Outcome_bind _ _ (fun _ => True));
    [apply Outcome_throwIfAborted; auto | intros _ _].
  destruct (webCodecs env) eqn:Hw; cbn [negb];
    [|apply Outcome_throw; right; right; left; auto].
  apply (Outcome_bind _ _
           (fun found =>
              match found with
              | Some _ =>
                  mode options = Some Download /\
                  exists codec, In codec MP4_CODEC_CANDIDATES /\
                                configSupported env codec = true
              | None =>
                  mode options = Some Download ->
                  forall codec, In codec MP4_CODEC_CANDIDATES ->
                                configSupported env codec = false
              end)).
  { destruct (mode options) as [[|]|] eqn:Hm.
    - apply Outcome_ret. discriminate.
    - intros w. pose proof (firstSupported_outcome MP4_CODEC_CANDIDATES webCodecsError w)
        as H.
      destruct (snd (firstSupported env MP4_CODEC_CANDIDATES w)) as [[c|]|e];
        [split; eauto | intros _; exact H | exact H].
    - apply Outcome_ret. discriminate. }
  intros found Hfound.
  apply (Outcome_bind _ _
           (fun chosen =>
              webCodecsResult options
                (mkResult (match chosen with
                           | MP4 => MP4_MIMETYPE
                           | WebM => WEBM_MIMETYPE
                           end) chosen))).
  { destruct found as [codec|].
    - apply Outcome_ret. left. split; [reflexivity | exact Hfound].
    - apply (Outcome_bind _ _ (fun _ => True)).
      + intros w.
        pose proof (firstSupported_outcome WEB_CODECS_WEBM_CODEC_CANDIDATES
                                           webCodecsError w) as H.
        destruct (snd (firstSupported env WEB_CODECS_WEBM_CODEC_CANDIDATES w));
          [exact I | exact H].
      + intros _ _. apply Outcome_ret. right. split; [reflexivity | exact Hfound]. }
  intros chosen Hchosen.
  apply (Outcome_bind _ _ (fun _ => True)).
  { apply encodeScenes_outcome; auto. now apply plan_images_found. }
  intros _ _.
  apply (Outcome_bind _ _ (fun _ => True)); [apply Outcome_tick; auto | intros _ _].
  apply (Outcome_bind _ _ (fun _ => True)); [apply Outcome_emit; auto | intros _ _].
  apply Outcome_ret. exact Hchosen.
Qed.

Lemma chooseMimeType_result :
  mediaRecorderResult
    (match chooseMimeType env with
     | Some (type, fmt) => mkResult type fmt
     | None => mkResult WEBM_MIMETYPE WebM
     end).
Proof.
  unfold mediaRecorderResult, chooseMimeType.
  destruct (find (fun candidate => typeSupported env (fst candidate)) mimeTypeCandidates)
    as [[type fmt]|] eqn:F.
  - apply find_some in F. destruct F as [Hin Hs]. cbn [mimeType format fst] in *.
    split; [exact Hin | left; exact Hs].
  - cbn [mimeType format]. split.
    + unfold mimeTypeCandidates, WEBM_MIMETYPE. simpl. auto.
    + right. split; [reflexivity|].
      intros candidate Hin. exact (find_none _ _ F candidate Hin).
Qed.

Lemma generateWebMWithMediaRecorder_outcome (scenes : list Scene)
      (options : VideoRenderOptions) (config : RenderConfig) :
  Outcome (generateWebMWithMediaRecorder env scenes options config)
          mediaRecorderResult mediaRecorderError.
Proof.
  assert (HA : cancellable env -> mediaRecorderError AbortError)
    by (intros H; left; auto).
  assert (HF : (exists k, recorderFault env = Some k) ->
               mediaRecorderError (Failure "draw error"))
    by (intros H; right; right; right; auto).
  unfold generateWebMWithMediaRecorder.
  apply (Outcome_bind _ _ (fun _ => True)); [apply Outcome_emit; auto | intros _ _].
  destruct (canvasContext env) eqn:Hc; cbn [negb];
    [|apply Outcome_throw; right; left; auto].
  destruct (mediaRecorder env) eqn:Hm; cbn [negb];
    [|apply Outcome_throw; right; right; left; auto].
  apply (Outcome_bind _ _ (fun images => allFound images scenes));
    [now apply preloadAllImages_outcome | intros images Himages].
  apply (Outcome_bind _ _ (fun _ => True));
    [apply Outcome_throwIfAborted; auto | intros _ _].
  cbv zeta.
  apply (Outcome_bind _ _ (fun _ => True));
    [apply Outcome_throwIfAborted; auto | intros _ _].
  apply (Outcome_bind _ _ (fun _ => True)).
  { apply recordScenes_outcome; auto. now apply plan_images_found. }
  intros _ _.
  apply (Outcome_bind _ _ (fun _ => True)); [apply Outcome_tick; auto | intros _ _].
  apply (Outcome_bind _ _ (fun _ => True));
    [apply Outcome_throwIfAborted; auto | intros _ _].
  apply (Outcome_bind _ _ (fun _ => True)); [apply Outcome_emit; auto | intros _ _].
  apply Outcome_ret. apply chooseMimeType_result.
Qed.

(** X15: The WebCodecs renderer resolves with MP4 only for a download for
    which an AVC codec is supported, and with WebM otherwise.  When it
    rejects, it is with [AbortError] (a signal was given), for want of a
    2D context, for want of the WebCodecs API, or on an encoder error;
    the error for a missing preloaded image cannot occur. *)
Theorem webcodecs_outcome (scenes : list Scene) (options : VideoRenderOptions)
        (config : RenderConfig) (w : World) :
  match snd (generateVideoWithWebCodecs env scenes options config w) with
  | inl result => webCodecsResult options result
  | inr error =>
      webCodecsError error /\
      error <> Failure "Internal error: Preloaded image missing"
  end.
Proof.
  pose proof (generateVideoWithWebCodecs_outcome scenes options config w) as H.
  destruct (snd (generateVideoWithWebCodecs env scenes options config w)) as [r|e];
    [exact H|].
  split; [exact H|].
  destruct H as [(-> & _) | [(-> & _) | [(-> & _) | (-> & _)]]]; discriminate.
Qed.

(** X16: The MediaRecorder renderer never rejects for a missing preloaded
    image, and each of these rejections tells what was the case: an
    [AbortError] that a signal was given, the canvas error that no 2D
    context could be had, the MediaRecorder error that the API is
    missing. *)
Theorem mediarecorder_outcome (scenes : list Scene) (options : VideoRenderOptions)
        (config : RenderConfig) (w : World) :
  match snd (generateWebMWithMediaRecorder env scenes options config w) with
  | inl result => True
  | inr error =>
      error <> Failure "Internal error: Preloaded image missing" /\
      (error = AbortError -> cancellable env) /\
      (error = Failure "Failed to get canvas context for video generation." ->
       canvasContext env = false) /\
      (error = Failure "MediaRecorder API or canvas.captureStream is not supported in this browser." ->
       mediaRecorder env = false)
  end.
Proof.
  pose proof (generateWebMWithMediaRecorder_outcome scenes options config w) as H.
  destruct (snd (generateWebMWithMediaRecorder env scenes options config w)) as [r|e];
    [exact I|].
  destruct H as [(-> & H) | [(-> & H) | [(-> & H) | (-> & H)]]];
    repeat split; try discriminate; auto.
Qed.

Lemma generateWebMFromScenes_outcome (scenes : list Scene)
      (options : VideoRenderOptions) :
  Outcome (generateWebMFromScenes env scenes options) (fun _ => True)
          mediaRecorderError.
Proof.
  unfold generateWebMFromScenes. cbv zeta.
  assert (HM : Outcome (generateWebMWithMediaRecorder env scenes options
                          (resolveOptimizedRenderConfig (modeOf options) scenes))
                       (fun _ => True) mediaRecorderError).
  { intros w.
    pose proof (generateWebMWithMediaRecorder_outcome scenes options
                  (resolveOptimizedRenderConfig (modeOf options) scenes) w) as H.
    destruct (snd (generateWebMWithMediaRecorder env scenes options _ w));
      [exact I | exact H]. }
  destruct (hasWebCodecsSupport env); [|exact HM].
  apply (Outcome_catch _ _ _ webCodecsError); [|intros e _; exact HM].
  intros w.
  pose proof (generateVideoWithWebCodecs_outcome scenes options
                (resolveOptimizedRenderConfig (modeOf options) scenes) w) as H.
  destruct (snd (generateVideoWithWebCodecs env scenes options _ w));
    [exact I | exact H].
Qed.

(** X17: A rejection of the WebCodecs renderer never reaches the caller of
    the entry point: the render rejects neither for want of the WebCodecs
    API nor for want of the WebCodecs canvas context, nor for a missing
    preloaded image, and it rejects with [AbortError] only when a signal
    was given. *)
Theorem render_error_origin (scenes : list Scene) (options : VideoRenderOptions)
        (w : World) :
  match snd (generateWebMFromScenes env scenes options w) with
  | inl result => True
  | inr error =>
      error <> Failure "WebCodecs API is unavailable in this browser." /\
      error <> Failure "Failed to get canvas context for WebCodecs video generation." /\
      error <> Failure "Internal error: Preloaded image missing" /\
      (error = AbortError -> cancellable env)
  end.
Proof.
  pose proof (generateWebMFromScenes_outcome scenes options w) as H.
  destruct (snd (generateWebMFromScenes env scenes options w)) as [r|e]; [exact I|].
  destruct H as [(-> & H) | [(-> & H) | [(-> & H) | (-> & H)]]];
    repeat split; try discriminate; auto.
Qed.


End RendererOutcomes.


(** * What a resolved render has drawn *)

Section DrawnFrames.

Variable env : Env.




















End DrawnFrames.



(** * The image cache *)

Section ImageCache.

Import ImagePreload.

Variable internal : Scene -> option bool.

(** The state of a [Map]: distinct keys; and the bound the service keeps. *)
Definition CacheOk (cache : Cache) : Prop :=
  NoDup (map fst cache) /\ (length cache <= maxCacheSize)%nat.

Lemma mapGet_absent (key : string) (cache : Cache) :
  mapGet key cache = None <-> ~ In key (map fst cache).
Proof.
  unfold mapGet. induction cache as [|[k v] rest IH]; simpl.
  - tauto.
  - destruct (String.eqb k key) eqn:E; simpl.
    + apply String.eqb_eq in E. split; [discriminate | intros H; exfalso; auto].
    + apply String.eqb_neq in E. rewrite IH. tauto.
Qed.

Lemma mapHas_false (key : string) (cache : Cache) :
  mapHas key cache = false <-> ~ In key (map fst cache).
Proof.
  rewrite <- mapGet_absent. unfold mapHas.
  destruct (mapGet key cache); split; congruence.
Qed.

Lemma mapSet_absent (key : string) (value : PreloadedImage) (cache : Cache) :
  ~ In key (map fst cache) -> mapSet key value cache = cache ++ [(key, value)].
Proof.
  induction cache as [|[k v] rest IH]; simpl; intros H; [reflexivity|].
  destruct (String.eqb k key) eqn:E.
  - apply String.eqb_eq in E. exfalso. auto.
  - rewrite IH; auto.
Qed.

Lemma mapDelete_absent (key : string) (cache : Cache) :
  ~ In key (map fst cache) -> mapDelete key cache = cache.
Proof.
  unfold mapDelete. induction cache as [|[k v] rest IH]; simpl; intros H; [reflexivity|].
  destruct (String.eqb k key) eqn:E; simpl.
  - apply String.eqb_eq in E. exfalso. auto.
  - rewrite IH; auto.
Qed.

Lemma delete_prefix (pre suf : Cache) :
  NoDup (map fst (pre ++ suf)) ->
  fold_left (fun c entry => mapDelete (fst entry) c) pre (pre ++ suf) = suf.
Proof.
  induction pre as [|[k v] pre IH]; simpl; intros H; [reflexivity|].
  inversion H as [|? ? Hk Hrest]; subst.
  unfold mapDelete at 2. simpl. rewrite String.eqb_refl. simpl.
  fold (mapDelete k (pre ++ suf)). rewrite mapDelete_absent by exact Hk.
  now apply IH.
Qed.

Lemma manageCacheSize_skipn (cache : Cache) :
  NoDup (map fst cache) ->
  manageCacheSize cache = skipn (length cache - maxCacheSize) cache.
Proof.
  intros H. unfold manageCacheSize.
  destruct (length cache <=? maxCacheSize)%nat eqn:E.
  - apply Nat.leb_le in E.
    replace (length cache - maxCacheSize)%nat with 0%nat by lia. reflexivity.
  - cbv zeta.
    pose proof (delete_prefix (firstn (length cache - maxCacheSize) cache)
                              (skipn (length cache - maxCacheSize) cache)) as D.
    rewrite firstn_skipn in D. now apply D.
Qed.

Lemma NoDup_keys_skipn (n : nat) (cache : Cache) :
  NoDup (map fst cache) -> NoDup (map fst (skipn n cache)).
Proof.
  intros H. rewrite <- (firstn_skipn n cache), map_app in H.
  now apply NoDup_app_remove_l in H.
Qed.

(** What a load that misses the cache and succeeds leaves in it. *)
Lemma stored (key : string) (value : PreloadedImage) (cache : Cache) :
  CacheOk cache -> ~ In key (map fst cache) ->
  let cache' := manageCacheSize (mapSet key value cache) in
  cache' = skipn (S (length cache) - maxCacheSize) (cache ++ [(key, value)]) /\
  CacheOk cache'.
Proof.
  intros [Hnd Hlen] Hk. cbv zeta. rewrite (mapSet_absent _ _ _ Hk).
  assert (Hnd' : NoDup (map fst (cache ++ [(key, value)]))).
  { rewrite map_app. simpl. apply NoDup_app; [exact Hnd | repeat constructor; auto|].
    intros k Hin [<- | []]. contradiction. }
  rewrite (manageCacheSize_skipn _ Hnd'), length_app. simpl length.
  replace (length cache + 1)%nat with (S (length cache)) by lia.
  split; [reflexivity|]. split; [now apply NoDup_keys_skipn|].
  rewrite length_skipn, length_app. cbn [length].
  unfold maxCacheSize in *. lia.
Qed.

Lemma loadImage_ok (scene : Scene) (cache : Cache) :
  CacheOk cache -> CacheOk (fst (loadImage internal scene cache)).
Proof.
  intros H. unfold loadImage. cbv zeta.
  destruct (mapHas _ cache) eqn:Hh; [exact H|].
  destruct (internal scene); [|exact H].
  apply stored; [exact H | now apply mapHas_false].
Qed.

(** X21: The cache never grows beyond [maxCacheSize] entries and its keys
    stay distinct: every call of [loadImage] keeps both, whether it hits,
    stores a new image or fails. *)
Theorem cache_stays_bounded (scene : Scene) (cache : Cache) :
  CacheOk cache ->
  CacheOk (fst (loadImage internal scene cache)).
Proof.
  intros H. pose proof (loadImage_ok scene cache H) as H'.
  destruct (loadImage internal scene cache) as [cache' outcome]. exact H'.
Qed.

Lemma find_append {A : Type} (f : A -> bool) (l1 l2 : list A) :
  find f (l1 ++ l2) = match find f l1 with Some x => Some x | None => find f l2 end.
Proof.
  induction l1 as [|x l1 IH]; simpl; [reflexivity|]. destruct (f x); auto.
Qed.

(** X22: An image that [loadImage] returns can be had again from [getImage]
    under the scene's id and URL: it is in the cache, also when storing
    it evicted another entry. *)
Theorem loaded_image_is_cached (scene : Scene) (cache cache' : Cache)
        (image : PreloadedImage) :
  CacheOk cache ->
  loadImage internal scene cache = (cache', Some image) ->
  getImage (id scene) (footageUrl scene) cache' = Some image.
Proof.
  intros H E. unfold loadImage in E. cbv zeta in E. unfold getImage.
  set (key := cacheKey (id scene) (footageUrl scene)) in *.
  destruct (mapHas key cache) eqn:Hh.
  - injection E as <- E. exact E.
  - destruct (internal scene) as [b|]; [|discriminate E].
    injection E as <- <-. apply mapHas_false in Hh.
    destruct (stored key (mkImage (id scene) b true) cache H Hh) as [-> _].
    destruct H as [Hnd Hlen].
    (* the new entry is last, and fewer entries are dropped than there were *)
    assert (Hdrop : (S (length cache) - maxCacheSize <= length cache)%nat)
      by (unfold maxCacheSize; lia).
    rewrite skipn_app.
    replace (S (length cache) - maxCacheSize - length cache)%nat with 0%nat by lia.
    cbn [skipn]. unfold mapGet. rewrite find_append.
    assert (Hnone : find (fun entry => String.eqb (fst entry) key)
                         (skipn (S (length cache) - maxCacheSize) cache) = None).
    { destruct (find _ (skipn _ cache)) as [[k v]|] eqn:F; [|reflexivity].
      exfalso. apply find_some in F. destruct F as [Hin Hk]. simpl in Hk.
      apply String.eqb_eq in Hk. subst k. apply Hh.
      apply in_map_iff. exists (key, v). split; [reflexivity|].
      rewrite <- (firstn_skipn (S (length cache) - maxCacheSize) cache).
      apply in_or_app. now right. }
    rewrite Hnone. simpl. now rewrite String.eqb_refl.
Qed.

(** X23: The cache evicts in insertion order: storing a new image in a full
    cache drops the oldest entry and nothing else, while a hit leaves the
    cache as it is and so does not keep an entry from being evicted. *)
Theorem cache_evicts_oldest_first (scene : Scene) (cache : Cache) :
  CacheOk cache ->
  length cache = maxCacheSize ->
  match mapGet (cacheKey (id scene) (footageUrl scene)) cache, internal scene with
  | Some cached, _ => loadImage internal scene cache = (cache, Some cached)
  | None, Some withBitmap =>
      loadImage internal scene cache
      = (tl cache ++ [(cacheKey (id scene) (footageUrl scene),
                       mkImage (id scene) withBitmap true)],
         Some (mkImage (id scene) withBitmap true))
  | None, None => loadImage internal scene cache = (cache, None)
  end.
Proof.
  intros H Hfull. unfold loadImage, mapHas. cbv zeta.
  set (key := cacheKey (id scene) (footageUrl scene)).
  destruct (mapGet key cache) as [cached|] eqn:G; [reflexivity|].
  destruct (internal scene) as [b|]; [|reflexivity].
  apply mapGet_absent in G.
  destruct (stored key (mkImage (id scene) b true) cache H G) as [-> _].
  rewrite Hfull. replace (S maxCacheSize - maxCacheSize)%nat with 1%nat
    by (unfold maxCacheSize; lia).
  destruct cache as [|entry rest]; [discriminate Hfull|]. reflexivity.
Qed.

(** X24: The cache key joins id and URL with a dash, so two scenes whose id
    and URL concatenate to the same text share one entry: once the first
    has been loaded into an empty cache, a load of the second is a hit and
    returns the image of the first, [sceneId] included, without loading
    anything. *)
Theorem cache_key_collision (first second : Scene) (withBitmap : bool) :
  cacheKey (id first) (footageUrl first) = cacheKey (id second) (footageUrl second) ->
  internal first = Some withBitmap ->
  loadImage internal second (fst (loadImage internal first []))
  = (fst (loadImage internal first []), Some (mkImage (id first) withBitmap true)).
Proof.
  intros Hkey Hload.
  assert (H1 : loadImage internal first []
               = ([(cacheKey (id first) (footageUrl first),
                    mkImage (id first) withBitmap true)],
                  Some (mkImage (id first) withBitmap true))).
  { unfold loadImage. cbv zeta. cbn [mapHas mapGet find option_map].
    rewrite Hload. reflexivity. }
  rewrite H1, Hkey. cbn [fst].
  unfold loadImage, mapHas, mapGet. cbv zeta. cbn [find fst].
  rewrite String.eqb_refl. reflexivity.
Qed.

End ImageCache.

Lemma cache_stays_bounded_witness :
  ImagePreload.maxCacheSize = 50%nat /\
  CacheOk (fst (ImagePreload.loadImage (fun _ => Some true) clip [])).
Proof.
  split; [reflexivity|].
  apply (cache_stays_bounded (fun _ => Some true) clip []).
  split; [constructor | simpl; lia].
Defined.

Lemma loaded_image_is_cached_witness :
  ImagePreload.getImage "clip" "https://example.org/a.png"
    [("clip-https://example.org/a.png"%string, ImagePreload.mkImage "clip" true true)]
  = Some (ImagePreload.mkImage "clip" true true).
Proof.
  apply (loaded_image_is_cached (fun _ => Some true) clip []).
  - split; [constructor | simpl; lia].
  - reflexivity.
Defined.

(** Fifty entries, keyed by what [nat] they were made from. *)
Definition fullCache : ImagePreload.Cache :=
  map (fun n => (String (ascii_of_nat n) EmptyString,
                 ImagePreload.mkImage "old" false true))
      (seq 40 50).

Lemma fullCache_ok : CacheOk fullCache /\ length fullCache = ImagePreload.maxCacheSize.
Proof.
  split; [split|]; [|vm_compute; lia | reflexivity].
  unfold fullCache. rewrite map_map. simpl map.
  repeat (constructor; [simpl; intuition discriminate|]). constructor.
Defined.

Lemma cache_evicts_oldest_first_witness :
  ImagePreload.loadImage (fun _ => Some true) clip fullCache
  = (tl fullCache ++ [("clip-https://example.org/a.png"%string,
                        ImagePreload.mkImage "clip" true true)],
     Some (ImagePreload.mkImage "clip" true true)).
Proof.
  exact (cache_evicts_oldest_first (fun _ => Some true) clip fullCache
                                   (proj1 fullCache_ok) (proj2 fullCache_ok)).
Defined.

(** Different scenes, one key. *)
Definition dashedFirst : Scene := mkScene "a-b" "" [] "" (Num 1) "c" Image.
Definition dashedSecond : Scene := mkScene "a" "" [] "" (Num 1) "b-c" Image.

Lemma cache_key_collision_witness :
  id dashedFirst <> id dashedSecond /\
  snd (ImagePreload.loadImage (fun _ => Some true) dashedSecond
         (fst (ImagePreload.loadImage (fun _ => Some true) dashedFirst [])))
  = Some (ImagePreload.mkImage "a-b" true true).
Proof.
  split; [discriminate|].
  rewrite (cache_key_collision (fun _ => Some true) dashedFirst dashedSecond true
                               eq_refl eq_refl).
  reflexivity.
Defined.
